(** * elf.py: the schema-driven marshaller and the ELF header protocol

    A shallow embedding of [src/elf.py]: the type catalog and the schema
    tables, [BinaryMarshaller] over an [io.BytesIO] buffer, and the
    [ELF] class ([_parse], [serialize], [read]).

    Conventions of the embedding.
    - A byte buffer is a [list byte]; the [io.BytesIO] object is the
      buffer together with its cursor, and every method of the program
      is a computation over that one shared object.
    - A Python exception is an outcome [Raise e]; the buffer object
      survives the exception, so the cursor it was left at is visible.
    - A Python [dict] is an association list in insertion order;
      assigning to an existing key keeps its place.
    - Python integers are [Z].  [seek] takes the offsets CPython
      takes, those that fit [Py_ssize_t].  The length of a buffer is a
      [nat], and a write succeeds however far behind the end the cursor
      stands: running out of memory, and with it the refusal of a
      buffer of 2^63 bytes or more, is outside the model.
    - A Python float is an IEEE-754 binary64 number, held as its 64
      bits; [struct] converts to and from the 32 bits of format [f] as
      C does, rounding to nearest with [binary_round] of the Standard
      Library. *)

From Stdlib Require Import ZArith String List Lia Bool.
From Stdlib Require Import Floats.SpecFloat.
From coqutil Require Import Byte Word.LittleEndianList.
Import ListNotations.

#[local] Set Warnings "-register-all".
Local Open Scope string_scope.
Local Open Scope list_scope.
Local Open Scope Z_scope.

(** ** Python values, exceptions and the buffer monad *)

Module Py.

(** The objects the program handles: [int], [bytes], [float] (the 64
    bits of the binary64 number) and [dict]. *)
Inductive value : Type :=
| VInt (z : Z)
| VBytes (b : list byte)
| VFloat (bits : Z)
| VDict (d : list (string * value)).

(** The exceptions the program can end in.  The two [assert]s of
    [_parse] raise the same Python class; they are told apart by the
    asserted field.  [NameError] is what the two
    [raise RuntimeError(f"... {e_ident['EI_CLASS']}")] lines end in:
    the name [e_ident] is unbound where the message is built. *)
Inductive exn : Type :=
| AssertionError (field : string)
| RuntimeError_NotEnoughBytes
| NameError
| KeyError
| IndexError
| TypeError
| ValueError
| StructError
| RecursionError
| OverflowError.

Inductive outcome (A : Type) : Type :=
| Ok (a : A)
| Raise (e : exn).
Arguments Ok {A} a.
Arguments Raise {A} e.

(** [io.BytesIO]: contents and cursor. *)
Record BytesIO : Type := mkBytesIO { getvalue : list byte; pos : nat }.

Definition M (A : Type) : Type := BytesIO -> outcome A * BytesIO.

Definition ret {A} (a : A) : M A := fun f => (Ok a, f).

Definition raise {A} (e : exn) : M A := fun f => (Raise e, f).

Definition bind {A B} (m : M A) (k : A -> M B) : M B :=
  fun f => match m f with
           | (Ok a, f') => k a f'
           | (Raise e, f') => (Raise e, f')
           end.

Definition lift {A} (o : outcome A) : M A := fun f => (o, f).

(** [d[k]] of an association list. *)
Fixpoint assoc {A} (k : string) (d : list (string * A)) : option A :=
  match d with
  | [] => None
  | (k', v) :: d' => if String.eqb k k' then Some v else assoc k d'
  end.

(** [d[k] = v]: replaces in place, else appends. *)
Fixpoint dict_set {A} (d : list (string * A)) (k : string) (v : A)
  : list (string * A) :=
  match d with
  | [] => [(k, v)]
  | (k', v') :: d' =>
      if String.eqb k k' then (k', v) :: d' else (k', v') :: dict_set d' k v
  end.

(** [obj[name]] for a string [name]. *)
Definition getitem (obj : value) (name : string) : outcome value :=
  match obj with
  | VDict d => match assoc name d with Some v => Ok v | None => Raise KeyError end
  | _ => Raise TypeError
  end.

(** [v == n] for an integer literal [n]. *)
Definition eq_int (v : value) (n : Z) : bool :=
  match v with VInt z => Z.eqb z n | _ => false end.

Definition byte_eqb (a b : byte) : bool := Z.eqb (byte.unsigned a) (byte.unsigned b).

Fixpoint bytes_eqb (a b : list byte) : bool :=
  match a, b with
  | [], [] => true
  | x :: a', y :: b' => byte_eqb x y && bytes_eqb a' b'
  | _, _ => false
  end.

(** [v == b] for a bytes literal [b]. *)
Definition eq_bytes (v : value) (b : list byte) : bool :=
  match v with VBytes x => bytes_eqb x b | _ => false end.

(** [range(v)]: the number of iterations. *)
Definition range (v : value) : outcome nat :=
  match v with VInt z => Ok (Z.to_nat z) | _ => Raise TypeError end.

(** [l[i]] of a list. *)
Definition index {A} (l : list A) (i : nat) : outcome A :=
  match nth_error l i with Some a => Ok a | None => Raise IndexError end.

(** [assert c], tagged with the field it is about. *)
Definition assert (field : string) (c : bool) : M unit :=
  if c then ret tt else raise (AssertionError field).

(** The bytes [b[p : p + n]]. *)
Definition slice (b : list byte) (p n : nat) : list byte := firstn n (skipn p b).

(** [file.read(size)]: up to [size] bytes from the cursor (all that is
    left when [size] is negative); the cursor moves by what was read. *)
Definition file_read (size : Z) : M (list byte) :=
  fun f =>
    let left := (length (getvalue f) - pos f)%nat in
    let k := if size <? 0 then left else Nat.min (Z.to_nat size) left in
    (Ok (slice (getvalue f) (pos f) k), mkBytesIO (getvalue f) (pos f + k)%nat).

(** [file.write(b)]: overwrites from the cursor, growing the buffer
    and padding an overseek gap with zero bytes; writing nothing
    changes nothing. *)
Definition file_write (b : list byte) : M unit :=
  fun f =>
    match b with
    | [] => (Ok tt, f)
    | _ =>
        let d := getvalue f in
        let p := pos f in
        (Ok tt,
         mkBytesIO (firstn p d ++ repeat Byte.x00 (p - length d)%nat ++ b
                      ++ skipn (p + length b)%nat d)
                   (p + length b)%nat)
    end.

(** [file.seek(offset)], absolute: the offset has to fit the signed
    64 bits of [Py_ssize_t] and must not be negative. *)
Definition file_seek (offset : value) : M unit :=
  fun f =>
    match offset with
    | VInt z =>
        if (z <? - 2 ^ 63) || (2 ^ 63 <=? z) then (Raise OverflowError, f)
        else if z <? 0 then (Raise ValueError, f)
        else (Ok tt, mkBytesIO (getvalue f) (Z.to_nat z))
    | _ => (Raise TypeError, f)
    end.

Definition file_tell : M nat := fun f => (Ok (pos f), f).

End Py.
Import Py.

Declare Scope py_scope.
Delimit Scope py_scope with py.
Notation "x <- m ;; k" := (bind m (fun x => k))
  (at level 61, m at next level, right associativity) : py_scope.
Notation "m ;;; k" := (bind m (fun _ => k))
  (at level 61, right associativity) : py_scope.
Local Open Scope py_scope.

(** ** Floats *)

Module Float.

(** An IEEE-754 interchange format: [mw] bits of mantissa below [ew]
    bits of exponent below the sign bit. *)
Record layout : Type := mkLayout { mw : Z; ew : Z }.

Definition binary32 : layout := mkLayout 23 8.
Definition binary64 : layout := mkLayout 52 11.

Definition prec (L : layout) : Z := mw L + 1.
Definition emax (L : layout) : Z := 2 ^ (ew L - 1).

Definition man_of (L : layout) (bits : Z) : Z := bits mod 2 ^ mw L.
Definition exp_of (L : layout) (bits : Z) : Z := (bits / 2 ^ mw L) mod 2 ^ ew L.
Definition sign_of (L : layout) (bits : Z) : bool :=
  (bits / 2 ^ (mw L + ew L)) mod 2 =? 1.

Definition sign_bit (L : layout) (s : bool) : Z :=
  if s then 2 ^ (mw L + ew L) else 0.

Definition is_nan (L : layout) (bits : Z) : bool :=
  (exp_of L bits =? 2 ^ ew L - 1) && negb (man_of L bits =? 0).

(** The number a bit pattern stands for. *)
Definition of_bits (L : layout) (bits : Z) : spec_float :=
  let s := sign_of L bits in
  let e := exp_of L bits in
  let m := man_of L bits in
  if e =? 0 then
    if m =? 0 then S754_zero s
    else S754_finite s (Z.to_pos m) (emin (prec L) (emax L))
  else if e =? 2 ^ ew L - 1 then
    if m =? 0 then S754_infinity s else S754_nan
  else S754_finite s (Z.to_pos (m + 2 ^ mw L)) (e - 1 + emin (prec L) (emax L)).

(** The bit pattern of a number of the format; a NaN gets the quiet
    one. *)
Definition to_bits (L : layout) (x : spec_float) : Z :=
  match x with
  | S754_zero s => sign_bit L s
  | S754_infinity s => sign_bit L s + (2 ^ ew L - 1) * 2 ^ mw L
  | S754_nan => (2 ^ ew L - 1) * 2 ^ mw L + 2 ^ (mw L - 1)
  | S754_finite s m e =>
      sign_bit L s + (e - emin (prec L) (emax L)) * 2 ^ mw L + Z.pos m
  end.

(** A number rounded to the format, to nearest, ties to even. *)
Definition round (L : layout) (x : spec_float) : spec_float :=
  match x with
  | S754_finite s m e => binary_round (prec L) (emax L) s m e
  | _ => x
  end.

(** The C conversion of a [float] to a [double]: exact; a NaN keeps
    its sign and payload and is made quiet. *)
Definition widen (bits : Z) : Z :=
  if is_nan binary32 bits then
    sign_bit binary64 (sign_of binary32 bits)
    + (2 ^ 11 - 1) * 2 ^ 52
    + Z.lor (man_of binary32 bits) (2 ^ 22) * 2 ^ 29
  else to_bits binary64 (round binary64 (of_bits binary32 bits)).

(** The C conversion of a [double] to a [float]: rounded; [None] when
    a finite number rounds to an infinity. *)
Definition narrow (bits : Z) : option Z :=
  if is_nan binary64 bits then
    Some (sign_bit binary32 (sign_of binary64 bits)
          + (2 ^ 8 - 1) * 2 ^ 23
          + Z.lor (man_of binary64 bits / 2 ^ 29) (2 ^ 22))
  else
    match of_bits binary64 bits with
    | S754_finite s m e =>
        match binary_round (prec binary32) (emax binary32) s m e with
        | S754_infinity _ => None
        | y => Some (to_bits binary32 y)
        end
    | x => Some (to_bits binary32 x)
    end.

(** [float(z)] of a Python integer: rounded; [None] when too large. *)
Definition of_int (z : Z) : option Z :=
  match binary_normalize (prec binary64) (emax binary64) z 0 false with
  | S754_infinity _ => None
  | y => Some (to_bits binary64 y)
  end.

End Float.

(** ** The [struct] module, as far as the program uses it *)

Module Struct.

(** Format characters of [typeNames]. *)
Inductive format : Type := Fb | FB | Fh | FH | Fi | FI | Fq | FQ | Ff | Fd | Fs.

(** ["<"] and [">"]. *)
Inductive byteorder : Type := LittleEndian | BigEndian.

(** [struct.calcsize] of one format character. *)
Definition calcsize (fmt : format) : nat :=
  match fmt with
  | Fb | FB | Fs => 1
  | Fh | FH => 2
  | Fi | FI | Ff => 4
  | Fq | FQ | Fd => 8
  end%nat.

Definition is_signed (fmt : format) : bool :=
  match fmt with Fb | Fh | Fi | Fq => true | _ => false end.

Definition is_float (fmt : format) : bool :=
  match fmt with Ff | Fd => true | _ => false end.

Definition is_bytes (fmt : format) : bool :=
  match fmt with Fs => true | _ => false end.

(** The bytes of one item, least significant first. *)
Definition ordered (bo : byteorder) (chunk : list byte) : list byte :=
  match bo with LittleEndian => chunk | BigEndian => rev chunk end.

(** One item of [calcsize fmt] bytes decoded.  Format [d] holds the
    bits of the float; format [f] holds a C [float], which is
    converted. *)
Definition decode (bo : byteorder) (fmt : format) (chunk : list byte) : value :=
  let u := le_combine (ordered bo chunk) in
  let bits := 8 * Z.of_nat (calcsize fmt) in
  if is_bytes fmt then VBytes chunk
  else if is_float fmt then
    VFloat (match fmt with Ff => Float.widen u | _ => u end)
  else if is_signed fmt then VInt (if u <? 2 ^ (bits - 1) then u else u - 2 ^ bits)
  else VInt u.

(** [n] consecutive pieces of [w] bytes. *)
Fixpoint chunks (w n : nat) (b : list byte) : list (list byte) :=
  match n with
  | O => []
  | S n' => firstn w b :: chunks w n' (skipn w b)
  end.

(** [struct.unpack(f"{endian}{count}{fmt}", b)] on a buffer of the
    right length: the tuple of items.  [count] before [s] is the
    length of a single bytes item. *)
Definition unpack (bo : byteorder) (count : Z) (fmt : format) (b : list byte)
  : list value :=
  if is_bytes fmt then [VBytes b]
  else map (decode bo fmt) (chunks (calcsize fmt) (Z.to_nat count) b).

Definition in_range (fmt : format) (z : Z) : bool :=
  let bits := 8 * Z.of_nat (calcsize fmt) in
  if is_signed fmt then (- 2 ^ (bits - 1) <=? z) && (z <? 2 ^ (bits - 1))
  else (0 <=? z) && (z <? 2 ^ bits).

(** The float a float format packs: the float itself, or [float(z)]
    of an integer. *)
Definition as_double (obj : value) : option Z :=
  match obj with
  | VFloat d => Some d
  | VInt z => Float.of_int z
  | _ => None
  end.

(** [struct.pack(f"{endian}{count}{fmt}", obj)], one argument: a bytes
    item is cut or zero-padded to [count]; a number needs the format to
    declare exactly one item; an integer must be in range, and a float
    too large for format [f] is an [OverflowError]. *)
Definition pack (bo : byteorder) (count : Z) (fmt : format) (obj : value)
  : outcome (list byte) :=
  if is_bytes fmt then
    match obj with
    | VBytes b =>
        if count <? 0 then Raise StructError
        else let n := Z.to_nat count in
             Ok (firstn n b ++ repeat Byte.x00 (n - length b)%nat)
    | _ => Raise StructError
    end
  else if is_float fmt then
    if count =? 1 then
      match as_double obj with
      | None => Raise StructError
      | Some d =>
          match fmt with
          | Ff => match Float.narrow d with
                  | Some s => Ok (ordered bo (le_split 4 s))
                  | None => Raise OverflowError
                  end
          | _ => Ok (ordered bo (le_split 8 d))
          end
      end
    else Raise StructError
  else
    match obj with
    | VInt z =>
        if (count =? 1) && in_range fmt z
        then Ok (ordered bo (le_split (calcsize fmt) z))
        else Raise StructError
    | _ => Raise StructError
    end.

End Struct.
Import Struct.

(** ** Constants and schema tables *)

Definition ELFMAG : list byte := [Byte.x7f; Byte.x45; Byte.x4c; Byte.x46].
Definition SELFMAG : Z := 4.
Definition ELFCLASS32 : Z := 1.
Definition ELFCLASS64 : Z := 2.
Definition ELFDATA2LSB : Z := 1.
Definition ELFDATA2MSB : Z := 2.
Definition EV_CURRENT : Z := 1.

(** A schema: [(name, (typename, count))] in order. *)
Definition scheme : Type := list (string * (string * Z)).

Definition Elf_Ident : scheme :=
  [ ("ELF_MAG",       ("char", SELFMAG));
    ("EI_CLASS",      ("uint8", 1));
    ("EI_DATA",       ("uint8", 1));
    ("EI_VERSION",    ("uint8", 1));
    ("EI_OSABI",      ("uint8", 1));
    ("EI_ABIVERSION", ("uint8", 1));
    ("EI_PAD",        ("char", 7)) ].

Definition Elf32_Ehdr : scheme :=
  [ ("e_ident",     ("Elf_Ident", 1));
    ("e_type",      ("Elf32_Half", 1));
    ("e_machine",   ("Elf32_Half", 1));
    ("e_version",   ("Elf32_Word", 1));
    ("e_entry",     ("Elf32_Addr", 1));
    ("e_phoff",     ("Elf32_Off", 1));
    ("e_shoff",     ("Elf32_Off", 1));
    ("e_flags",     ("Elf32_Word", 1));
    ("e_ehsize",    ("Elf32_Half", 1));
    ("e_phentsize", ("Elf32_Half", 1));
    ("e_phnum",     ("Elf32_Half", 1));
    ("e_shentsize", ("Elf32_Half", 1));
    ("e_shnum",     ("Elf32_Half", 1));
    ("e_shstrndx",  ("Elf32_Half", 1)) ].

Definition Elf64_Ehdr : scheme :=
  [ ("e_ident",     ("Elf_Ident", 1));
    ("e_type",      ("Elf64_Half", 1));
    ("e_machine",   ("Elf64_Half", 1));
    ("e_version",   ("Elf64_Word", 1));
    ("e_entry",     ("Elf64_Addr", 1));
    ("e_phoff",     ("Elf64_Off", 1));
    ("e_shoff",     ("Elf64_Off", 1));
    ("e_flags",     ("Elf64_Word", 1));
    ("e_ehsize",    ("Elf64_Half", 1));
    ("e_phentsize", ("Elf64_Half", 1));
    ("e_phnum",     ("Elf64_Half", 1));
    ("e_shentsize", ("Elf64_Half", 1));
    ("e_shnum",     ("Elf64_Half", 1));
    ("e_shstrndx",  ("Elf64_Half", 1)) ].

Definition Elf32_Phdr : scheme :=
  [ ("p_type",   ("Elf32_Word", 1));
    ("p_offset", ("Elf32_Off", 1));
    ("p_vaddr",  ("Elf32_Addr", 1));
    ("p_paddr",  ("Elf32_Addr", 1));
    ("p_filesz", ("Elf32_Word", 1));
    ("p_memsz",  ("Elf32_Word", 1));
    ("p_flags",  ("Elf32_Word", 1));
    ("p_align",  ("Elf32_Word", 1)) ].

Definition Elf64_Phdr : scheme :=
  [ ("p_type",   ("Elf64_Word", 1));
    ("p_flags",  ("Elf64_Word", 1));
    ("p_offset", ("Elf64_Off", 1));
    ("p_vaddr",  ("Elf64_Addr", 1));
    ("p_paddr",  ("Elf64_Addr", 1));
    ("p_filesz", ("Elf64_Xword", 1));
    ("p_memsz",  ("Elf64_Xword", 1));
    ("p_align",  ("Elf64_Xword", 1)) ].

Definition Elf32_Shdr : scheme :=
  [ ("sh_name",      ("Elf32_Word", 1));
    ("sh_type",      ("Elf32_Word", 1));
    ("sh_flags",     ("Elf32_Word", 1));
    ("sh_addr",      ("Elf32_Addr", 1));
    ("sh_offset",    ("Elf32_Off", 1));
    ("sh_size",      ("Elf32_Word", 1));
    ("sh_link",      ("Elf32_Word", 1));
    ("sh_info",      ("Elf32_Word", 1));
    ("sh_addralign", ("Elf32_Word", 1));
    ("sh_entsize",   ("Elf32_Word", 1)) ].

Definition Elf64_Shdr : scheme :=
  [ ("sh_name",      ("Elf64_Word", 1));
    ("sh_type",      ("Elf64_Word", 1));
    ("sh_flags",     ("Elf64_Xword", 1));
    ("sh_addr",      ("Elf64_Addr", 1));
    ("sh_offset",    ("Elf64_Off", 1));
    ("sh_size",      ("Elf64_Xword", 1));
    ("sh_link",      ("Elf64_Word", 1));
    ("sh_info",      ("Elf64_Word", 1));
    ("sh_addralign", ("Elf64_Xword", 1));
    ("sh_entsize",   ("Elf64_Xword", 1)) ].

(** [globals()[typeName]] for the names [read] and [write] look up. *)
Definition globals : list (string * scheme) :=
  [ ("Elf_Ident", Elf_Ident); ("Elf32_Ehdr", Elf32_Ehdr); ("Elf64_Ehdr", Elf64_Ehdr) ].

(** ** BinaryMarshaller *)

Module BinaryMarshaller.

Definition typeNames : list (string * format) :=
  [ ("int8", Fb); ("uint8", FB); ("int16", Fh); ("uint16", FH);
    ("int32", Fi); ("uint32", FI); ("int64", Fq); ("uint64", FQ);
    ("float", Ff); ("double", Fd); ("char", Fs);
    ("Elf32_Half", FH); ("Elf32_Word", FI); ("Elf32_Off", FI); ("Elf32_Addr", FI);
    ("Elf64_Half", FH); ("Elf64_Word", FI); ("Elf64_Off", FQ); ("Elf64_Addr", FQ);
    ("Elf64_Xword", FQ) ].

Definition schemes : list string := ["Elf_Ident"; "Elf32_Ehdr"; "Elf64_Ehdr"].

(** [typeName in self.schemes] *)
Definition in_schemes (typeName : string) : bool :=
  existsb (String.eqb typeName) schemes.

Definition seek (offset : value) : M unit := file_seek offset.

Definition tell : M nat := file_tell.

(** The [if endian == ELFDATA2LSB: "<" else: ">"] of [read] and [write]. *)
Definition endian_char (endian : value) : byteorder :=
  if eq_int endian ELFDATA2LSB then LittleEndian else BigEndian.

(** The part of [read] below the schema test: look the format up, read
    [count * calcsize] bytes, fail on a short read, unpack and keep
    item [0] of the tuple. *)
Definition read_leaf (typeName : string) (count : Z) (endian : value) : M value :=
  let bo := endian_char endian in
  match assoc typeName typeNames with
  | None => raise KeyError
  | Some typeFormat =>
      let typeSize := count * Z.of_nat (calcsize typeFormat) in
      b <- file_read typeSize ;;
      if negb (typeSize =? Z.of_nat (length b)) then raise RuntimeError_NotEnoughBytes
      else lift (index (unpack bo count typeFormat b) 0)
  end.

(** The loop of [readStruct], with [rd] for [self.read]. *)
Fixpoint readStruct_loop (rd : string -> Z -> value -> M value)
  (fields : scheme) (endian : value) (res : list (string * value)) : M value :=
  match fields with
  | [] => ret (VDict res)
  | (name, (typename, count)) :: rest =>
      v <- rd typename count endian ;;
      readStruct_loop rd rest endian (dict_set res name v)
  end.

(** [read], which calls [readStruct] on a schema name, which calls
    [read] on every field.  [depth] bounds that nesting; the schema
    tables nest two deep, see [read_depth_enough] and
    [write_depth_enough]. *)
Fixpoint read_at (depth : nat) (typeName : string) (count : Z) (endian : value)
  : M value :=
  if in_schemes typeName then
    match depth with
    | O => raise RecursionError
    | S d =>
        match assoc typeName globals with
        | None => raise KeyError
        | Some sch => readStruct_loop (read_at d) sch endian []
        end
    end
  else read_leaf typeName count endian.

Definition read (typeName : string) (count : Z) (endian : value) : M value :=
  read_at 2 typeName count endian.

Definition readStruct (sch : scheme) (endian : value) : M value :=
  readStruct_loop read sch endian [].

Definition write_leaf (obj : value) (typeName : string) (count : Z) (endian : value)
  : M unit :=
  let bo := endian_char endian in
  match assoc typeName typeNames with
  | None => raise KeyError
  | Some typeFormat =>
      obj_packed <- lift (pack bo count typeFormat obj) ;;
      file_write obj_packed
  end.

(** The loop of [writeStruct], with [wr] for [self.write]. *)
Fixpoint writeStruct_loop (wr : value -> string -> Z -> value -> M unit)
  (struct : value) (fields : scheme) (endian : value) : M unit :=
  match fields with
  | [] => ret tt
  | (name, (typename, count)) :: rest =>
      v <- lift (getitem struct name) ;;
      wr v typename count endian ;;;
      writeStruct_loop wr struct rest endian
  end.

Fixpoint write_at (depth : nat) (obj : value) (typeName : string) (count : Z)
  (endian : value) : M unit :=
  if in_schemes typeName then
    match depth with
    | O => raise RecursionError
    | S d =>
        match assoc typeName globals with
        | None => raise KeyError
        | Some sch => writeStruct_loop (write_at d) obj sch endian
        end
    end
  else write_leaf obj typeName count endian.

Definition write (obj : value) (typeName : string) (count : Z) (endian : value)
  : M unit :=
  write_at 2 obj typeName count endian.

Definition writeStruct (struct : value) (sch : scheme) (endian : value) : M unit :=
  writeStruct_loop write struct sch endian.

(** [readBytes]: whatever [file.read] returns, short or not. *)
Definition readBytes (numBytes : Z) : M (list byte) := file_read numBytes.

(** The two kinds of object [readCString] compares: what [file.read]
    returns and a string literal.  Objects of different kinds are
    never equal. *)
Inductive pyobj : Type :=
| PBytes (b : list byte)
| PStr (s : string).

Definition py_eq (x y : pyobj) : bool :=
  match x, y with
  | PBytes a, PBytes b => bytes_eqb a b
  | PStr a, PStr b => String.eqb a b
  | _, _ => false
  end.

(** ["".join(res)]: a string separator joins strings only. *)
Definition str_join (res : list pyobj) : outcome string :=
  fold_right (fun x acc =>
                match x, acc with
                | PStr s, Ok t => Ok (s ++ t)%string
                | PStr _, Raise ex => Raise ex
                | PBytes _, _ => Raise TypeError
                end) (Ok EmptyString) res.

(** The [while True] loop of [readCString], run for at most [steps]
    iterations: [None] when it is still looping after them. *)
Fixpoint readCString_loop (steps : nat) (res : list pyobj) : M (option string) :=
  match steps with
  | O => ret None
  | S k =>
      c <- file_read 1 ;;
      if py_eq (PBytes c) (PStr (String Ascii.zero EmptyString))
      then (s <- lift (str_join res) ;; ret (Some s))
      else readCString_loop k (res ++ [PBytes c])
  end.

Definition readCString (steps : nat) : M (option string) := readCString_loop steps [].

End BinaryMarshaller.
Import BinaryMarshaller.

(** ** The ELF class *)

Module ELF.

(** The attributes [_parse] sets on [self]; [self.file] is the buffer
    object the computations run on. *)
Record t : Type := mk {
  e_ident : value;
  ehdr : value;
  phdrs : list value;
  shdrs : list value
}.

(** [for _ in range(n): l.append(bm.readStruct(sch, endian = endian))] *)
Fixpoint read_entries (n : nat) (sch : scheme) (endian : value) (l : list value)
  : M (list value) :=
  match n with
  | O => ret l
  | S n' =>
      entry <- readStruct sch endian ;;
      read_entries n' sch endian (l ++ [entry])
  end.

(** [for i in range(n): bm.writeStruct(l[i], sch, endian = endian)],
    with [indices] for [range(n)]. *)
Fixpoint write_entries (indices : list nat) (l : list value) (sch : scheme)
  (endian : value) : M unit :=
  match indices with
  | [] => ret tt
  | i :: rest =>
      entry <- lift (index l i) ;;
      writeStruct entry sch endian ;;;
      write_entries rest l sch endian
  end.

(** [_parse], first part: the identification block is read under a
    fixed byte order and checked, and [endian] is taken from it. *)
Definition _parse_ident : M (value * value) :=
  e_ident <- readStruct Elf_Ident (VInt ELFDATA2MSB) ;;
  mag <- lift (getitem e_ident "ELF_MAG") ;;
  assert "ELF_MAG" (eq_bytes mag ELFMAG) ;;;
  ver <- lift (getitem e_ident "EI_VERSION") ;;
  assert "EI_VERSION" (eq_int ver EV_CURRENT) ;;;
  endian <- lift (getitem e_ident "EI_DATA") ;;
  ret (e_ident, endian).

(** [_parse], second part: back to offset 0, the class selects the
    schemas and the file header is read. *)
Definition _parse_ehdr (e_ident endian : value) : M (scheme * scheme * value) :=
  seek (VInt 0) ;;;
  cls <- lift (getitem e_ident "EI_CLASS") ;;
  if eq_int cls ELFCLASS32 then
    ehdr <- readStruct Elf32_Ehdr endian ;;
    ret (Elf32_Phdr, Elf32_Shdr, ehdr)
  else if eq_int cls ELFCLASS64 then
    ehdr <- readStruct Elf64_Ehdr endian ;;
    ret (Elf64_Phdr, Elf64_Shdr, ehdr)
  else raise NameError.

(** [_parse], last part: the two tables. *)
Definition _parse_tables (e_ident endian : value) (sel : scheme * scheme * value)
  : M t :=
  let '(Elf_Phdr, Elf_Shdr, ehdr) := sel in
  e_phoff <- lift (getitem ehdr "e_phoff") ;;
  seek e_phoff ;;;
  e_phnum <- lift (getitem ehdr "e_phnum") ;;
  n_ph <- lift (range e_phnum) ;;
  phdrs <- read_entries n_ph Elf_Phdr endian [] ;;
  e_shoff <- lift (getitem ehdr "e_shoff") ;;
  seek e_shoff ;;;
  e_shnum <- lift (getitem ehdr "e_shnum") ;;
  n_sh <- lift (range e_shnum) ;;
  shdrs <- read_entries n_sh Elf_Shdr endian [] ;;
  ret (mk e_ident ehdr phdrs shdrs).

(** [_parse] after its first part. *)
Definition _parse_from (e_ident endian : value) : M t :=
  sel <- _parse_ehdr e_ident endian ;;
  _parse_tables e_ident endian sel.

Definition _parse : M t :=
  ie <- _parse_ident ;;
  _parse_from (fst ie) (snd ie).

(** [_parse] up to and including the read of the file header: what
    it has in hand when it turns to the tables. *)
Definition _parse_header : M (value * value * (scheme * scheme * value)) :=
  ie <- _parse_ident ;;
  sel <- _parse_ehdr (fst ie) (snd ie) ;;
  ret (fst ie, snd ie, sel).

(** [serialize].  The header is written where the cursor of
    [self.file] stands and with [writeStruct]'s default [endian];
    [deserialize] and [debug] only print.  The last line rebinds
    [self.file] to a fresh buffer of the same bytes. *)
Definition serialize (self : t) : M unit :=
  cls <- lift (getitem (e_ident self) "EI_CLASS") ;;
  sel <- (if eq_int cls ELFCLASS32 then ret (Elf32_Ehdr, Elf32_Phdr, Elf32_Shdr)
          else if eq_int cls ELFCLASS64 then ret (Elf64_Ehdr, Elf64_Phdr, Elf64_Shdr)
          else raise NameError) ;;
  let '(Elf_Ehdr, Elf_Phdr, Elf_Shdr) := sel in
  endian <- lift (getitem (e_ident self) "EI_DATA") ;;
  writeStruct (ehdr self) Elf_Ehdr (VInt ELFDATA2LSB) ;;;
  e_phoff <- lift (getitem (ehdr self) "e_phoff") ;;
  seek e_phoff ;;;
  e_phnum <- lift (getitem (ehdr self) "e_phnum") ;;
  n_ph <- lift (range e_phnum) ;;
  write_entries (seq 0 n_ph) (phdrs self) Elf_Phdr endian ;;;
  e_shoff <- lift (getitem (ehdr self) "e_shoff") ;;
  seek e_shoff ;;;
  e_shnum <- lift (getitem (ehdr self) "e_shnum") ;;
  n_sh <- lift (range e_shnum) ;;
  write_entries (seq 0 n_sh) (shdrs self) Elf_Shdr endian ;;;
  (fun f => (Ok tt, mkBytesIO (getvalue f) 0)).

(** [read]: serialize, then the bytes of the buffer. *)
Definition read (self : t) : M (list byte) :=
  serialize self ;;;
  (fun f => (Ok (getvalue f), f)).

(** [ELF(input_file)]: a fresh buffer of the file's bytes, parsed. *)
Definition init (input : list byte) : outcome t * BytesIO :=
  _parse (mkBytesIO input 0).

(** The binary path of [main]: [ELF(input_file).read()]. *)
Definition main (input : list byte) : outcome (list byte) :=
  fst ((self <- _parse ;; read self) (mkBytesIO input 0)).

End ELF.

(** ** Layout of a schema: sizes, decoders, well-formed fields *)

Module Layout.

Definition names (sch : scheme) : list string := map fst sch.

(** Bytes a leaf field takes. *)
Definition leaf_size (t : string) (c : Z) : nat :=
  match assoc t typeNames with
  | Some fmt => (Z.to_nat c * calcsize fmt)%nat
  | None => O
  end.

(** What [read] makes of the bytes of a leaf field. *)
Definition leaf_dec (e : value) (t : string) (c : Z) (bs : list byte) : value :=
  match assoc t typeNames with
  | Some fmt => hd (VInt 0) (unpack (endian_char e) c fmt bs)
  | None => VInt 0
  end.

Fixpoint struct_size (sz : string -> Z -> nat) (fields : scheme) : nat :=
  match fields with
  | [] => O
  | (_, (t, c)) :: rest => (sz t c + struct_size sz rest)%nat
  end.

(** The dict [readStruct] builds from the bytes [bs], starting from [res]. *)
Fixpoint struct_dec (sz : string -> Z -> nat) (dec : string -> Z -> list byte -> value)
  (fields : scheme) (res : list (string * value)) (bs : list byte)
  : list (string * value) :=
  match fields with
  | [] => res
  | (name, (t, c)) :: rest =>
      struct_dec sz dec rest (dict_set res name (dec t c (firstn (sz t c) bs)))
        (skipn (sz t c) bs)
  end.

Fixpoint size_at (depth : nat) (t : string) (c : Z) : nat :=
  if in_schemes t then
    match depth with
    | O => O
    | S d => match assoc t globals with
             | Some sch => struct_size (size_at d) sch
             | None => O
             end
    end
  else leaf_size t c.

Fixpoint dec_at (depth : nat) (e : value) (t : string) (c : Z) (bs : list byte)
  : value :=
  if in_schemes t then
    match depth with
    | O => VInt 0
    | S d => match assoc t globals with
             | Some sch => VDict (struct_dec (size_at d) (dec_at d e) sch [] bs)
             | None => VInt 0
             end
    end
  else leaf_dec e t c bs.

(** Number of bytes of a schema, and of its entries. *)
Definition sizeof (sch : scheme) : nat := struct_size (size_at 2) sch.

(** The dict [readStruct sch endian] makes of [sizeof sch] bytes. *)
Definition decode_struct (sch : scheme) (e : value) (bs : list byte) : value :=
  VDict (struct_dec (size_at 2) (dec_at 2 e) sch [] bs).

Fixpoint distinct (l : list string) : bool :=
  match l with
  | [] => true
  | x :: l' => negb (existsb (String.eqb x) l') && distinct l'
  end.

(** A leaf [read] can decode: a byte block of any length, or one or
    more numbers. *)
Definition readable_leaf (t : string) (c : Z) : bool :=
  match assoc t typeNames with
  | Some fmt => if is_bytes fmt then 0 <=? c else 1 <=? c
  | None => false
  end.

(** A leaf [write] puts back byte for byte from what [read] returned:
    a byte block, or exactly one integer.  (A float comes back as the
    same number but not always as the same bytes: a signalling NaN of
    format [f] is written quiet.) *)
Definition writable_leaf (t : string) (c : Z) : bool :=
  match assoc t typeNames with
  | Some fmt => if is_bytes fmt then 0 <=? c else negb (is_float fmt) && (c =? 1)
  | None => false
  end.

Fixpoint good_at (leaf : string -> Z -> bool) (depth : nat) (t : string) (c : Z)
  : bool :=
  if in_schemes t then
    match depth with
    | O => false
    | S d => match assoc t globals with
             | Some sch =>
                 forallb (fun fld => good_at leaf d (fst (snd fld)) (snd (snd fld))) sch
                 && distinct (names sch)
             | None => false
             end
    end
  else leaf t c.

(** A schema whose field names are distinct and whose fields are
    nested schemas of the registry, byte blocks, or single integers. *)
Definition wf_field (fld : string * (string * Z)) : bool :=
  in_schemes (fst (snd fld)) || writable_leaf (fst (snd fld)) (snd (snd fld)).

Definition wf_scheme (sch : scheme) : bool :=
  forallb wf_field sch && distinct (names sch).

(** Every number field of the schema, integer or float, has repeat
    count 1. *)
Definition single_numbers (sch : scheme) : bool :=
  forallb (fun fld =>
             match assoc (fst (snd fld)) typeNames with
             | Some fmt => is_bytes fmt || (snd (snd fld) =? 1)
             | None => true
             end) sch.

(** The seven schemas of the program. *)
Definition registry : list scheme :=
  [Elf_Ident; Elf32_Ehdr; Elf64_Ehdr; Elf32_Phdr; Elf64_Phdr; Elf32_Shdr; Elf64_Shdr].

(** [m] holds, for every field, the value decoded from its bytes. *)
Fixpoint fields_hold (sz : string -> Z -> nat) (dec : string -> Z -> list byte -> value)
  (fields : scheme) (bs : list byte) (m : list (string * value)) : Prop :=
  match fields with
  | [] => True
  | (name, (t, c)) :: rest =>
      assoc name m = Some (dec t c (firstn (sz t c) bs))
      /\ fields_hold sz dec rest (skipn (sz t c) bs) m
  end.

(** The schemas [_parse] and [serialize] select for a class byte. *)
Definition Ehdr_of (cls : Z) : scheme :=
  if cls =? ELFCLASS32 then Elf32_Ehdr else Elf64_Ehdr.
Definition Phdr_of (cls : Z) : scheme :=
  if cls =? ELFCLASS32 then Elf32_Phdr else Elf64_Phdr.
Definition Shdr_of (cls : Z) : scheme :=
  if cls =? ELFCLASS32 then Elf32_Shdr else Elf64_Shdr.

(** [n] more bytes are left at offset [p] of [b]. *)
Definition enough (b : list byte) (p n : nat) : Prop := (n <= length b - p)%nat.

(** [rd] reads a field of [n] bytes decoded by [dec]: with [n] bytes
    left it returns [dec] of them and moves the cursor by [n];
    otherwise it raises the short-read error. *)
Definition reads_as (rd : M value) (n : nat) (dec : list byte -> value) : Prop :=
  forall b p,
    (enough b p n ->
     rd (mkBytesIO b p) = (Ok (dec (slice b p n)), mkBytesIO b (p + n)%nat))
    /\ (~ enough b p n ->
        exists p', rd (mkBytesIO b p) = (Raise RuntimeError_NotEnoughBytes, mkBytesIO b p')).

(** [wr] writes back the [n] bytes a value was decoded from. *)
Definition writes_back (wr : value -> M unit) (n : nat) (dec : list byte -> value)
  : Prop :=
  forall bs g, length bs = n -> wr (dec bs) g = file_write bs g.

(** [wr] writes, for a value decoded from [n] bytes, [n] bytes that
    decode to the same value. *)
Definition writes_again (wr : value -> M unit) (n : nat) (dec : list byte -> value)
  : Prop :=
  forall bs g,
    length bs = n ->
    exists bs', length bs' = n /\ dec bs' = dec bs /\ wr (dec bs) g = file_write bs' g.

(** The [k] entries of schema [sch] that lie back to back from offset
    [p] of [b], decoded. *)
Definition entries_at (sch : scheme) (e : value) (b : list byte) (p k : nat)
  : list value :=
  map (fun i => decode_struct sch e (slice b (p + i * sizeof sch) (sizeof sch)))
      (seq 0 k).

(** [self] is what [_parse] makes of [b]: class [c], byte order [e]
    as found in the identification block, the file header decoded from
    the start of [b], and the entries of the two tables decoded from
    the places and in the numbers the header gives; the two offsets
    are ones [seek] takes. *)
Definition parsed_from (b : list byte) (self : ELF.t) (c : Z) (e : value)
  (phoff phnum shoff shnum : Z) : Prop :=
  (c = ELFCLASS32 \/ c = ELFCLASS64)
  /\ ELF.e_ident self = decode_struct Elf_Ident (VInt ELFDATA2MSB) (slice b 0 16)
  /\ getitem (ELF.e_ident self) "EI_CLASS" = Ok (VInt c)
  /\ getitem (ELF.e_ident self) "EI_DATA" = Ok e
  /\ enough b 0 (sizeof (Ehdr_of c))
  /\ ELF.ehdr self = decode_struct (Ehdr_of c) e (slice b 0 (sizeof (Ehdr_of c)))
  /\ getitem (ELF.ehdr self) "e_phoff" = Ok (VInt phoff) /\ 0 <= phoff < 2 ^ 63
  /\ getitem (ELF.ehdr self) "e_phnum" = Ok (VInt phnum) /\ 0 <= phnum
  /\ getitem (ELF.ehdr self) "e_shoff" = Ok (VInt shoff) /\ 0 <= shoff < 2 ^ 63
  /\ getitem (ELF.ehdr self) "e_shnum" = Ok (VInt shnum) /\ 0 <= shnum
  /\ enough b (Z.to_nat phoff) (Z.to_nat phnum * sizeof (Phdr_of c))
  /\ ELF.phdrs self
     = entries_at (Phdr_of c) e b (Z.to_nat phoff) (Z.to_nat phnum)
  /\ enough b (Z.to_nat shoff) (Z.to_nat shnum * sizeof (Shdr_of c))
  /\ ELF.shdrs self
     = entries_at (Shdr_of c) e b (Z.to_nat shoff) (Z.to_nat shnum).

(** Every run of [m], whatever its outcome, takes the buffer from a
    state to one related to it by [R]. *)
Definition respects {A} (R : BytesIO -> BytesIO -> Prop) (m : M A) : Prop :=
  forall f r f', m f = (r, f') -> R f f'.

(** The bytes stay as they are. *)
Definition same_bytes (f f' : BytesIO) : Prop := getvalue f' = getvalue f.

(** The bytes stay as they are and the cursor does not move back. *)
Definition read_on (f f' : BytesIO) : Prop :=
  getvalue f' = getvalue f /\ (pos f <= pos f')%nat.

(** The buffer does not get shorter. *)
Definition grown (f f' : BytesIO) : Prop :=
  (length (getvalue f) <= length (getvalue f'))%nat.

End Layout.
Import Layout.

(** ** Concrete buffers *)

Module Samples.
Import Init.Byte.

Definition zeros (n : nat) : list byte := repeat x00 n.

(** Identification block: magic, class, data encoding, version 1,
    OS/ABI 0, ABI version 0, seven bytes of padding. *)
Definition ident (cls data : byte) : list byte :=
  ELFMAG ++ [cls; data; x01; x00; x00] ++ zeros 7.

(** 32-bit little-endian file of 124 bytes: the header
    ([e_type] 2, [e_machine] 3, [e_version] 1, [e_phoff] 52,
    [e_shoff] 84, [e_ehsize] 52, [e_phentsize] 32, [e_phnum] 1,
    [e_shentsize] 40, [e_shnum] 1), one program header at 52
    ([p_type] 1, [p_filesz] = [p_memsz] = 124, [p_flags] 5,
    [p_align] 4) and one null section header at 84. *)
Definition ehdr32_le : list byte :=
  ident x01 x01
    ++ [x02; x00] ++ [x03; x00] ++ [x01; x00; x00; x00]
    ++ zeros 4 ++ [x34; x00; x00; x00] ++ [x54; x00; x00; x00] ++ zeros 4
    ++ [x34; x00] ++ [x20; x00] ++ [x01; x00] ++ [x28; x00] ++ [x01; x00]
    ++ [x00; x00].

Definition phdr32_le : list byte :=
  [x01; x00; x00; x00] ++ zeros 12
    ++ [x7c; x00; x00; x00] ++ [x7c; x00; x00; x00]
    ++ [x05; x00; x00; x00] ++ [x04; x00; x00; x00].

Definition elf32_le : list byte := ehdr32_le ++ phdr32_le ++ zeros 40.

(** What [_parse] makes of [elf32_le]. *)
Definition elf32_le_model : ELF.t :=
  ELF.mk (decode_struct Elf_Ident (VInt ELFDATA2MSB) (firstn 16 ehdr32_le))
         (decode_struct Elf32_Ehdr (VInt ELFDATA2LSB) ehdr32_le)
         [decode_struct Elf32_Phdr (VInt ELFDATA2LSB) phdr32_le]
         [decode_struct Elf32_Shdr (VInt ELFDATA2LSB) (zeros 40)].

(** 32-bit little-endian file of 84 bytes without section headers:
    the header of [elf32_le] with [e_shoff] 0 and [e_shnum] 0, and the
    program header at 52. *)
Definition elf32_le_nosh : list byte :=
  ident x01 x01
    ++ [x02; x00] ++ [x03; x00] ++ [x01; x00; x00; x00]
    ++ zeros 4 ++ [x34; x00; x00; x00] ++ zeros 4 ++ zeros 4
    ++ [x34; x00] ++ [x20; x00] ++ [x01; x00] ++ [x28; x00] ++ [x00; x00]
    ++ [x00; x00]
    ++ phdr32_le.

(** The fields after the identification block of a 32-bit header with
    empty tables ([e_type] 2, [e_machine] 3, [e_version] 1, offsets
    and counts 0, [e_ehsize] 52, [e_phentsize] 32, [e_shentsize] 40),
    least significant byte first and most significant byte first. *)
Definition bare32_lsb : list byte :=
  [x02; x00] ++ [x03; x00] ++ [x01; x00; x00; x00] ++ zeros 16
    ++ [x34; x00] ++ [x20; x00] ++ [x00; x00] ++ [x28; x00] ++ [x00; x00]
    ++ [x00; x00].

Definition bare32_msb : list byte :=
  [x00; x02] ++ [x00; x03] ++ [x00; x00; x00; x01] ++ zeros 16
    ++ [x00; x34] ++ [x00; x20] ++ [x00; x00] ++ [x00; x28] ++ [x00; x00]
    ++ [x00; x00].

(** 32-bit big-endian file of 52 bytes: a header with empty tables. *)
Definition elf32_be : list byte := ident x01 x02 ++ bare32_msb.

(** The same file with data-encoding byte 0. *)
Definition elf32_data0 : list byte := ident x01 x00 ++ bare32_msb.

(** A 64-bit little-endian header ([e_phoff] 64, [e_phnum] 2) with
    only one 56-byte program header behind it. *)
Definition elf64_short : list byte :=
  ident x02 x01
    ++ [x02; x00] ++ [x3e; x00] ++ [x01; x00; x00; x00]
    ++ zeros 8 ++ [x40; x00; x00; x00; x00; x00; x00; x00] ++ zeros 8 ++ zeros 4
    ++ [x40; x00] ++ [x38; x00] ++ [x02; x00] ++ [x40; x00] ++ [x00; x00]
    ++ [x00; x00]
    ++ zeros 56.

(** A 64-bit little-endian header of 64 bytes with [e_phoff] 2^63 and
    [e_phnum] [n], and nothing behind it. *)
Definition elf64_far_with (n : byte) : list byte :=
  ident x02 x01
    ++ [x02; x00] ++ [x3e; x00] ++ [x01; x00; x00; x00]
    ++ zeros 8 ++ [x00; x00; x00; x00; x00; x00; x00; x80] ++ zeros 8 ++ zeros 4
    ++ [x40; x00] ++ [x38; x00] ++ [n; x00] ++ [x40; x00] ++ [x00; x00]
    ++ [x00; x00].

(** That header with [e_phnum] 1. *)
Definition elf64_far : list byte := elf64_far_with x01.

End Samples.
Import Samples.

(** ** Steps of the buffer monad *)

Section Monad.
Context {A B : Type}.

Lemma bind_ok_inv (m : M A) (k : A -> M B) f b f' :
  bind m k f = (Ok b, f') ->
  exists a f1, m f = (Ok a, f1) /\ k a f1 = (Ok b, f').
Proof.
  unfold bind. destruct (m f) as [[a | e] f1]; intros H.
  - exists a, f1. split; [reflexivity | exact H].
  - discriminate H.
Qed.

Lemma bind_ok (m : M A) (k : A -> M B) f a f1 :
  m f = (Ok a, f1) -> bind m k f = k a f1.
Proof. unfold bind. intros ->. reflexivity. Qed.

Lemma bind_raise (m : M A) (k : A -> M B) f e f1 :
  m f = (Raise e, f1) -> bind m k f = (Raise e, f1).
Proof. unfold bind. intros ->. reflexivity. Qed.
End Monad.

Lemma bind_ext {A B} (m m' : M A) (k k' : A -> M B) f :
  m f = m' f -> (forall a f1, k a f1 = k' a f1) -> bind m k f = bind m' k' f.
Proof.
  intros Hm Hk. unfold bind. rewrite Hm.
  destruct (m' f) as [[a | ex] f1]; [apply Hk | reflexivity].
Qed.

(** ** Slices of a buffer *)

Lemma slice_length b p n : length (slice b p n) = Nat.min n (length b - p).
Proof. unfold slice. rewrite length_firstn, length_skipn. reflexivity. Qed.

Lemma slice_length_enough b p n : enough b p n -> length (slice b p n) = n.
Proof. unfold enough. rewrite slice_length. lia. Qed.

Lemma slice_firstn b p n m : firstn n (slice b p (n + m)) = slice b p n.
Proof. unfold slice. rewrite firstn_firstn. f_equal. lia. Qed.

Lemma slice_skipn b p n m : skipn n (slice b p (n + m)) = slice b (p + n) m.
Proof.
  unfold slice. rewrite skipn_firstn_comm, skipn_skipn.
  f_equal; [lia | f_equal; lia].
Qed.

Lemma slice_all bs : slice bs 0 (length bs) = bs.
Proof. unfold slice. simpl. apply firstn_all. Qed.

Lemma enough_split b p n m :
  enough b p (n + m) <-> enough b p n /\ enough b (p + n) m.
Proof. unfold enough. lia. Qed.

(** ** The buffer operations *)

Lemma file_read_enough size b p :
  0 <= size -> enough b p (Z.to_nat size) ->
  file_read size (mkBytesIO b p)
  = (Ok (slice b p (Z.to_nat size)), mkBytesIO b (p + Z.to_nat size)).
Proof.
  unfold enough, file_read. intros Hs Hn. simpl.
  destruct (size <? 0) eqn:E; [apply Z.ltb_lt in E; lia |].
  rewrite Nat.min_l by exact Hn. reflexivity.
Qed.

Lemma file_read_short size b p :
  ~ (0 <= size /\ enough b p (Z.to_nat size)) ->
  exists bs p', file_read size (mkBytesIO b p) = (Ok bs, mkBytesIO b p')
                /\ Z.of_nat (length bs) <> size.
Proof.
  unfold enough, file_read. intros H. simpl.
  eexists. eexists. split; [reflexivity |].
  rewrite slice_length.
  destruct (size <? 0) eqn:E.
  - apply Z.ltb_lt in E. lia.
  - apply Z.ltb_ge in E. lia.
Qed.

Lemma write_prefix_length (d : list byte) p :
  length (firstn p d ++ repeat Byte.x00 (p - length d)) = p.
Proof. rewrite length_app, length_firstn, repeat_length. lia. Qed.

Lemma file_write_nonempty a d p :
  a <> [] ->
  file_write a (mkBytesIO d p)
  = (Ok tt, mkBytesIO ((firstn p d ++ repeat Byte.x00 (p - length d)) ++ a
                         ++ skipn (p + length a) d) (p + length a)).
Proof.
  destruct a as [| x a]; [congruence |]. intros _.
  unfold file_write. cbn [getvalue pos]. rewrite <- app_assoc. reflexivity.
Qed.

Lemma file_write_app a b g :
  (file_write a ;;; file_write b) g = file_write (a ++ b) g.
Proof.
  destruct a as [| x a]; [reflexivity |].
  destruct b as [| y b]; [rewrite app_nil_r; reflexivity |].
  destruct g as [d p].
  set (xa := x :: a). set (yb := y :: b).
  assert (Ha : xa <> []) by (subst xa; congruence).
  assert (Hb : yb <> []) by (subst yb; congruence).
  assert (Hab : xa ++ yb <> []) by (subst xa; cbn; congruence).
  unfold bind. rewrite (file_write_nonempty xa) by exact Ha.
  rewrite (file_write_nonempty yb) by exact Hb.
  rewrite (file_write_nonempty (xa ++ yb)) by exact Hab.
  pose proof (write_prefix_length d p) as Hlen.
  set (pre := firstn p d ++ repeat Byte.x00 (p - length d)) in *.
  f_equal. f_equal; [| rewrite length_app; lia].
  assert (Hlen2 : length (pre ++ xa) = (p + length xa)%nat)
    by (rewrite length_app; lia).
  rewrite (app_assoc pre xa).
  rewrite firstn_app, Hlen2, Nat.sub_diag. cbn [firstn].
  rewrite app_nil_r, firstn_all2 by lia.
  replace (p + length xa - length ((pre ++ xa) ++ skipn (p + length xa) d))%nat
    with O by (rewrite length_app; lia).
  cbn [repeat]. rewrite app_nil_r.
  rewrite skipn_app, skipn_all2 by lia.
  cbn [app]. rewrite skipn_skipn, Hlen2.
  rewrite <- !app_assoc. do 3 f_equal.
  f_equal. rewrite length_app. lia.
Qed.

(** After a write, the bytes written are found where the cursor stood. *)
Lemma file_write_slice bs g :
  let g' := snd (file_write bs g) in
  fst (file_write bs g) = Ok tt
  /\ enough (getvalue g') (pos g) (length bs)
  /\ slice (getvalue g') (pos g) (length bs) = bs
  /\ (bs <> [] -> pos g' = (pos g + length bs)%nat).
Proof.
  destruct g as [d p]. destruct bs as [| x bs].
  - cbn. unfold enough. repeat split; try lia; congruence.
  - set (xs := x :: bs). assert (Hx : xs <> []) by (subst xs; congruence).
    rewrite (file_write_nonempty xs) by exact Hx. cbn [fst snd getvalue pos].
    pose proof (write_prefix_length d p) as Hlen.
    set (pre := firstn p d ++ repeat Byte.x00 (p - length d)) in *.
    unfold enough, slice. repeat split.
    + rewrite !length_app. lia.
    + rewrite skipn_app, skipn_all2, Hlen, Nat.sub_diag by lia.
      cbn [skipn app]. rewrite firstn_app, Nat.sub_diag. cbn [firstn].
      rewrite app_nil_r. apply firstn_all.
Qed.

(** ** Leaf fields *)

Lemma ordered_length bo bs : length (ordered bo bs) = length bs.
Proof. destruct bo; simpl; [reflexivity | apply length_rev]. Qed.

Lemma ordered_involutive bo bs : ordered bo (ordered bo bs) = bs.
Proof. destruct bo; simpl; [reflexivity | apply rev_involutive]. Qed.

Lemma chunks_one w bs : length bs = w -> chunks w 1 bs = [bs].
Proof. intros <-. simpl. rewrite firstn_all. reflexivity. Qed.

Lemma unpack_nonempty bo c fmt bs :
  (if is_bytes fmt then 0 <=? c else 1 <=? c) = true ->
  index (unpack bo c fmt bs) 0 = Ok (hd (VInt 0) (unpack bo c fmt bs)).
Proof.
  unfold unpack. destruct (is_bytes fmt); intros H; [reflexivity |].
  apply Z.leb_le in H. destruct (Z.to_nat c) eqn:E; [lia | reflexivity].
Qed.

Lemma read_leaf_reads e t c :
  readable_leaf t c = true ->
  reads_as (read_leaf t c e) (leaf_size t c) (leaf_dec e t c).
Proof.
  unfold readable_leaf, read_leaf, leaf_size, leaf_dec.
  destruct (assoc t typeNames) as [fmt |]; [| discriminate].
  intros Hc b p.
  assert (H0 : 0 <= c) by (destruct (is_bytes fmt); apply Z.leb_le in Hc; lia).
  set (size := c * Z.of_nat (calcsize fmt)).
  assert (Hsz : Z.to_nat size = (Z.to_nat c * calcsize fmt)%nat) by (subst size; lia).
  assert (Hs0 : 0 <= size) by (subst size; lia).
  rewrite <- Hsz. split; intros He.
  - erewrite bind_ok by (apply file_read_enough; assumption).
    rewrite slice_length_enough by exact He.
    rewrite Z2Nat.id, Z.eqb_refl by exact Hs0. cbn [negb].
    unfold lift. rewrite unpack_nonempty by exact Hc. reflexivity.
  - destruct (file_read_short size b p) as (bs & p' & Hr & Hl); [tauto |].
    exists p'. erewrite bind_ok by exact Hr.
    apply Z.eqb_neq in Hl. rewrite Z.eqb_sym, Hl. reflexivity.
Qed.

Lemma decode_unsigned_range bs w :
  length bs = w -> 0 <= le_combine bs < 2 ^ (8 * Z.of_nat w).
Proof. intros <-. apply le_combine_bound. Qed.

(** Packing what was unpacked from one item gives the item back. *)
Lemma pack_decode bo fmt bs :
  is_bytes fmt = false -> is_float fmt = false -> length bs = calcsize fmt ->
  pack bo 1 fmt (decode bo fmt bs) = Ok bs.
Proof.
  intros Hb Hf Hl. unfold pack, decode. rewrite Hb, Hf.
  pose proof (decode_unsigned_range (ordered bo bs) (calcsize fmt)) as Hr.
  rewrite ordered_length in Hr. specialize (Hr Hl).
  set (u := le_combine (ordered bo bs)) in *.
  assert (Hsplit : forall z, z mod 2 ^ (Z.of_nat (calcsize fmt) * 8) = u ->
                             ordered bo (le_split (calcsize fmt) z) = bs).
  { intros z Hz. rewrite le_split_mod, Hz. subst u.
    rewrite split_le_combine' by (rewrite ordered_length; exact Hl).
    apply ordered_involutive. }
  destruct (is_signed fmt) eqn:Hs.
  - destruct (u <? 2 ^ (8 * Z.of_nat (calcsize fmt) - 1)) eqn:E;
      [apply Z.ltb_lt in E | apply Z.ltb_ge in E];
      unfold in_range; rewrite Hs;
      destruct fmt; try discriminate; cbn [calcsize] in *;
      change (Z.of_nat 1) with 1 in *; change (Z.of_nat 2) with 2 in *;
      change (Z.of_nat 4) with 4 in *; change (Z.of_nat 8) with 8 in *;
      cbn -[ordered le_split Z.leb Z.ltb] in *;
      (rewrite Hsplit;
       [ destruct (_ <=? _) eqn:E1; destruct (_ <? _) eqn:E2; try reflexivity;
         try apply Z.leb_gt in E1; try apply Z.ltb_ge in E2; lia
       | first [ apply Z.mod_small; lia
               | symmetry; apply (Z.mod_unique_pos _ _ (-1)); lia ] ]).
  - unfold in_range. rewrite Hs.
    rewrite Hsplit by (apply Z.mod_small; rewrite Z.mul_comm; exact Hr).
    destruct (0 <=? u) eqn:E1; [| apply Z.leb_gt in E1; lia].
    destruct (u <? 2 ^ (8 * Z.of_nat (calcsize fmt))) eqn:E2;
      [| apply Z.ltb_ge in E2; lia].
    reflexivity.
Qed.

Lemma write_leaf_writes e t c :
  writable_leaf t c = true ->
  writes_back (fun v => write_leaf v t c e) (leaf_size t c) (leaf_dec e t c).
Proof.
  unfold writable_leaf, write_leaf, leaf_size, leaf_dec, writes_back.
  destruct (assoc t typeNames) as [fmt |]; [| discriminate].
  intros Hc bs g Hl. unfold unpack.
  destruct (is_bytes fmt) eqn:Hb.
  - apply Z.leb_le in Hc. cbn [hd]. unfold pack. rewrite Hb.
    destruct fmt; try discriminate. cbn [calcsize] in Hl.
    destruct (c <? 0) eqn:E; [apply Z.ltb_lt in E; lia |].
    replace (Z.to_nat c) with (length bs) by lia.
    rewrite firstn_all, Nat.sub_diag. cbn [repeat]. rewrite app_nil_r.
    reflexivity.
  - apply andb_true_iff in Hc. destruct Hc as [Hf Hc].
    apply negb_true_iff in Hf. apply Z.eqb_eq in Hc. subst c.
    change (Z.to_nat 1) with 1%nat in *. rewrite Nat.mul_1_l in Hl.
    rewrite chunks_one by exact Hl. cbn [map hd].
    rewrite pack_decode by assumption. reflexivity.
Qed.

(** ** Dicts *)

Lemma assoc_dict_set_same {A} (d : list (string * A)) k v :
  assoc k (dict_set d k v) = Some v.
Proof.
  induction d as [| [k' v'] d IH]; simpl.
  - rewrite String.eqb_refl. reflexivity.
  - destruct (String.eqb k k') eqn:E; simpl; rewrite E; [reflexivity | exact IH].
Qed.

Lemma assoc_dict_set_other {A} (d : list (string * A)) k k' v :
  String.eqb k k' = false -> assoc k (dict_set d k' v) = assoc k d.
Proof.
  intros Hk. induction d as [| [k2 v2] d IH]; simpl.
  - rewrite Hk. reflexivity.
  - destruct (String.eqb k' k2) eqn:E; simpl.
    + apply String.eqb_eq in E. subst k2. rewrite Hk. reflexivity.
    + destruct (String.eqb k k2); [reflexivity | exact IH].
Qed.

Section Loops.
Variable sz : string -> Z -> nat.
Variable dec : string -> Z -> list byte -> value.
Variable e : value.

Lemma struct_dec_assoc_notin k fields :
  existsb (String.eqb k) (names fields) = false ->
  forall res bs, assoc k (struct_dec sz dec fields res bs) = assoc k res.
Proof.
  induction fields as [| [name [t c]] rest IH]; intros Hk res bs; simpl.
  - reflexivity.
  - simpl in Hk. apply orb_false_iff in Hk. destruct Hk as [Hk Hrest].
    rewrite IH by exact Hrest. apply assoc_dict_set_other. exact Hk.
Qed.

Lemma struct_dec_holds fields :
  distinct (names fields) = true ->
  forall res bs, fields_hold sz dec fields bs (struct_dec sz dec fields res bs).
Proof.
  induction fields as [| [name [t c]] rest IH]; intros Hd res bs; simpl.
  - exact I.
  - simpl in Hd. apply andb_true_iff in Hd. destruct Hd as [Hn Hd].
    apply negb_true_iff in Hn. split.
    + rewrite struct_dec_assoc_notin by exact Hn. apply assoc_dict_set_same.
    + apply IH. exact Hd.
Qed.

Variable rd : string -> Z -> value -> M value.

Lemma readStruct_loop_reads fields :
  (forall name t c, In (name, (t, c)) fields ->
                    reads_as (rd t c e) (sz t c) (dec t c)) ->
  forall res,
    reads_as (readStruct_loop rd fields e res) (struct_size sz fields)
             (fun bs => VDict (struct_dec sz dec fields res bs)).
Proof.
  induction fields as [| [name [t c]] rest IH]; intros Hf res b p.
  - simpl. split.
    + intros _. unfold ret. rewrite Nat.add_0_r. reflexivity.
    + unfold enough. lia.
  - assert (Hhead : reads_as (rd t c e) (sz t c) (dec t c))
      by (apply (Hf name); left; reflexivity).
    assert (Hrest : forall name' t' c', In (name', (t', c')) rest ->
                      reads_as (rd t' c' e) (sz t' c') (dec t' c'))
      by (intros; apply (Hf name'); right; assumption).
    specialize (IH Hrest).
    destruct (Hhead b p) as [Hok Hshort].
    cbn [readStruct_loop struct_size struct_dec]. split.
    + intros He. apply enough_split in He. destruct He as [H1 H2].
      erewrite bind_ok by (apply Hok; exact H1).
      destruct (IH (dict_set res name (dec t c (slice b p (sz t c))))
                   b (p + sz t c)%nat) as [IHok _].
      rewrite IHok by exact H2.
      rewrite slice_firstn, slice_skipn, Nat.add_assoc. reflexivity.
    + intros He. destruct (Nat.le_gt_cases (sz t c) (length b - p)) as [H1 | H1].
      * erewrite bind_ok by (apply Hok; exact H1).
        destruct (IH (dict_set res name (dec t c (slice b p (sz t c))))
                     b (p + sz t c)%nat) as [_ IHshort].
        apply IHshort. unfold enough in *. lia.
      * destruct Hshort as [p' Hp']; [unfold enough; lia |].
        exists p'. erewrite bind_raise by exact Hp'. reflexivity.
Qed.

Variable wr : value -> string -> Z -> value -> M unit.

Lemma writeStruct_loop_writes fields m :
  (forall name t c, In (name, (t, c)) fields ->
                    writes_back (fun v => wr v t c e) (sz t c) (dec t c)) ->
  forall bs g,
    length bs = struct_size sz fields ->
    fields_hold sz dec fields bs m ->
    writeStruct_loop wr (VDict m) fields e g = file_write bs g.
Proof.
  induction fields as [| [name [t c]] rest IH]; intros Hf bs g Hl Hh.
  - simpl in Hl. apply length_zero_iff_nil in Hl. subst bs. reflexivity.
  - cbn [writeStruct_loop struct_size fields_hold] in *.
    destruct Hh as [Hm Hh].
    assert (Hhead : writes_back (fun v => wr v t c e) (sz t c) (dec t c))
      by (apply (Hf name); left; reflexivity).
    assert (Hrest : forall name' t' c', In (name', (t', c')) rest ->
                      writes_back (fun v => wr v t' c' e) (sz t' c') (dec t' c'))
      by (intros; apply (Hf name'); right; assumption).
    unfold lift, getitem. rewrite Hm. unfold bind at 1.
    rewrite <- (firstn_skipn (sz t c) bs) at 2.
    rewrite <- file_write_app. unfold bind.
    rewrite (Hhead (firstn (sz t c) bs) g) by (rewrite length_firstn; lia).
    destruct (file_write (firstn (sz t c) bs) g) as [[[] | ex] g1]; [| reflexivity].
    apply (IH Hrest); [rewrite length_skipn; lia | exact Hh].
Qed.
End Loops.

(** ** Fields at every nesting depth *)

Lemma forallb_In_field (P : string -> Z -> bool) (fields : scheme) :
  forallb (fun fld => P (fst (snd fld)) (snd (snd fld))) fields = true ->
  forall name t c, In (name, (t, c)) fields -> P t c = true.
Proof.
  intros H name t c Hin. rewrite forallb_forall in H. exact (H _ Hin).
Qed.

Lemma read_at_leaf d t c e :
  in_schemes t = false -> read_at d t c e = read_leaf t c e.
Proof. intros H. destruct d; simpl; rewrite H; reflexivity. Qed.

Lemma write_at_leaf d v t c e :
  in_schemes t = false -> write_at d v t c e = write_leaf v t c e.
Proof. intros H. destruct d; simpl; rewrite H; reflexivity. Qed.

Lemma size_at_leaf d t c : in_schemes t = false -> size_at d t c = leaf_size t c.
Proof. intros H. destruct d; simpl; rewrite H; reflexivity. Qed.

Lemma dec_at_leaf d e t c : in_schemes t = false -> dec_at d e t c = leaf_dec e t c.
Proof. intros H. destruct d; simpl; rewrite H; reflexivity. Qed.

Lemma good_at_leaf leaf d t c : in_schemes t = false -> good_at leaf d t c = leaf t c.
Proof. intros H. destruct d; simpl; rewrite H; reflexivity. Qed.

Lemma read_at_reads e d :
  forall t c, good_at readable_leaf d t c = true ->
              reads_as (read_at d t c e) (size_at d t c) (dec_at d e t c).
Proof.
  induction d as [| d IH]; intros t c Hg.
  - destruct (in_schemes t) eqn:Hin.
    + simpl in Hg. rewrite Hin in Hg. discriminate.
    + rewrite read_at_leaf, size_at_leaf, dec_at_leaf by exact Hin.
      rewrite good_at_leaf in Hg by exact Hin. apply read_leaf_reads. exact Hg.
  - destruct (in_schemes t) eqn:Hin.
    + cbn [good_at read_at write_at size_at dec_at] in Hg |- *.
      rewrite Hin in Hg |- *.
      destruct (assoc t globals) as [sch |]; [| discriminate].
      apply andb_true_iff in Hg. destruct Hg as [Hg _].
      apply readStruct_loop_reads. intros name t' c' Hf. apply IH.
      exact (forallb_In_field _ _ Hg name t' c' Hf).
    + rewrite read_at_leaf, size_at_leaf, dec_at_leaf by exact Hin.
      rewrite good_at_leaf in Hg by exact Hin. apply read_leaf_reads. exact Hg.
Qed.

Lemma write_at_writes e d :
  forall t c, good_at writable_leaf d t c = true ->
              writes_back (fun v => write_at d v t c e) (size_at d t c) (dec_at d e t c).
Proof.
  induction d as [| d IH]; intros t c Hg.
  - destruct (in_schemes t) eqn:Hin.
    + simpl in Hg. rewrite Hin in Hg. discriminate.
    + rewrite size_at_leaf, dec_at_leaf by exact Hin.
      rewrite good_at_leaf in Hg by exact Hin.
      intros bs g Hl. rewrite write_at_leaf by exact Hin.
      apply write_leaf_writes; assumption.
  - destruct (in_schemes t) eqn:Hin.
    + cbn [good_at read_at write_at size_at dec_at] in Hg |- *.
      rewrite Hin in Hg |- *.
      destruct (assoc t globals) as [sch |]; [| discriminate].
      apply andb_true_iff in Hg. destruct Hg as [Hg Hd].
      intros bs g Hl.
      apply writeStruct_loop_writes with (sz := size_at d) (dec := dec_at d e).
      * intros name t' c' Hf. apply IH.
        exact (forallb_In_field _ _ Hg name t' c' Hf).
      * exact Hl.
      * apply struct_dec_holds. exact Hd.
    + rewrite size_at_leaf, dec_at_leaf by exact Hin.
      rewrite good_at_leaf in Hg by exact Hin.
      intros bs g Hl. rewrite write_at_leaf by exact Hin.
      apply write_leaf_writes; assumption.
Qed.

Lemma writable_readable t c : writable_leaf t c = true -> readable_leaf t c = true.
Proof.
  unfold writable_leaf, readable_leaf.
  destruct (assoc t typeNames) as [fmt |]; [| trivial].
  destruct (is_bytes fmt); [trivial |].
  intros H. apply andb_true_iff in H. destruct H as [_ H].
  apply Z.eqb_eq in H. subst c. reflexivity.
Qed.

Lemma good_at_readable d :
  forall t c, good_at writable_leaf d t c = true -> good_at readable_leaf d t c = true.
Proof.
  induction d as [| d IH]; intros t c; cbn [good_at];
    destruct (in_schemes t); try (apply writable_readable); trivial.
  destruct (assoc t globals) as [sch |]; [| trivial].
  intros H. apply andb_true_iff in H. destruct H as [Hg Hd].
  apply andb_true_iff. split; [| exact Hd].
  rewrite forallb_forall in Hg |- *. intros x Hx. apply IH, Hg, Hx.
Qed.

(** Every schema name of [schemes] is a good field at depth 2: the
    tables nest no deeper. *)
Lemma in_schemes_good t c : in_schemes t = true -> good_at writable_leaf 2 t c = true.
Proof.
  unfold in_schemes, schemes. cbn [existsb]. rewrite orb_false_r.
  intros H. apply orb_true_iff in H. destruct H as [H | H];
    [| apply orb_true_iff in H; destruct H as [H | H]];
    apply String.eqb_eq in H; subst t; reflexivity.
Qed.

Lemma wf_field_good fld :
  wf_field fld = true -> good_at writable_leaf 2 (fst (snd fld)) (snd (snd fld)) = true.
Proof.
  unfold wf_field. destruct (in_schemes (fst (snd fld))) eqn:Hin; cbn [orb].
  - intros _. apply in_schemes_good. exact Hin.
  - intros H. rewrite good_at_leaf by exact Hin. exact H.
Qed.

Lemma wf_scheme_fields sch :
  wf_scheme sch = true ->
  forall name t c, In (name, (t, c)) sch -> good_at writable_leaf 2 t c = true.
Proof.
  unfold wf_scheme. intros H name t c Hin.
  apply andb_true_iff in H. destruct H as [H _].
  rewrite forallb_forall in H. exact (wf_field_good _ (H _ Hin)).
Qed.

(** ** [readStruct] and [writeStruct] on a well-formed schema *)

Lemma readStruct_reads sch e :
  wf_scheme sch = true ->
  reads_as (readStruct sch e) (sizeof sch) (decode_struct sch e).
Proof.
  intros Hwf. unfold readStruct, sizeof, decode_struct, read.
  apply readStruct_loop_reads. intros name t c Hin.
  apply read_at_reads, good_at_readable. exact (wf_scheme_fields sch Hwf name t c Hin).
Qed.

Lemma writeStruct_writes sch e :
  wf_scheme sch = true ->
  writes_back (fun v => writeStruct v sch e) (sizeof sch) (decode_struct sch e).
Proof.
  intros Hwf bs g Hl. unfold writeStruct, sizeof, decode_struct, write in *.
  apply writeStruct_loop_writes with (sz := size_at 2) (dec := dec_at 2 e).
  - intros name t c Hin. apply write_at_writes.
    exact (wf_scheme_fields sch Hwf name t c Hin).
  - exact Hl.
  - apply struct_dec_holds. unfold wf_scheme in Hwf.
    apply andb_true_iff in Hwf. apply Hwf.
Qed.

Lemma registry_wf : forallb wf_scheme registry = true.
Proof. reflexivity. Qed.

Lemma registry_sizes :
  map sizeof registry = [16; 52; 64; 32; 56; 40; 64]%nat.
Proof. reflexivity. Qed.

(** ** Byte order *)

Lemma eq_int_true v n : eq_int v n = true -> v = VInt n.
Proof.
  destruct v; simpl; try discriminate. intros H. apply Z.eqb_eq in H. congruence.
Qed.

Lemma endian_char_not_lsb e : eq_int e ELFDATA2LSB = false -> endian_char e = BigEndian.
Proof. unfold endian_char. intros ->. reflexivity. Qed.

(** Readers that agree on every field of a schema build the same dict. *)
Lemma readStruct_loop_ext (rd rd' : string -> Z -> value -> M value) e e' fields :
  (forall name t c, In (name, (t, c)) fields -> forall f, rd t c e f = rd' t c e' f) ->
  forall res f, readStruct_loop rd fields e res f = readStruct_loop rd' fields e' res f.
Proof.
  induction fields as [| [name [t c]] rest IH]; intros H res f.
  - reflexivity.
  - cbn [readStruct_loop]. unfold bind.
    rewrite (H name t c (or_introl eq_refl)).
    destruct (rd' t c e' f) as [[v | ex] f1]; [| reflexivity].
    apply IH. intros name' t' c' Hin. apply (H name'). right. exact Hin.
Qed.

Lemma read_leaf_endian e e' t c :
  endian_char e = endian_char e' -> read_leaf t c e = read_leaf t c e'.
Proof. unfold read_leaf. intros ->. reflexivity. Qed.

Lemma read_at_endian e e' d :
  endian_char e = endian_char e' ->
  forall t c f, read_at d t c e f = read_at d t c e' f.
Proof.
  intros He. induction d as [| d IH]; intros t c f; cbn [read_at];
    destruct (in_schemes t); try (rewrite (read_leaf_endian e e') by exact He);
    try reflexivity.
  destruct (assoc t globals) as [sch |]; [| reflexivity].
  apply readStruct_loop_ext. intros name t' c' _ f'. apply IH.
Qed.

Lemma readStruct_endian e e' sch f :
  endian_char e = endian_char e' -> readStruct sch e f = readStruct sch e' f.
Proof.
  intros He. unfold readStruct. apply readStruct_loop_ext.
  intros name t c _ f'. apply read_at_endian. exact He.
Qed.

Lemma read_at_nested d t c e sch :
  in_schemes t = true -> assoc t globals = Some sch ->
  read_at (S d) t c e = readStruct_loop (read_at d) sch e [].
Proof. intros Hin Hsch. cbn [read_at]. rewrite Hin, Hsch. reflexivity. Qed.

(** The nesting bound of [read]: two levels reach every leaf of the
    tables, so a larger bound changes nothing. *)
Lemma read_depth_enough d t c e f : read_at (2 + d) t c e f = read_at 2 t c e f.
Proof.
  assert (H0 : forall k t' c' f',
             In t' (map (fun fld => fst (snd fld)) Elf_Ident) ->
             read_at k t' c' e f' = read_at 0 t' c' e f').
  { intros k t' c' f' Hin.
    assert (Hl : in_schemes t' = false)
      by (cbn in Hin; repeat (destruct Hin as [<- | Hin]; [reflexivity |]);
          contradiction).
    rewrite !read_at_leaf by exact Hl. reflexivity. }
  assert (H1 : forall k c' f',
             read_at (S k) "Elf_Ident" c' e f' = read_at 1 "Elf_Ident" c' e f').
  { intros k c' f'.
    rewrite !(read_at_nested _ "Elf_Ident" _ _ Elf_Ident) by reflexivity.
    apply readStruct_loop_ext. intros name t' c2 Hin f2. apply H0.
    apply (in_map (fun fld => fst (snd fld)) _ _ Hin). }
  destruct (in_schemes t) eqn:Hin; [| rewrite !read_at_leaf by exact Hin; reflexivity].
  change (2 + d)%nat with (S (S d)).
  destruct (assoc t globals) as [sch |] eqn:Hsch;
    [| cbn [read_at]; rewrite Hin, Hsch; reflexivity].
  rewrite !(read_at_nested _ t _ _ sch) by assumption.
  apply readStruct_loop_ext. intros name t' c' Hf f'.
  assert (Ht' : t' = "Elf_Ident" \/ in_schemes t' = false).
  { unfold in_schemes, schemes in Hin. cbn [existsb] in Hin.
    rewrite orb_false_r in Hin.
    apply orb_true_iff in Hin. destruct Hin as [Hin | Hin];
      [| apply orb_true_iff in Hin; destruct Hin as [Hin | Hin]];
      apply String.eqb_eq in Hin; subst t; cbn in Hsch;
      injection Hsch as <-; cbn in Hf;
      repeat (destruct Hf as [Hf | Hf];
              [injection Hf as <- <- <-; first [left; reflexivity | right; reflexivity] |]);
      contradiction. }
  destruct Ht' as [-> | Hl].
  - apply H1.
  - rewrite !read_at_leaf by exact Hl. reflexivity.
Qed.

Lemma writeStruct_loop_ext (wr wr' : value -> string -> Z -> value -> M unit) e fields :
  (forall name t c, In (name, (t, c)) fields -> forall v f, wr v t c e f = wr' v t c e f) ->
  forall m f, writeStruct_loop wr m fields e f = writeStruct_loop wr' m fields e f.
Proof.
  induction fields as [| [name [t c]] rest IH]; intros H m f.
  - reflexivity.
  - cbn [writeStruct_loop]. apply bind_ext; [reflexivity |]. intros v f1.
    apply bind_ext; [apply (H name); left; reflexivity |]. intros [] f2.
    apply IH. intros name' t' c' Hin. apply (H name'). right. exact Hin.
Qed.

Lemma write_at_nested d v t c e sch :
  in_schemes t = true -> assoc t globals = Some sch ->
  write_at (S d) v t c e = writeStruct_loop (write_at d) v sch e.
Proof. intros Hin Hsch. cbn [write_at]. rewrite Hin, Hsch. reflexivity. Qed.

(** The same for [write]. *)
Lemma write_depth_enough d v t c e f :
  write_at (2 + d) v t c e f = write_at 2 v t c e f.
Proof.
  assert (H1 : forall k v' c' f',
             write_at (S k) v' "Elf_Ident" c' e f' = write_at 1 v' "Elf_Ident" c' e f').
  { intros k v' c' f'.
    rewrite !(write_at_nested _ _ "Elf_Ident" _ _ Elf_Ident) by reflexivity.
    apply writeStruct_loop_ext. intros name t' c2 Hin v2 f2.
    assert (Hl : in_schemes t' = false)
      by (cbn in Hin;
          repeat (destruct Hin as [Hin | Hin]; [injection Hin as <- <- <-; reflexivity |]);
          contradiction).
    rewrite !write_at_leaf by exact Hl. reflexivity. }
  destruct (in_schemes t) eqn:Hin; [| rewrite !write_at_leaf by exact Hin; reflexivity].
  change (2 + d)%nat with (S (S d)).
  destruct (assoc t globals) as [sch |] eqn:Hsch;
    [| cbn [write_at]; rewrite Hin, Hsch; reflexivity].
  rewrite !(write_at_nested _ _ t _ _ sch) by assumption.
  apply writeStruct_loop_ext. intros name t' c' Hf v' f'.
  assert (Ht' : t' = "Elf_Ident" \/ in_schemes t' = false).
  { unfold in_schemes, schemes in Hin. cbn [existsb] in Hin.
    rewrite orb_false_r in Hin.
    apply orb_true_iff in Hin. destruct Hin as [Hin | Hin];
      [| apply orb_true_iff in Hin; destruct Hin as [Hin | Hin]];
      apply String.eqb_eq in Hin; subst t; cbn in Hsch;
      injection Hsch as <-; cbn in Hf;
      repeat (destruct Hf as [Hf | Hf];
              [injection Hf as <- <- <-; first [left; reflexivity | right; reflexivity] |]);
      contradiction. }
  destruct Ht' as [-> | Hl].
  - apply H1.
  - rewrite !write_at_leaf by exact Hl. reflexivity.
Qed.

(** ** Fields of a decoded struct *)

Lemma fields_hold_In sz dec fields :
  forall bs m name t c,
    fields_hold sz dec fields bs m -> In (name, (t, c)) fields ->
    exists bs', assoc name m = Some (dec t c bs').
Proof.
  induction fields as [| [name0 [t0 c0]] rest IH]; intros bs m name t c Hh Hin.
  - contradiction.
  - cbn [fields_hold] in Hh. destruct Hh as [Hm Hh]. destruct Hin as [Heq | Hin].
    + injection Heq as <- <- <-. eexists. exact Hm.
    + exact (IH _ _ _ _ _ Hh Hin).
Qed.

Lemma decode_struct_field sch e bs name t c :
  distinct (names sch) = true -> In (name, (t, c)) sch ->
  exists bs', getitem (decode_struct sch e bs) name = Ok (dec_at 2 e t c bs').
Proof.
  intros Hd Hin. unfold decode_struct, getitem.
  destruct (fields_hold_In _ _ _ _ _ name t c
              (struct_dec_holds (size_at 2) (dec_at 2 e) sch Hd [] bs) Hin)
    as [bs' ->].
  exists bs'. reflexivity.
Qed.

(** An unsigned integer field decodes to a non-negative integer. *)
Lemma leaf_dec_unsigned e t c bs fmt :
  assoc t typeNames = Some fmt ->
  is_bytes fmt = false -> is_float fmt = false -> is_signed fmt = false -> 1 <= c ->
  exists z, leaf_dec e t c bs = VInt z /\ 0 <= z.
Proof.
  intros Ht Hb Hf Hs Hc. unfold leaf_dec, unpack. rewrite Ht, Hb.
  destruct (Z.to_nat c) as [| n] eqn:E; [lia |].
  cbn [chunks map hd]. unfold decode. rewrite Hb, Hf, Hs.
  eexists. split; [reflexivity |]. apply le_combine_bound.
Qed.

(** ** Inversion of successful steps *)

Lemma lift_ok_inv {A} (o : outcome A) f a f1 :
  lift o f = (Ok a, f1) -> o = Ok a /\ f1 = f.
Proof. unfold lift. intros H. injection H as -> ->. split; reflexivity. Qed.

Lemma assert_ok_inv s c f u f1 : assert s c f = (Ok u, f1) -> c = true /\ f1 = f.
Proof.
  unfold assert. destruct c; cbn; intros H; [| discriminate].
  injection H as _ ->. split; reflexivity.
Qed.

Lemma seek_ok_inv v b p u f1 :
  seek v (mkBytesIO b p) = (Ok u, f1) ->
  exists z, v = VInt z /\ 0 <= z < 2 ^ 63 /\ f1 = mkBytesIO b (Z.to_nat z).
Proof.
  unfold seek, file_seek. destruct v as [z | | |]; try discriminate.
  destruct ((z <? - 2 ^ 63) || (2 ^ 63 <=? z)) eqn:E1; [discriminate |].
  destruct (z <? 0) eqn:E; [discriminate |]. apply Z.ltb_ge in E.
  apply orb_false_iff in E1. destruct E1 as [_ E1]. apply Z.leb_gt in E1.
  cbn [getvalue]. intros H. injection H as _ <-. exists z. auto.
Qed.

Lemma seek_ok z b p :
  0 <= z < 2 ^ 63 -> seek (VInt z) (mkBytesIO b p) = (Ok tt, mkBytesIO b (Z.to_nat z)).
Proof.
  intros Hz. unfold seek, file_seek.
  destruct (z <? - 2 ^ 63) eqn:E0; [apply Z.ltb_lt in E0; lia |].
  destruct (2 ^ 63 <=? z) eqn:E1; [apply Z.leb_le in E1; lia |].
  destruct (z <? 0) eqn:E2; [apply Z.ltb_lt in E2; lia |].
  reflexivity.
Qed.

Lemma seek_overflow z f :
  2 ^ 63 <= z -> seek (VInt z) f = (Raise OverflowError, f).
Proof.
  intros Hz. unfold seek, file_seek.
  apply Z.leb_le in Hz. rewrite Hz, orb_true_r. reflexivity.
Qed.

Lemma range_ok_inv v n : range v = Ok n -> exists z, v = VInt z /\ n = Z.to_nat z.
Proof.
  unfold range. destruct v as [z | | |]; try discriminate.
  intros H. injection H as <-. exists z. auto.
Qed.

Lemma reads_as_ok_inv rd n dec b p v f1 :
  reads_as rd n dec -> rd (mkBytesIO b p) = (Ok v, f1) ->
  enough b p n /\ v = dec (slice b p n) /\ f1 = mkBytesIO b (p + n).
Proof.
  intros Hr H. destruct (Hr b p) as [Hok Hshort].
  destruct (le_dec n (length b - p)) as [He | He].
  - rewrite (Hok He) in H. injection H as <- <-. auto.
  - destruct (Hshort He) as [p' Hp']. rewrite Hp' in H. discriminate.
Qed.

Ltac bind_inv H :=
  let a := fresh "a" in
  let f := fresh "f" in
  let Hm := fresh "Hm" in
  apply bind_ok_inv in H; destruct H as (a & f & Hm & H).

Ltac bind_inv_as H a f Hm :=
  apply bind_ok_inv in H; destruct H as (a & f & Hm & H).

(** ** The entry loops of [_parse] *)

Section Entries.
Variable sch : scheme.
Variable e : value.
Hypothesis Hwf : wf_scheme sch = true.

Lemma read_entries_ok k :
  forall l b p l' f',
    ELF.read_entries k sch e l (mkBytesIO b p) = (Ok l', f') ->
    exists new,
      l' = l ++ new /\ length new = k
      /\ f' = mkBytesIO b (p + k * sizeof sch)
      /\ forall i entry,
          nth_error new i = Some entry ->
          readStruct sch e (mkBytesIO b (p + i * sizeof sch))
          = (Ok entry, mkBytesIO b (p + i * sizeof sch + sizeof sch)).
Proof.
  induction k as [| k IH]; intros l b p l' f' H.
  - cbn in H. injection H as <- <-. exists []. rewrite app_nil_r.
    repeat split; [f_equal; lia |]. intros [| i] entry Hn; discriminate.
  - cbn [ELF.read_entries] in H. bind_inv H.
    pose proof (reads_as_ok_inv _ _ _ _ _ _ _ (readStruct_reads sch e Hwf) Hm)
      as (He & Ha & ->).
    apply IH in H. destruct H as (new & -> & Hlen & -> & Hnth).
    exists (a :: new). rewrite <- app_assoc. repeat split.
    + cbn. lia.
    + f_equal. lia.
    + intros [| i] entry Hn.
      * cbn in Hn. injection Hn as <-. cbn [Nat.mul]. rewrite Nat.add_0_r.
        exact Hm.
      * cbn [nth_error] in Hn. apply Hnth in Hn.
        replace (p + S i * sizeof sch)%nat with (p + sizeof sch + i * sizeof sch)%nat
          by lia.
        exact Hn.
Qed.

Lemma read_entries_short k :
  forall l b p,
    ~ enough b p (k * sizeof sch) ->
    exists f', ELF.read_entries k sch e l (mkBytesIO b p)
               = (Raise RuntimeError_NotEnoughBytes, f').
Proof.
  induction k as [| k IH]; intros l b p He.
  - exfalso. apply He. unfold enough. lia.
  - cbn [ELF.read_entries].
    destruct (readStruct_reads sch e Hwf b p) as [Hok Hshort].
    destruct (le_dec (sizeof sch) (length b - p)) as [H1 | H1].
    + erewrite bind_ok by (apply Hok; exact H1).
      apply IH. unfold enough in *. lia.
    + destruct (Hshort H1) as [p' Hp']. exists (mkBytesIO b p').
      erewrite bind_raise by exact Hp'. reflexivity.
Qed.
End Entries.

(** ** The first parts of [_parse] *)

Lemma class_schemes_wf c :
  c = 1 \/ c = 2 ->
  wf_scheme (Ehdr_of c) = true /\ wf_scheme (Phdr_of c) = true
  /\ wf_scheme (Shdr_of c) = true.
Proof. intros [-> | ->]; repeat split; reflexivity. Qed.

Lemma class_sizes c :
  c = 1 \/ c = 2 ->
  sizeof (Phdr_of c) = (if c =? 1 then 32%nat else 56%nat)
  /\ sizeof (Shdr_of c) = (if c =? 1 then 40%nat else 64%nat)
  /\ sizeof (Ehdr_of c) = (if c =? 1 then 52%nat else 64%nat).
Proof. intros [-> | ->]; repeat split; reflexivity. Qed.

(** The offsets and counts of a decoded file header are non-negative
    integers. *)
Lemma ehdr_field c e bs name :
  c = 1 \/ c = 2 ->
  In name ["e_phoff"; "e_phnum"; "e_shoff"; "e_shnum"] ->
  exists z, getitem (decode_struct (Ehdr_of c) e bs) name = Ok (VInt z) /\ 0 <= z.
Proof.
  intros Hc Hn.
  assert (Hf : exists t fmt,
             In (name, (t, 1)) (Ehdr_of c) /\ assoc t typeNames = Some fmt
             /\ in_schemes t = false /\ is_bytes fmt = false
             /\ is_float fmt = false /\ is_signed fmt = false).
  { cbn in Hn.
    destruct Hc as [-> | ->];
      repeat (destruct Hn as [<- | Hn];
              [eexists; eexists; split;
               [cbn; repeat (first [left; reflexivity | right]) | repeat split; reflexivity] |]);
      contradiction. }
  destruct Hf as (t & fmt & Hin & Ht & Hs & Hb & Hfl & Hsg).
  destruct (decode_struct_field (Ehdr_of c) e bs name t 1) as [bs' Hg];
    [destruct Hc as [-> | ->]; reflexivity | exact Hin |].
  rewrite Hg, dec_at_leaf by exact Hs.
  destruct (leaf_dec_unsigned e t 1 bs' fmt Ht Hb Hfl Hsg) as (z & -> & Hz); [lia |].
  exists z. auto.
Qed.

Lemma parse_ident_ok_inv b p id e f1 :
  ELF._parse_ident (mkBytesIO b p) = (Ok (id, e), f1) ->
  enough b p 16
  /\ id = decode_struct Elf_Ident (VInt ELFDATA2MSB) (slice b p 16)
  /\ f1 = mkBytesIO b (p + 16)
  /\ (exists mag, getitem id "ELF_MAG" = Ok mag /\ eq_bytes mag ELFMAG = true)
  /\ (exists ver, getitem id "EI_VERSION" = Ok ver /\ eq_int ver EV_CURRENT = true)
  /\ getitem id "EI_DATA" = Ok e.
Proof.
  unfold ELF._parse_ident. intros H. bind_inv H.
  pose proof (reads_as_ok_inv _ _ _ _ _ _ _
                (readStruct_reads Elf_Ident (VInt ELFDATA2MSB) eq_refl) Hm)
    as (He & Ha & ->).
  bind_inv H. apply lift_ok_inv in Hm0. destruct Hm0 as [Hmag ->].
  bind_inv H. apply assert_ok_inv in Hm0. destruct Hm0 as [Hmagok ->].
  bind_inv H. apply lift_ok_inv in Hm0. destruct Hm0 as [Hver ->].
  bind_inv H. apply assert_ok_inv in Hm0. destruct Hm0 as [Hverok ->].
  bind_inv H. apply lift_ok_inv in Hm0. destruct Hm0 as [Hdata ->].
  unfold ret in H. injection H as <- <- <-.
  change (sizeof Elf_Ident) with 16%nat in *.
  repeat split; try assumption; eauto.
Qed.

Lemma parse_ehdr_ok_inv id e b p Ph Sh hdr f1 :
  ELF._parse_ehdr id e (mkBytesIO b p) = (Ok (Ph, Sh, hdr), f1) ->
  exists c,
    getitem id "EI_CLASS" = Ok (VInt c) /\ (c = 1 \/ c = 2)
    /\ Ph = Phdr_of c /\ Sh = Shdr_of c
    /\ enough b 0 (sizeof (Ehdr_of c))
    /\ hdr = decode_struct (Ehdr_of c) e (slice b 0 (sizeof (Ehdr_of c)))
    /\ f1 = mkBytesIO b (sizeof (Ehdr_of c)).
Proof.
  unfold ELF._parse_ehdr. intros H. bind_inv H.
  apply seek_ok_inv in Hm. destruct Hm as (z & Hz & _ & ->).
  injection Hz as <-. change (Z.to_nat 0) with O in H.
  bind_inv H. apply lift_ok_inv in Hm. destruct Hm as [Hcls ->].
  destruct (eq_int a0 ELFCLASS32) eqn:E32; [| destruct (eq_int a0 ELFCLASS64) eqn:E64].
  - apply eq_int_true in E32. subst a0. bind_inv H.
    pose proof (reads_as_ok_inv _ _ _ _ _ _ _ (readStruct_reads Elf32_Ehdr e eq_refl) Hm)
      as (He & Ha & ->).
    unfold ret in H. injection H as <- <- <- <-.
    exists 1. repeat split; auto.
  - apply eq_int_true in E64. subst a0. bind_inv H.
    pose proof (reads_as_ok_inv _ _ _ _ _ _ _ (readStruct_reads Elf64_Ehdr e eq_refl) Hm)
      as (He & Ha & ->).
    unfold ret in H. injection H as <- <- <- <-.
    exists 2. repeat split; auto.
  - discriminate H.
Qed.

(** * The marshaller *)

(** C7 -- the two bytes [02 00] read as one [uint16] give 2 when the
    byte order is little-endian and 512 when it is big-endian. *)
Theorem read_uint16_byte_order :
  read "uint16" 1 (VInt ELFDATA2LSB) (mkBytesIO [Byte.x02; Byte.x00] 0)
  = (Ok (VInt 2), mkBytesIO [Byte.x02; Byte.x00] 2)
  /\ read "uint16" 1 (VInt ELFDATA2MSB) (mkBytesIO [Byte.x02; Byte.x00] 0)
     = (Ok (VInt 512), mkBytesIO [Byte.x02; Byte.x00] 2).
Proof. split; reflexivity. Qed.

Lemma typeNames_not_schemes t fmt :
  assoc t typeNames = Some fmt -> in_schemes t = false.
Proof.
  intros Ht. destruct (in_schemes t) eqn:Hin; [| reflexivity].
  unfold in_schemes, schemes in Hin. cbn [existsb] in Hin.
  rewrite orb_false_r in Hin.
  apply orb_true_iff in Hin. destruct Hin as [Hin | Hin];
    [| apply orb_true_iff in Hin; destruct Hin as [Hin | Hin]];
    apply String.eqb_eq in Hin; subst t; discriminate Ht.
Qed.

Lemma chunks_length w n bs : length (chunks w n bs) = n.
Proof. revert bs. induction n as [| n IH]; intros bs; simpl; [| rewrite IH]; reflexivity. Qed.

(** C10 -- [read] of a numeric type with a count [n] above 1 takes
    [n] items' worth of bytes, unpacks [n] values, and returns only the
    first: the value a [read] of a single item returns at that place. *)
Theorem read_count_keeps_first t fmt n e b p :
  assoc t typeNames = Some fmt -> is_bytes fmt = false -> 1 < n ->
  enough b p (Z.to_nat n * calcsize fmt) ->
  let first := decode (endian_char e) fmt (slice b p (calcsize fmt)) in
  read t n e (mkBytesIO b p) = (Ok first, mkBytesIO b (p + Z.to_nat n * calcsize fmt))
  /\ length (unpack (endian_char e) n fmt (slice b p (Z.to_nat n * calcsize fmt)))
     = Z.to_nat n
  /\ read t 1 e (mkBytesIO b p) = (Ok first, mkBytesIO b (p + calcsize fmt)).
Proof.
  intros Ht Hb Hn He first.
  pose proof (typeNames_not_schemes t fmt Ht) as Hs.
  assert (Hr : forall c, 1 <= c -> readable_leaf t c = true).
  { intros c Hc. unfold readable_leaf. rewrite Ht, Hb. apply Z.leb_le. exact Hc. }
  assert (Hfirst : forall c, 1 <= c ->
            leaf_dec e t c (slice b p (Z.to_nat c * calcsize fmt)) = first).
  { intros c Hc. unfold leaf_dec, unpack. rewrite Ht, Hb.
    destruct (Z.to_nat c) as [| k] eqn:E; [lia |].
    cbn [chunks map hd]. subst first. f_equal.
    change (S k * calcsize fmt)%nat with (calcsize fmt + k * calcsize fmt)%nat.
    apply slice_firstn. }
  unfold read. rewrite !read_at_leaf by exact Hs.
  split; [| split].
  - destruct (read_leaf_reads e t n (Hr n ltac:(lia)) b p) as [Hok _].
    unfold leaf_size in Hok. rewrite Ht in Hok.
    rewrite (Hok He), Hfirst by lia. reflexivity.
  - unfold unpack. rewrite Hb, length_map. apply chunks_length.
  - destruct (read_leaf_reads e t 1 (Hr 1 ltac:(lia)) b p) as [Hok _].
    unfold leaf_size in Hok. rewrite Ht in Hok.
    assert (Hle : (Z.to_nat 1 * calcsize fmt <= Z.to_nat n * calcsize fmt)%nat)
      by (apply Nat.mul_le_mono_r; lia).
    rewrite Hok by (unfold enough in *; lia).
    rewrite Hfirst by lia.
    change (Z.to_nat 1) with 1%nat. rewrite Nat.mul_1_l. reflexivity.
Qed.

Lemma read_count_keeps_first_witness :
  assoc "uint16" typeNames = Some FH /\ is_bytes FH = false /\ 1 < 2
  /\ enough [Byte.x01; Byte.x00; Byte.x02; Byte.x00] 0 (Z.to_nat 2 * calcsize FH)
  /\ read "uint16" 2 (VInt ELFDATA2LSB) (mkBytesIO [Byte.x01; Byte.x00; Byte.x02; Byte.x00] 0)
     = (Ok (VInt 1), mkBytesIO [Byte.x01; Byte.x00; Byte.x02; Byte.x00] 4).
Proof.
  assert (He : enough [Byte.x01; Byte.x00; Byte.x02; Byte.x00] 0 (Z.to_nat 2 * calcsize FH))
    by (unfold enough; simpl; lia).
  split; [reflexivity | split; [reflexivity | split; [lia | split; [exact He |]]]].
  exact (proj1 (read_count_keeps_first "uint16" FH 2 (VInt ELFDATA2LSB)
                  [Byte.x01; Byte.x00; Byte.x02; Byte.x00] 0%nat
                  eq_refl eq_refl eq_refl He)).
Defined.

(** Decoders that agree on every field of a schema give the same dict. *)
Lemma struct_dec_ext sz (dec dec' : string -> Z -> list byte -> value) fields :
  (forall name t c, In (name, (t, c)) fields -> forall bs, dec t c bs = dec' t c bs) ->
  forall res bs, struct_dec sz dec fields res bs = struct_dec sz dec' fields res bs.
Proof.
  induction fields as [| [name [t c]] rest IH]; intros H res bs; cbn [struct_dec].
  - reflexivity.
  - rewrite (H name t c (or_introl eq_refl)). apply IH.
    intros name' t' c' Hin. apply (H name'). right. exact Hin.
Qed.

Lemma ordered_short bo bs : (length bs <= 1)%nat -> ordered bo bs = bs.
Proof.
  destruct bo; [reflexivity |]. destruct bs as [| x [| y bs]]; cbn; intros H;
    [reflexivity | reflexivity | lia].
Qed.

(** A leaf that is a byte block or one byte wide decodes alike under
    every byte order. *)
Lemma leaf_dec_one_byte e e' t c bs :
  match assoc t typeNames with
  | Some fmt => calcsize fmt = 1%nat
  | None => True
  end ->
  leaf_dec e t c bs = leaf_dec e' t c bs.
Proof.
  unfold leaf_dec, unpack. destruct (assoc t typeNames) as [fmt |]; [| reflexivity].
  intros Hw. destruct (is_bytes fmt); [reflexivity |]. f_equal.
  apply map_ext_in. intros chunk Hin. unfold decode.
  assert (Hl : (length chunk <= 1)%nat).
  { rewrite Hw in Hin. clear - Hin. revert bs Hin.
    induction (Z.to_nat c) as [| k IH]; intros bs Hin; [contradiction |].
    cbn [chunks] in Hin. destruct Hin as [<- | Hin].
    - rewrite length_firstn. lia.
    - exact (IH _ Hin). }
  rewrite !ordered_short by exact Hl. reflexivity.
Qed.

Lemma decode_ident_byte_order e e' bs :
  decode_struct Elf_Ident e bs = decode_struct Elf_Ident e' bs.
Proof.
  unfold decode_struct. f_equal. apply struct_dec_ext.
  intros name t c Hin bs'. cbn in Hin.
  repeat (destruct Hin as [Hin | Hin];
          [injection Hin as <- <- <-; rewrite !dec_at_leaf by reflexivity;
           apply leaf_dec_one_byte; reflexivity |]).
  contradiction.
Qed.

(** C9 -- with the 16 bytes of the identification block at hand,
    [readStruct] on [Elf_Ident] succeeds and returns the same dict
    whether it is told little-endian or big-endian. *)
Theorem read_ident_any_byte_order b p :
  enough b p 16 ->
  exists m,
    readStruct Elf_Ident (VInt ELFDATA2LSB) (mkBytesIO b p) = (Ok m, mkBytesIO b (p + 16))
    /\ readStruct Elf_Ident (VInt ELFDATA2MSB) (mkBytesIO b p)
       = (Ok m, mkBytesIO b (p + 16)).
Proof.
  intros He. exists (decode_struct Elf_Ident (VInt ELFDATA2LSB) (slice b p 16)).
  split.
  - apply (readStruct_reads Elf_Ident (VInt ELFDATA2LSB) eq_refl b p). exact He.
  - rewrite (decode_ident_byte_order _ (VInt ELFDATA2MSB)).
    apply (readStruct_reads Elf_Ident (VInt ELFDATA2MSB) eq_refl b p). exact He.
Qed.

Lemma read_ident_any_byte_order_witness :
  enough elf32_be 0 16
  /\ exists m,
      readStruct Elf_Ident (VInt ELFDATA2LSB) (mkBytesIO elf32_be 0)
      = (Ok m, mkBytesIO elf32_be 16)
      /\ readStruct Elf_Ident (VInt ELFDATA2MSB) (mkBytesIO elf32_be 0)
         = (Ok m, mkBytesIO elf32_be 16).
Proof.
  assert (He : enough elf32_be 0 16) by (unfold enough; simpl; lia).
  split; [exact He | exact (read_ident_any_byte_order elf32_be 0 He)].
Defined.

(** ** Floats: rounding a number the format already holds *)

Lemma digits2_pos_bounds p :
  2 ^ (Z.pos (digits2_pos p) - 1) <= Z.pos p < 2 ^ Z.pos (digits2_pos p).
Proof.
  induction p as [p IH | p IH |]; cbn [digits2_pos].
  - rewrite Pos2Z.inj_succ, Z.pow_succ_r by lia.
    replace (Z.succ (Z.pos (digits2_pos p)) - 1)
      with (Z.succ (Z.pos (digits2_pos p) - 1)) by lia.
    rewrite Z.pow_succ_r by lia. lia.
  - rewrite Pos2Z.inj_succ, Z.pow_succ_r by lia.
    replace (Z.succ (Z.pos (digits2_pos p)) - 1)
      with (Z.succ (Z.pos (digits2_pos p) - 1)) by lia.
    rewrite Z.pow_succ_r by lia. lia.
  - cbn. lia.
Qed.

Lemma digits2_pos_eq p n :
  2 ^ (n - 1) <= Z.pos p < 2 ^ n -> Z.pos (digits2_pos p) = n.
Proof.
  intros [Hlo Hhi]. pose proof (digits2_pos_bounds p) as [Dlo Dhi].
  assert (Hn : 0 < n).
  { destruct (Z_lt_le_dec 0 n) as [H | H]; [exact H | exfalso].
    destruct (Z.eq_dec n 0) as [-> | Hne]; [cbn in Hhi; lia |].
    rewrite Z.pow_neg_r in Hhi by lia. lia. }
  destruct (Z.lt_trichotomy (Z.pos (digits2_pos p)) n) as [H | [H | H]];
    [exfalso | exact H | exfalso].
  - assert (2 ^ Z.pos (digits2_pos p) <= 2 ^ (n - 1)) by (apply Z.pow_le_mono_r; lia).
    lia.
  - assert (2 ^ n <= 2 ^ (Z.pos (digits2_pos p) - 1)) by (apply Z.pow_le_mono_r; lia).
    lia.
Qed.

Lemma digits2_pos_le p n : 0 <= n -> Z.pos p < 2 ^ n -> Z.pos (digits2_pos p) <= n.
Proof.
  intros Hn Hp. pose proof (digits2_pos_bounds p) as [Dlo _].
  destruct (Z_le_gt_dec (Z.pos (digits2_pos p)) n) as [H | H]; [exact H | exfalso].
  assert (2 ^ n <= 2 ^ (Z.pos (digits2_pos p) - 1)) by (apply Z.pow_le_mono_r; lia).
  lia.
Qed.

Lemma iter_xO_value m j : Z.pos (Pos.iter xO m j) = Z.pos m * 2 ^ Z.pos j.
Proof.
  revert m. induction j as [| j IH] using Pos.peano_ind; intros m.
  - cbn. lia.
  - rewrite Pos.iter_succ, Pos2Z.inj_succ, Z.pow_succ_r by lia.
    rewrite Pos2Z.inj_xO, IH. lia.
Qed.

Lemma iter_xO_digits m j :
  Z.pos (digits2_pos (Pos.iter xO m j)) = Z.pos (digits2_pos m) + Z.pos j.
Proof.
  revert m. induction j as [| j IH] using Pos.peano_ind; intros m.
  - cbn. lia.
  - rewrite Pos.iter_succ. cbn [digits2_pos].
    rewrite Pos2Z.inj_succ, IH. lia.
Qed.

Lemma iter_pos_iter {A} (f : A -> A) p : forall x, iter_pos f p x = Pos.iter f x p.
Proof.
  induction p as [p IH | p IH |]; intros x; cbn [iter_pos Pos.iter].
  - rewrite !IH, <- !Pos.iter_swap. reflexivity.
  - rewrite !IH. reflexivity.
  - reflexivity.
Qed.

Lemma shr_exact m j :
  iter_pos shr_1 j (Build_shr_record (Z.pos (Pos.iter xO m j)) false false)
  = Build_shr_record (Z.pos m) false false.
Proof.
  rewrite iter_pos_iter. revert m.
  induction j as [| j IH] using Pos.peano_ind; intros m.
  - reflexivity.
  - rewrite !Pos.iter_succ. rewrite <- (Pos.iter_swap j _ xO m).
    rewrite IH. reflexivity.
Qed.

Section Rounding.
Variables prec emax : Z.

(** A canonical mantissa and exponent are what rounding returns. *)
Lemma binary_round_aux_canonical s m e :
  canonical_mantissa prec emax m e = true -> e <= emax - prec ->
  binary_round_aux prec emax s (Z.pos m) e loc_Exact = S754_finite s m e.
Proof.
  unfold canonical_mantissa. intros Hc He. apply Z.eqb_eq in Hc.
  unfold binary_round_aux, shr_fexp. cbn [Zdigits2 shr_record_of_loc].
  rewrite Hc, Z.sub_diag. cbn [shr shr_m loc_of_shr_record round_nearest_even Zdigits2
                                 shr_record_of_loc].
  rewrite Hc, Z.sub_diag. cbn [shr shr_m].
  apply Z.leb_le in He. rewrite He. reflexivity.
Qed.

(** The same number with [j] more low zero bits rounds to it. *)
Lemma binary_round_shifted s m e j :
  canonical_mantissa prec emax m e = true -> e <= emax - prec ->
  binary_round prec emax s (Pos.iter xO m j) (e - Z.pos j) = S754_finite s m e.
Proof.
  intros Hc He. pose proof Hc as Hc'. unfold canonical_mantissa in Hc'.
  apply Z.eqb_eq in Hc'.
  assert (Hd : Z.pos (digits2_pos (Pos.iter xO m j)) + (e - Z.pos j)
               = Z.pos (digits2_pos m) + e) by (rewrite iter_xO_digits; lia).
  unfold binary_round, shl_align. rewrite Hd, Hc'.
  replace (e - (e - Z.pos j)) with (Z.pos j) by lia.
  unfold binary_round_aux, shr_fexp. cbn [Zdigits2 shr_record_of_loc].
  rewrite Hd, Hc'. replace (e - (e - Z.pos j)) with (Z.pos j) by lia.
  cbn [shr]. rewrite shr_exact.
  cbn [shr_m loc_of_shr_record round_nearest_even Zdigits2 shr_record_of_loc].
  replace (e - Z.pos j + Z.pos j) with e by lia.
  rewrite Hc', Z.sub_diag. cbn [shr shr_m].
  apply Z.leb_le in He. rewrite He. reflexivity.
Qed.

(** A number with too few mantissa bits for its exponent is brought
    to the canonical exponent by adding low zero bits. *)
Lemma binary_round_widened s m e j :
  fexp prec emax (Z.pos (digits2_pos m) + e) = e - Z.pos j ->
  e - Z.pos j <= emax - prec ->
  binary_round prec emax s m e = S754_finite s (Pos.iter xO m j) (e - Z.pos j).
Proof.
  intros Hf He. unfold binary_round, shl_align. rewrite Hf.
  replace (e - Z.pos j - e) with (Z.neg j) by lia.
  apply binary_round_aux_canonical; [| exact He].
  unfold canonical_mantissa. apply Z.eqb_eq.
  rewrite iter_xO_digits.
  replace (Z.pos (digits2_pos m) + Z.pos j + (e - Z.pos j))
    with (Z.pos (digits2_pos m) + e) by lia.
  exact Hf.
Qed.
End Rounding.

(** ** Floats: bit patterns *)

Ltac pow2 :=
  repeat match goal with
         | |- context [2 ^ ?n] =>
             let v := eval vm_compute in (2 ^ n) in
             progress change (2 ^ n) with v
         | H : context [2 ^ ?n] |- _ =>
             let v := eval vm_compute in (2 ^ n) in
             progress change (2 ^ n) with v in H
         end.

Ltac unfold_bits :=
  unfold Float.sign_of, Float.exp_of, Float.man_of, Float.sign_bit;
  cbn [Float.mw Float.ew Float.binary32 Float.binary64]; pow2.

Section FloatBits.
Import Float.

Lemma iter_xO_bounds m j n :
  Z.pos (digits2_pos m) + Z.pos j = n ->
  2 ^ (n - 1) <= Z.pos (Pos.iter xO m j) < 2 ^ n.
Proof.
  intros <-. rewrite <- iter_xO_digits. apply digits2_pos_bounds.
Qed.

Lemma fields32 s e m :
  0 <= e < 2 ^ 8 -> 0 <= m < 2 ^ 23 ->
  let bits := sign_bit binary32 s + e * 2 ^ 23 + m in
  sign_of binary32 bits = s /\ exp_of binary32 bits = e /\ man_of binary32 bits = m
  /\ 0 <= bits < 2 ^ 32.
Proof.
  intros He Hm. cbv zeta. unfold_bits.
  destruct s;
    (split; [first [apply Z.eqb_eq | apply Z.eqb_neq] | repeat split]);
    Z.to_euclidean_division_equations; lia.
Qed.

Lemma fields64 s e m :
  0 <= e < 2 ^ 11 -> 0 <= m < 2 ^ 52 ->
  let bits := sign_bit binary64 s + e * 2 ^ 52 + m in
  sign_of binary64 bits = s /\ exp_of binary64 bits = e /\ man_of binary64 bits = m.
Proof.
  intros He Hm. cbv zeta. unfold_bits.
  destruct s;
    (split; [first [apply Z.eqb_eq | apply Z.eqb_neq] | repeat split]);
    Z.to_euclidean_division_equations; lia.
Qed.

Lemma split32 bits :
  0 <= bits < 2 ^ 32 ->
  bits = sign_bit binary32 (sign_of binary32 bits)
         + exp_of binary32 bits * 2 ^ 23 + man_of binary32 bits
  /\ 0 <= exp_of binary32 bits < 2 ^ 8 /\ 0 <= man_of binary32 bits < 2 ^ 23.
Proof.
  intros Hb. unfold_bits.
  destruct ((bits / 2147483648) mod 2 =? 1) eqn:E;
    [apply Z.eqb_eq in E | apply Z.eqb_neq in E]; repeat split;
    Z.to_euclidean_division_equations; lia.
Qed.

Lemma quiet_bounds m : 0 <= m < 2 ^ 23 -> 0 < Z.lor m (2 ^ 22) < 2 ^ 23.
Proof.
  intros Hm.
  assert (H0 : 0 <= Z.lor m (2 ^ 22)) by (apply Z.lor_nonneg; lia).
  assert (Hne : Z.lor m (2 ^ 22) <> 0).
  { intros E. apply Z.lor_eq_0_iff in E. destruct E as [_ E]. discriminate E. }
  split; [lia |].
  apply Z.log2_lt_pow2; [lia |].
  rewrite Z.log2_lor by lia.
  change (Z.log2 (2 ^ 22)) with 22.
  destruct (Z.eq_dec m 0) as [-> | Hm0]; [cbn; lia |].
  assert (Z.log2 m < 23) by (apply Z.log2_lt_pow2; lia).
  lia.
Qed.

Lemma quiet_idem m : Z.lor (Z.lor m (2 ^ 22)) (2 ^ 22) = Z.lor m (2 ^ 22).
Proof. rewrite <- Z.lor_assoc, Z.lor_diag. reflexivity. Qed.

Lemma emin32 : emin (prec binary32) (emax binary32) = -149.
Proof. reflexivity. Qed.

Lemma emin64 : emin (prec binary64) (emax binary64) = -1074.
Proof. reflexivity. Qed.

(** What [of_bits] makes of a finite, nonzero [float] is a number of
    the format. *)
Lemma of_bits32_finite s e m :
  0 <= e < 2 ^ 8 - 1 -> 0 <= m < 2 ^ 23 -> (e = 0 -> m <> 0) ->
  exists m' e',
    of_bits binary32 (sign_bit binary32 s + e * 2 ^ 23 + m) = S754_finite s m' e'
    /\ canonical_mantissa 24 128 m' e' = true /\ -149 <= e' <= 104
    /\ 1 <= Z.pos (digits2_pos m') <= 24
    /\ (e' + 149) * 2 ^ 23 + Z.pos m' = e * 2 ^ 23 + m.
Proof.
  intros He Hm Hnz.
  destruct (fields32 s e m) as (Hs & Hx & Hn & _); [pow2; lia | exact Hm |].
  cbv zeta in Hs, Hx, Hn. unfold of_bits. rewrite Hs, Hx, Hn, emin32.
  cbn [mw ew binary32]. pow2. change (256 - 1) with 255 in *.
  destruct (e =? 0) eqn:E0; [apply Z.eqb_eq in E0 | apply Z.eqb_neq in E0].
  - destruct (m =? 0) eqn:M0; [apply Z.eqb_eq in M0; tauto | apply Z.eqb_neq in M0].
    exists (Z.to_pos m), (-149).
    assert (Hp : Z.pos (Z.to_pos m) = m) by (apply Z2Pos.id; lia).
    assert (Hd : Z.pos (digits2_pos (Z.to_pos m)) <= 23)
      by (apply digits2_pos_le; [lia | rewrite Hp; pow2; lia]).
    pose proof (Pos2Z.is_pos (digits2_pos (Z.to_pos m))).
    split; [reflexivity |]. split.
    + unfold canonical_mantissa, fexp, emin. apply Z.eqb_eq. lia.
    + repeat split; try lia.
  - destruct (e =? 255) eqn:E1; [apply Z.eqb_eq in E1; lia |].
    exists (Z.to_pos (m + 8388608)), (e - 1 + -149).
    assert (Hp : Z.pos (Z.to_pos (m + 8388608)) = m + 8388608) by (apply Z2Pos.id; lia).
    assert (Hd : Z.pos (digits2_pos (Z.to_pos (m + 8388608))) = 24)
      by (apply digits2_pos_eq; rewrite Hp; pow2; lia).
    split; [reflexivity |]. split.
    + unfold canonical_mantissa, fexp, emin. apply Z.eqb_eq. lia.
    + repeat split; try lia.
Qed.

(** A [double] that holds a normal number is read back from its bits. *)
Lemma of_to_bits64 s m e :
  Z.pos (digits2_pos m) = 53 -> -1074 <= e <= 971 ->
  let bits := to_bits binary64 (S754_finite s m e) in
  is_nan binary64 bits = false /\ of_bits binary64 bits = S754_finite s m e.
Proof.
  intros Hd He. cbv zeta. unfold to_bits. rewrite emin64.
  pose proof (digits2_pos_bounds m) as Hb. rewrite Hd in Hb.
  cbn [mw binary64] in *. pow2.
  replace (sign_bit binary64 s + (e - -1074) * 4503599627370496 + Z.pos m)
    with (sign_bit binary64 s + (e + 1075) * 2 ^ 52 + (Z.pos m - 4503599627370496))
    by (pow2; lia).
  destruct (fields64 s (e + 1075) (Z.pos m - 4503599627370496)) as (Hs & Hx & Hn);
    [pow2; lia | pow2; lia |].
  cbv zeta in Hs, Hx, Hn. unfold is_nan, of_bits. rewrite Hs, Hx, Hn, emin64.
  cbn [mw ew binary64]. pow2. change (2048 - 1) with 2047.
  destruct (e + 1075 =? 0) eqn:E0; [apply Z.eqb_eq in E0; lia |].
  destruct (e + 1075 =? 2047) eqn:E1; [apply Z.eqb_eq in E1; lia |].
  split; [reflexivity |]. f_equal; [| lia].
  replace (Z.pos m - 4503599627370496 + 4503599627370496) with (Z.pos m) by lia.
  reflexivity.
Qed.

Lemma narrow_widen_finite s e m :
  0 <= e < 2 ^ 8 - 1 -> 0 <= m < 2 ^ 23 -> (e = 0 -> m <> 0) ->
  let bits := sign_bit binary32 s + e * 2 ^ 23 + m in
  narrow (to_bits binary64 (round binary64 (of_bits binary32 bits))) = Some bits.
Proof.
  intros He Hm Hnz bits.
  destruct (of_bits32_finite s e m He Hm Hnz) as (m' & e' & Hof & Hc & He' & Hd & Hv).
  fold bits in Hof. rewrite Hof. cbn [round].
  change (prec binary64) with 53. change (emax binary64) with 1024.
  set (j := Z.to_pos (53 - Z.pos (digits2_pos m'))).
  assert (Hj : Z.pos j = 53 - Z.pos (digits2_pos m')) by (subst j; apply Z2Pos.id; lia).
  rewrite (binary_round_widened 53 1024 s m' e' j);
    [| unfold fexp, emin; lia | lia].
  pose proof (iter_xO_bounds m' j 53 ltac:(lia)) as Hb.
  assert (Hd53 : Z.pos (digits2_pos (Pos.iter xO m' j)) = 53)
    by (rewrite iter_xO_digits; lia).
  destruct (of_to_bits64 s (Pos.iter xO m' j) (e' - Z.pos j) Hd53 ltac:(lia))
    as [Hnan Hback].
  cbv zeta in Hnan, Hback. unfold narrow. rewrite Hnan, Hback.
  change (prec binary32) with 24. change (emax binary32) with 128.
  rewrite (binary_round_shifted 24 128 s m' e' j Hc) by lia.
  f_equal. unfold to_bits. rewrite emin32. cbn [mw binary32]. subst bits. lia.
Qed.

(** Converting a [float] to a [double] and back gives a float that
    converts to the same [double]: the [float] itself, or for a NaN
    the quiet NaN of its sign and payload. *)
Lemma narrow_widen bits :
  0 <= bits < 2 ^ 32 ->
  exists bits',
    narrow (widen bits) = Some bits' /\ 0 <= bits' < 2 ^ 32
    /\ widen bits' = widen bits.
Proof.
  intros Hb. destruct (split32 bits Hb) as (Hsplit & He & Hm).
  set (s := sign_of binary32 bits) in *.
  set (e := exp_of binary32 bits) in *.
  set (m := man_of binary32 bits) in *.
  destruct (is_nan binary32 bits) eqn:Hnan.
  - (* NaN *)
    unfold is_nan in Hnan. fold e m in Hnan. cbn [ew binary32] in Hnan.
    apply andb_true_iff in Hnan. destruct Hnan as [E1 M0].
    apply Z.eqb_eq in E1. apply negb_true_iff in M0. apply Z.eqb_neq in M0.
    pose proof (quiet_bounds m Hm) as Hq.
    set (q := Z.lor m (2 ^ 22)) in *.
    assert (Hw : widen bits = sign_bit binary64 s + 2047 * 2 ^ 52 + q * 2 ^ 29).
    { unfold widen, is_nan. fold e m s. cbn [ew binary32].
      rewrite E1, Z.eqb_refl. apply Z.eqb_neq in M0. rewrite M0. reflexivity. }
    destruct (fields64 s 2047 (q * 2 ^ 29)) as (Hs & Hx & Hn); [pow2; lia | pow2; lia |].
    cbv zeta in Hs, Hx, Hn. rewrite <- Hw in Hs, Hx, Hn.
    destruct (fields32 s 255 q) as (Hs' & Hx' & Hn' & Hr'); [pow2; lia | pow2; lia |].
    cbv zeta in Hs', Hx', Hn', Hr'.
    exists (sign_bit binary32 s + 255 * 2 ^ 23 + q).
    split; [| split; [exact Hr' |]].
    + unfold narrow, is_nan. rewrite Hs, Hx, Hn. cbn [ew binary64].
      change (2047 =? 2 ^ 11 - 1) with true.
      assert (E : (q * 2 ^ 29 =? 0) = false) by (apply Z.eqb_neq; pow2; lia).
      rewrite E. cbn [negb andb]. rewrite Z.div_mul by (pow2; lia).
      subst q. rewrite quiet_idem. reflexivity.
    + rewrite Hw. unfold widen, is_nan. rewrite Hs', Hx', Hn'. cbn [ew binary32].
      change (255 =? 2 ^ 8 - 1) with true.
      assert (E : (q =? 0) = false) by (apply Z.eqb_neq; lia).
      rewrite E. cbn [negb andb]. subst q. rewrite quiet_idem. reflexivity.
  - (* a number *)
    exists bits. split; [| split; [exact Hb | reflexivity]].
    unfold widen. rewrite Hnan.
    unfold is_nan in Hnan. fold e m in Hnan. cbn [ew binary32] in Hnan.
    destruct (Z.eq_dec e 255) as [E1 | E1].
    + (* infinity *)
      rewrite E1 in Hnan. change (255 =? 2 ^ 8 - 1) with true in Hnan.
      cbn [andb] in Hnan. apply negb_false_iff in Hnan.
      assert (Hof : of_bits binary32 bits = S754_infinity s).
      { unfold of_bits. fold s e m. rewrite E1, Hnan. reflexivity. }
      rewrite Hof. apply Z.eqb_eq in Hnan. clearbody s e m.
      rewrite Hsplit, E1, Hnan. destruct s; reflexivity.
    + destruct (Z.eq_dec e 0) as [E0 | E0]; [destruct (Z.eq_dec m 0) as [M0 | M0] |].
      * (* zero *)
        assert (Hof : of_bits binary32 bits = S754_zero s).
        { unfold of_bits. fold s e m. rewrite E0, M0. reflexivity. }
        rewrite Hof. clearbody s e m.
        rewrite Hsplit, E0, M0. destruct s; reflexivity.
      * (* subnormal *)
        clearbody s e m. rewrite Hsplit.
        apply narrow_widen_finite; [pow2 | exact Hm |]; lia.
      * (* normal *)
        clearbody s e m. rewrite Hsplit.
        apply narrow_widen_finite; [pow2 | exact Hm |]; lia.
Qed.
End FloatBits.

(** The conversions on values [struct] of CPython returns: 1.0, the
    least [float], a signalling NaN; the least [double] that is too
    large for a [float], the largest that is not, a tie rounded to
    even and one rounded up; integers exact, rounded to even and too
    large. *)
Lemma float_conversion_samples :
  Float.widen 0x3f800000 = 0x3ff0000000000000
  /\ Float.widen 0x00000001 = 0x36a0000000000000
  /\ Float.widen 0x7fa00000 = 0x7ffc000000000000
  /\ Float.narrow 0x47effffff0000000 = None
  /\ Float.narrow 0x47efffffe0000000 = Some 0x7f7fffff
  /\ Float.narrow 0x3ff0000010000000 = Some 0x3f800000
  /\ Float.narrow 0x3ff0000030000000 = Some 0x3f800002
  /\ Float.narrow 0x3690000000000000 = Some 0
  /\ Float.narrow 0x3690000000000001 = Some 1
  /\ Float.of_int 1 = Some 0x3ff0000000000000
  /\ Float.of_int (2 ^ 53 + 1) = Some 0x4340000000000000
  /\ Float.of_int (2 ^ 53 + 3) = Some 0x4340000000000002
  /\ Float.of_int (2 ^ 1024 - 2 ^ 970 - 1) = Some 0x7fefffffffffffff
  /\ Float.of_int (2 ^ 1024 - 2 ^ 970) = None.
Proof. repeat split; vm_compute; reflexivity. Qed.

(** ** Fields that are written and read again *)

Lemma writes_back_again wr n dec : writes_back wr n dec -> writes_again wr n dec.
Proof. intros H bs g Hl. exists bs. split; [exact Hl | split; [reflexivity | apply H, Hl]]. Qed.

(** Packing the float unpacked from one item gives an item that
    unpacks to the same float. *)
Lemma pack_decode_float bo fmt bs :
  is_float fmt = true -> length bs = calcsize fmt ->
  exists bs',
    pack bo 1 fmt (decode bo fmt bs) = Ok bs' /\ length bs' = calcsize fmt
    /\ decode bo fmt bs' = decode bo fmt bs.
Proof.
  intros Hf Hl. destruct fmt; try discriminate Hf; unfold pack, decode;
    cbn [is_bytes is_float calcsize Z.eqb Pos.eqb as_double] in *.
  - pose proof (le_combine_bound (ordered bo bs)) as Hr.
    rewrite ordered_length, Hl in Hr. change (8 * Z.of_nat 4) with 32 in Hr.
    destruct (narrow_widen (le_combine (ordered bo bs)) Hr) as (s' & Hn & Hs' & Hw).
    rewrite Hn. eexists. split; [reflexivity |]. split.
    + rewrite ordered_length. apply length_le_split.
    + rewrite ordered_involutive, le_combine_split.
      change (Z.of_nat 4 * 8) with 32. rewrite Z.mod_small by exact Hs'.
      rewrite Hw. reflexivity.
  - exists bs. split; [| split; [exact Hl | reflexivity]].
    rewrite <- Hl, <- (ordered_length bo bs), split_le_combine.
    rewrite ordered_involutive. reflexivity.
Qed.

(** A leaf that holds a byte block or a single number. *)
Lemma write_leaf_again e t c fmt :
  assoc t typeNames = Some fmt ->
  (if is_bytes fmt then 0 <=? c else c =? 1) = true ->
  writes_again (fun v => write_leaf v t c e) (leaf_size t c) (leaf_dec e t c).
Proof.
  intros Ht Hc. destruct (is_float fmt) eqn:Hf.
  - assert (Hb : is_bytes fmt = false) by (destruct fmt; try discriminate Hf; reflexivity).
    rewrite Hb in Hc. apply Z.eqb_eq in Hc. subst c.
    unfold writes_again, write_leaf, leaf_size, leaf_dec, unpack. rewrite Ht, Hb.
    change (Z.to_nat 1) with 1%nat. rewrite Nat.mul_1_l.
    intros bs g Hl. rewrite chunks_one by exact Hl. cbn [map hd].
    destruct (pack_decode_float (endian_char e) fmt bs Hf Hl) as (bs' & Hp & Hl' & Hd).
    exists bs'. split; [exact Hl' | split].
    + rewrite chunks_one by exact Hl'. cbn [map hd]. exact Hd.
    + rewrite Hp. reflexivity.
  - apply writes_back_again, write_leaf_writes.
    unfold writable_leaf. rewrite Ht, Hf. cbn [negb andb].
    destruct (is_bytes fmt); exact Hc.
Qed.

Section Again.
Variable sz : string -> Z -> nat.
Variable dec : string -> Z -> list byte -> value.
Variable e : value.
Variable wr : value -> string -> Z -> value -> M unit.

Lemma writeStruct_loop_again fields m :
  (forall name t c, In (name, (t, c)) fields ->
                    writes_again (fun v => wr v t c e) (sz t c) (dec t c)) ->
  forall bs g,
    length bs = struct_size sz fields ->
    fields_hold sz dec fields bs m ->
    exists bs',
      length bs' = struct_size sz fields
      /\ (forall res, struct_dec sz dec fields res bs' = struct_dec sz dec fields res bs)
      /\ writeStruct_loop wr (VDict m) fields e g = file_write bs' g.
Proof.
  induction fields as [| [name [t c]] rest IH]; intros Hf bs g Hl Hh.
  - exists []. split; [reflexivity | split; [reflexivity |]]. reflexivity.
  - cbn [writeStruct_loop struct_size fields_hold struct_dec] in *.
    destruct Hh as [Hm Hh].
    assert (Hhead : writes_again (fun v => wr v t c e) (sz t c) (dec t c))
      by (apply (Hf name); left; reflexivity).
    assert (Hrest : forall name' t' c', In (name', (t', c')) rest ->
                      writes_again (fun v => wr v t' c' e) (sz t' c') (dec t' c'))
      by (intros; apply (Hf name'); right; assumption).
    destruct (Hhead (firstn (sz t c) bs) g) as (b1 & Hl1 & Hd1 & Hw1);
      [rewrite length_firstn; lia |].
    destruct (IH Hrest (skipn (sz t c) bs) (snd (file_write b1 g))) as (b2 & Hl2 & Hd2 & Hw2);
      [rewrite length_skipn; lia | exact Hh |].
    exists (b1 ++ b2). split; [rewrite length_app; lia | split].
    + intros res. rewrite firstn_app, skipn_app, Hl1, Nat.sub_diag.
      rewrite firstn_all2, skipn_all2 by lia.
      cbn [firstn skipn app]. rewrite app_nil_r, Hd1. apply Hd2.
    + unfold lift, getitem. rewrite Hm. unfold bind at 1.
      rewrite <- file_write_app. unfold bind. rewrite Hw1.
      destruct (file_write b1 g) as [[[] | ex] g1] eqn:E; [| reflexivity].
      exact Hw2.
Qed.
End Again.

Lemma readStruct_loop_ok_fields rd e fields :
  forall res f v f',
    readStruct_loop rd fields e res f = (Ok v, f') ->
    forall name t c, In (name, (t, c)) fields ->
                     exists f1 v1 f2, rd t c e f1 = (Ok v1, f2).
Proof.
  induction fields as [| [name0 [t0 c0]] rest IH]; intros res f v f' H name t c Hin.
  - contradiction.
  - cbn [readStruct_loop] in H. bind_inv H. destruct Hin as [Heq | Hin].
    + injection Heq as <- <- <-. eauto.
    + exact (IH _ _ _ _ H name t c Hin).
Qed.

(** A leaf [read] has returned from can be read. *)
Lemma read_leaf_ok_readable t c e f v f' :
  read_leaf t c e f = (Ok v, f') -> readable_leaf t c = true.
Proof.
  unfold read_leaf, readable_leaf.
  destruct (assoc t typeNames) as [fmt |]; [| discriminate].
  intros H. bind_inv H.
  destruct (c * Z.of_nat (calcsize fmt) =? Z.of_nat (length a)) eqn:E;
    [| discriminate H].
  apply Z.eqb_eq in E. cbn [negb] in H. apply lift_ok_inv in H. destruct H as [H _].
  assert (Hc : 0 <= c) by (destruct fmt; cbn [calcsize] in E; lia).
  unfold unpack, index in H. destruct (is_bytes fmt); [apply Z.leb_le; exact Hc |].
  destruct (Z.to_nat c) eqn:En; [discriminate H |]. apply Z.leb_le. lia.
Qed.

(** The fields of a schema [readStruct] has returned from. *)
Lemma readStruct_ok_fields sch e f m f' :
  readStruct sch e f = (Ok m, f') ->
  forall name t c,
    In (name, (t, c)) sch ->
    in_schemes t = true
    \/ (in_schemes t = false /\ readable_leaf t c = true).
Proof.
  intros H name t c Hin.
  destruct (readStruct_loop_ok_fields read e sch [] f m f' H name t c Hin)
    as (f1 & v1 & f2 & Hr).
  destruct (in_schemes t) eqn:Hs; [left; reflexivity | right].
  split; [reflexivity |].
  unfold read in Hr. rewrite read_at_leaf in Hr by exact Hs.
  exact (read_leaf_ok_readable _ _ _ _ _ _ Hr).
Qed.

Lemma readStruct_reads_fields sch e :
  (forall name t c, In (name, (t, c)) sch -> good_at readable_leaf 2 t c = true) ->
  reads_as (readStruct sch e) (sizeof sch) (decode_struct sch e).
Proof.
  intros Hg. unfold readStruct, sizeof, decode_struct, read.
  apply readStruct_loop_reads. intros name t c Hin.
  apply read_at_reads. exact (Hg name t c Hin).
Qed.

Lemma single_numbers_field sch name t c fmt :
  single_numbers sch = true -> In (name, (t, c)) sch ->
  assoc t typeNames = Some fmt -> is_bytes fmt = false -> c = 1.
Proof.
  unfold single_numbers. intros H Hin Ht Hb. rewrite forallb_forall in H.
  specialize (H _ Hin). cbn [fst snd] in H. rewrite Ht, Hb in H.
  apply Z.eqb_eq. exact H.
Qed.

(** C6, as the code has it -- for a schema whose field names are
    distinct and whose number fields, integers and floats, have repeat
    count 1, a dict [m] that [readStruct] produced can be written with
    [writeStruct] at the cursor of any buffer, and [readStruct] at that
    same offset of the result returns [m] again.  A float of [m] is the
    64 bits of the Python float. *)
Theorem write_then_read_roundtrip sch e b p m f1 g :
  distinct (names sch) = true -> single_numbers sch = true ->
  readStruct sch e (mkBytesIO b p) = (Ok m, f1) ->
  exists g',
    writeStruct m sch e g = (Ok tt, g')
    /\ readStruct sch e (mkBytesIO (getvalue g') (pos g))
       = (Ok m, mkBytesIO (getvalue g') (pos g + sizeof sch)).
Proof.
  intros Hd Hs Hr.
  pose proof (readStruct_ok_fields _ _ _ _ _ Hr) as Hfields.
  assert (Hreads : reads_as (readStruct sch e) (sizeof sch) (decode_struct sch e)).
  { apply readStruct_reads_fields. intros name t c Hin.
    destruct (Hfields name t c Hin) as [Hin_s | [Hleaf Hrd]].
    - apply good_at_readable, in_schemes_good. exact Hin_s.
    - rewrite good_at_leaf by exact Hleaf. exact Hrd. }
  pose proof (reads_as_ok_inv _ _ _ _ _ _ _ Hreads Hr) as (He & -> & ->).
  pose proof (slice_length_enough _ _ _ He) as Hl.
  destruct (writeStruct_loop_again (size_at 2) (dec_at 2 e) e write sch
              (struct_dec (size_at 2) (dec_at 2 e) sch [] (slice b p (sizeof sch))))
    with (bs := slice b p (sizeof sch)) (g := g) as (bs' & Hl' & Hdec & Hw).
  - intros name t c Hin. unfold write.
    destruct (Hfields name t c Hin) as [Hin_s | [Hleaf Hrd]].
    + apply writes_back_again, write_at_writes, in_schemes_good. exact Hin_s.
    + rewrite size_at_leaf, dec_at_leaf by exact Hleaf.
      unfold readable_leaf in Hrd.
      destruct (assoc t typeNames) as [fmt |] eqn:Ht; [| discriminate Hrd].
      intros bs g0 Hbs. rewrite write_at_leaf by exact Hleaf.
      apply (write_leaf_again e t c fmt Ht); [| exact Hbs].
      destruct (is_bytes fmt) eqn:Hb; [exact Hrd |].
      rewrite (single_numbers_field sch name t c fmt Hs Hin Ht Hb). reflexivity.
  - exact Hl.
  - apply struct_dec_holds. exact Hd.
  - fold (sizeof sch) in Hl'.
    destruct (file_write_slice bs' g) as (Hok & Hen & Hsl & _).
    cbv zeta in Hen, Hsl. rewrite Hl' in Hen, Hsl.
    exists (snd (file_write bs' g)). split.
    + unfold writeStruct, decode_struct. rewrite Hw.
      rewrite (surjective_pairing (file_write _ g)) at 1.
      rewrite Hok. reflexivity.
    + destruct (Hreads (getvalue (snd (file_write bs' g))) (pos g)) as [Hread _].
      rewrite (Hread Hen), Hsl. unfold decode_struct. rewrite Hdec. reflexivity.
Qed.

Lemma write_then_read_roundtrip_witness :
  let sch := [("tag", ("char", 2)); ("x", ("float", 1)); ("e_ident", ("Elf_Ident", 1));
              ("y", ("double", 1)); ("n", ("int16", 1))] in
  let b := [Byte.x41; Byte.x42; Byte.x00; Byte.x00; Byte.xa0; Byte.x7f]
             ++ ident Byte.x01 Byte.x01
             ++ [Byte.x00; Byte.x00; Byte.x00; Byte.x00; Byte.x00; Byte.x00; Byte.xf8;
                 Byte.x3f; Byte.xfe; Byte.xff] in
  let m := VDict [("tag", VBytes [Byte.x41; Byte.x42]);
                  ("x", VFloat 9222246136947933184);
                  ("e_ident", decode_struct Elf_Ident (VInt ELFDATA2LSB)
                                (ident Byte.x01 Byte.x01));
                  ("y", VFloat 4609434218613702656);
                  ("n", VInt (-2))] in
  distinct (names sch) = true /\ single_numbers sch = true
  /\ readStruct sch (VInt ELFDATA2LSB) (mkBytesIO b 0) = (Ok m, mkBytesIO b 32)
  /\ exists g',
      writeStruct m sch (VInt ELFDATA2LSB) (mkBytesIO elf32_be 60) = (Ok tt, g')
      /\ readStruct sch (VInt ELFDATA2LSB) (mkBytesIO (getvalue g') 60)
         = (Ok m, mkBytesIO (getvalue g') (60 + sizeof sch)).
Proof.
  cbv zeta.
  match goal with
  | |- distinct (names ?S) = true /\ _ /\ ?R /\ _ =>
      assert (Hd : distinct (names S) = true) by reflexivity;
      assert (Hs : single_numbers S = true) by reflexivity;
      assert (Hr : R) by (vm_compute; reflexivity);
      split; [exact Hd | split; [exact Hs | split; [exact Hr |]]];
      exact (write_then_read_roundtrip S (VInt ELFDATA2LSB) _ 0%nat _ _
               (mkBytesIO elf32_be 60) Hd Hs Hr)
  end.
Defined.

(** C6, as stated, fails on a schema with a repeated number: [read]
    keeps one value of the two, and [write] cannot pack one value into
    a two-item format.  It also fails on a schema that uses a field
    name twice: the dict holds the value read last, 512, and [write]
    cannot pack it into the one byte of the first field. *)
Lemma write_then_read_counterexample :
  (let sch := [("x", ("uint16", 2))] in
   let b := [Byte.x01; Byte.x00; Byte.x02; Byte.x00] in
   readStruct sch (VInt ELFDATA2LSB) (mkBytesIO b 0)
   = (Ok (VDict [("x", VInt 1)]), mkBytesIO b 4)
   /\ writeStruct (VDict [("x", VInt 1)]) sch (VInt ELFDATA2LSB) (mkBytesIO b 0)
      = (Raise StructError, mkBytesIO b 0))
  /\ (let sch := [("x", ("uint8", 1)); ("x", ("uint16", 1))] in
      let b := [Byte.x01; Byte.x00; Byte.x02] in
      readStruct sch (VInt ELFDATA2LSB) (mkBytesIO b 0)
      = (Ok (VDict [("x", VInt 512)]), mkBytesIO b 3)
      /\ writeStruct (VDict [("x", VInt 512)]) sch (VInt ELFDATA2LSB) (mkBytesIO b 0)
         = (Raise StructError, mkBytesIO b 0)).
Proof. repeat split; reflexivity. Qed.

(** * The header protocol *)

Lemma byte_eqb_eq x y : byte_eqb x y = true <-> x = y.
Proof.
  unfold byte_eqb. rewrite Z.eqb_eq. split.
  - apply byte.unsigned_inj.
  - intros ->. reflexivity.
Qed.

Lemma bytes_eqb_eq a : forall b, bytes_eqb a b = true <-> a = b.
Proof.
  induction a as [| x a IH]; intros [| y b]; cbn; try (split; congruence).
  rewrite andb_true_iff, byte_eqb_eq, IH. split.
  - intros [-> ->]. reflexivity.
  - intros H. injection H as -> ->. auto.
Qed.

(** The identification block of a buffer that holds one. *)
Lemma read_ident_ok b :
  (16 <= length b)%nat ->
  readStruct Elf_Ident (VInt ELFDATA2MSB) (mkBytesIO b 0)
  = (Ok (decode_struct Elf_Ident (VInt ELFDATA2MSB) (firstn 16 b)), mkBytesIO b 16).
Proof.
  intros Hl.
  apply (readStruct_reads Elf_Ident (VInt ELFDATA2MSB) eq_refl b 0%nat).
  unfold enough. change (sizeof Elf_Ident) with 16%nat. lia.
Qed.

Lemma ident_magic e bs :
  getitem (decode_struct Elf_Ident e bs) "ELF_MAG" = Ok (VBytes (firstn 4 bs)).
Proof. reflexivity. Qed.

Lemma le_combine_single x : le_combine [x] = byte.unsigned x.
Proof. apply le_combine_1. Qed.

Lemma one_byte_value bo x : le_combine (ordered bo [x]) = byte.unsigned x.
Proof. rewrite ordered_short by (cbn; lia). apply le_combine_1. Qed.

(** The one-byte fields of the identification block, for a block whose
    bytes 4, 5 and 6 are [c], [d] and [v]. *)
Lemma ident_bytes e m c d v rest :
  length m = 4%nat ->
  let id := decode_struct Elf_Ident e (m ++ c :: d :: v :: rest) in
  getitem id "ELF_MAG" = Ok (VBytes m)
  /\ getitem id "EI_CLASS" = Ok (VInt (byte.unsigned c))
  /\ getitem id "EI_DATA" = Ok (VInt (byte.unsigned d))
  /\ getitem id "EI_VERSION" = Ok (VInt (byte.unsigned v)).
Proof.
  intros Hm. destruct m as [| m0 [| m1 [| m2 [| m3 [| ? ?]]]]]; try discriminate Hm.
  cbv zeta. rewrite <- (one_byte_value (endian_char e) c).
  rewrite <- (one_byte_value (endian_char e) d).
  rewrite <- (one_byte_value (endian_char e) v).
  repeat split; reflexivity.
Qed.

(** C3, as the code has it -- a buffer of at least 16 bytes whose first
    four bytes are not the signature fails the magic assertion, after
    the whole identification block has been read: the cursor is left at
    offset 16 and nothing beyond it was read. *)
Theorem magic_gate b :
  (16 <= length b)%nat -> firstn 4 b <> ELFMAG ->
  ELF.init b = (Raise (AssertionError "ELF_MAG"), mkBytesIO b 16).
Proof.
  intros Hl Hmag. unfold ELF.init, ELF._parse. apply bind_raise.
  unfold ELF._parse_ident.
  erewrite bind_ok by (apply read_ident_ok; exact Hl).
  unfold bind at 1, lift at 1. rewrite ident_magic.
  rewrite firstn_firstn. change (Nat.min 4 16) with 4%nat.
  unfold eq_bytes.
  destruct (bytes_eqb (firstn 4 b) ELFMAG) eqn:E;
    [apply bytes_eqb_eq in E; contradiction |].
  reflexivity.
Qed.

Lemma magic_gate_witness :
  (16 <= length (zeros 16))%nat /\ firstn 4 (zeros 16) <> ELFMAG
  /\ ELF.init (zeros 16) = (Raise (AssertionError "ELF_MAG"), mkBytesIO (zeros 16) 16).
Proof.
  assert (Hl : (16 <= length (zeros 16))%nat) by (simpl; lia).
  assert (Hm : firstn 4 (zeros 16) <> ELFMAG) by (simpl; discriminate).
  split; [exact Hl | split; [exact Hm | exact (magic_gate (zeros 16) Hl Hm)]].
Defined.

(** C3, as stated, fails: with a wrong signature the cursor ends at
    offset 16, not within the first four bytes; and a buffer of just
    four wrong bytes fails with the short-read error, not the magic
    assertion. *)
Lemma magic_gate_counterexample :
  firstn 4 (zeros 16) <> ELFMAG
  /\ ELF.init (zeros 16) = (Raise (AssertionError "ELF_MAG"), mkBytesIO (zeros 16) 16)
  /\ ~ (pos (snd (ELF.init (zeros 16))) <= 4)%nat
  /\ firstn 4 (zeros 4) <> ELFMAG
  /\ fst (ELF.init (zeros 4)) = Raise RuntimeError_NotEnoughBytes.
Proof.
  split; [discriminate |].
  split; [reflexivity |].
  split; [vm_compute; lia |].
  split; [discriminate | reflexivity].
Qed.

Lemma read_entries_endian e e' sch :
  endian_char e = endian_char e' ->
  forall k l f, ELF.read_entries k sch e l f = ELF.read_entries k sch e' l f.
Proof.
  intros He. induction k as [| k IH]; intros l f; cbn [ELF.read_entries].
  - reflexivity.
  - apply bind_ext; [apply readStruct_endian; exact He | intros; apply IH].
Qed.

(** [_parse] uses [endian] only through the test [endian == ELFDATA2LSB]. *)
Lemma parse_from_endian id e e' f :
  endian_char e = endian_char e' ->
  ELF._parse_from id e f = ELF._parse_from id e' f.
Proof.
  intros He. unfold ELF._parse_from. apply bind_ext.
  - unfold ELF._parse_ehdr. apply bind_ext; [reflexivity |]. intros [] f1.
    apply bind_ext; [reflexivity |]. intros cls f2.
    destruct (eq_int cls ELFCLASS32); [| destruct (eq_int cls ELFCLASS64)].
    + apply bind_ext; [apply readStruct_endian; exact He | reflexivity].
    + apply bind_ext; [apply readStruct_endian; exact He | reflexivity].
    + reflexivity.
  - intros [[Ph Sh] hdr] f1. unfold ELF._parse_tables.
    repeat (apply bind_ext; [reflexivity | intros ? ?]).
    apply bind_ext; [apply read_entries_endian; exact He | intros ? ?].
    repeat (apply bind_ext; [reflexivity | intros ? ?]).
    apply bind_ext; [apply read_entries_endian; exact He | reflexivity].
Qed.

(** X19 -- [_parse] takes every data-encoding byte other than 1 for
    big-endian: on a buffer with the signature and version 1 whose
    data-encoding byte is neither 1 nor 2 it goes on from the
    identification block exactly as it does when that byte is 2. *)
Theorem unknown_data_encoding_reads_big_endian b d :
  (16 <= length b)%nat -> firstn 4 b = ELFMAG ->
  nth_error b 6 = Some Byte.x01 -> nth_error b 5 = Some d ->
  d <> Byte.x01 -> d <> Byte.x02 ->
  ELF.init b
  = ELF._parse_from (decode_struct Elf_Ident (VInt ELFDATA2MSB) (firstn 16 b))
      (VInt ELFDATA2MSB) (mkBytesIO b 16).
Proof.
  intros Hl Hmag Hver Hdata Hd1 _.
  assert (Hb : exists c rest, firstn 16 b = ELFMAG ++ c :: d :: Byte.x01 :: rest).
  { destruct b as [| b0 [| b1 [| b2 [| b3 [| b4 [| b5 [| b6 rest]]]]]]];
      try (cbn in Hl; lia).
    cbn in Hmag, Hver, Hdata. injection Hmag as -> -> -> ->.
    injection Hver as ->. injection Hdata as ->.
    exists b4, (firstn 9 rest). reflexivity. }
  destruct Hb as (c & rest & Hb).
  destruct (ident_bytes (VInt ELFDATA2MSB) ELFMAG c d Byte.x01 rest eq_refl)
    as (Hm & _ & He & Hv).
  rewrite <- Hb in Hm, He, Hv.
  unfold ELF.init, ELF._parse.
  erewrite bind_ok.
  2:{ unfold ELF._parse_ident.
      erewrite bind_ok by (apply read_ident_ok; exact Hl).
      unfold bind, lift. rewrite Hm, Hv, He. reflexivity. }
  cbn [fst snd]. apply parse_from_endian.
  unfold endian_char. cbn [eq_int].
  destruct (byte.unsigned d =? ELFDATA2LSB) eqn:E; [| reflexivity].
  apply Z.eqb_eq in E. exfalso. apply Hd1. apply byte.unsigned_inj. exact E.
Qed.

Lemma unknown_data_encoding_reads_big_endian_witness :
  (16 <= length elf32_data0)%nat /\ firstn 4 elf32_data0 = ELFMAG
  /\ nth_error elf32_data0 6 = Some Byte.x01 /\ nth_error elf32_data0 5 = Some Byte.x00
  /\ Byte.x00 <> Byte.x01 /\ Byte.x00 <> Byte.x02
  /\ ELF.init elf32_data0
     = ELF._parse_from
         (decode_struct Elf_Ident (VInt ELFDATA2MSB) (firstn 16 elf32_data0))
         (VInt ELFDATA2MSB) (mkBytesIO elf32_data0 16).
Proof.
  assert (Hl : (16 <= length elf32_data0)%nat) by (simpl; lia).
  assert (H1 : Byte.x00 <> Byte.x01) by discriminate.
  assert (H2 : Byte.x00 <> Byte.x02) by discriminate.
  split; [exact Hl |]. split; [reflexivity |]. split; [reflexivity |].
  split; [reflexivity |]. split; [exact H1 |]. split; [exact H2 |].
  exact (unknown_data_encoding_reads_big_endian elf32_data0 Byte.x00
           Hl eq_refl eq_refl eq_refl H1 H2).
Defined.

(** C4 -- [_parse] does not check the data-encoding byte.  The 52-byte
    header [elf32_data0] has the signature, version 1 and data-encoding
    byte 0, which the source lists as [ELFDATANONE], the invalid data
    encoding.  [_parse] raises nothing: it returns a model that records
    data encoding 0 and whose file header was decoded most significant
    byte first ([e_type] 2, [e_ehsize] 52). *)
Theorem unknown_data_encoding_accepted :
  firstn 4 elf32_data0 = ELFMAG
  /\ nth_error elf32_data0 6 = Some Byte.x01
  /\ nth_error elf32_data0 5 = Some Byte.x00
  /\ exists self,
      ELF.init elf32_data0 = (Ok self, mkBytesIO elf32_data0 0)
      /\ getitem (ELF.e_ident self) "EI_DATA" = Ok (VInt 0)
      /\ getitem (ELF.ehdr self) "e_type" = Ok (VInt 2)
      /\ getitem (ELF.ehdr self) "e_ehsize" = Ok (VInt 52).
Proof.
  split; [reflexivity |]. split; [reflexivity |]. split; [reflexivity |].
  eexists. split; [vm_compute; reflexivity |].
  split; [reflexivity |]. split; reflexivity.
Qed.

(** [_parse] from the point where it has the file header in hand. *)
Lemma init_after_header b id e sel f1 :
  ELF._parse_header (mkBytesIO b 0) = (Ok (id, e, sel), f1) ->
  ELF.init b = ELF._parse_tables id e sel f1.
Proof.
  unfold ELF._parse_header. intros H.
  bind_inv H. destruct a as [id0 e0]. cbn [fst snd] in H.
  bind_inv H. unfold ret in H. injection H as -> -> -> ->.
  unfold ELF.init, ELF._parse.
  erewrite bind_ok by exact Hm. cbn [fst snd]. unfold ELF._parse_from.
  erewrite bind_ok by exact Hm0. reflexivity.
Qed.

(** C5, as the code has it -- when the header has been read and the
    program-header count times the size of an entry of the class
    exceeds the bytes from the table offset to the end of the buffer,
    [_parse] returns no model.  With a table offset below 2^63 it
    raises the short-read error.  With an offset of 2^63 or more, which
    a 64-bit header can hold, [seek] refuses the offset and [_parse]
    ends in [OverflowError], the cursor still behind the file header.
    The entry size is 32 for class 1 and 56 for class 2. *)
Theorem truncated_program_headers b id e Ph Sh hdr f1 phoff phnum :
  ELF._parse_header (mkBytesIO b 0) = (Ok (id, e, (Ph, Sh, hdr)), f1) ->
  getitem hdr "e_phoff" = Ok (VInt phoff) ->
  getitem hdr "e_phnum" = Ok (VInt phnum) ->
  Z.of_nat (length b - Z.to_nat phoff) < phnum * Z.of_nat (sizeof Ph) ->
  (phoff < 2 ^ 63 -> exists f', ELF.init b = (Raise RuntimeError_NotEnoughBytes, f'))
  /\ (2 ^ 63 <= phoff -> ELF.init b = (Raise OverflowError, f1))
  /\ exists c,
      getitem id "EI_CLASS" = Ok (VInt c) /\ Ph = Phdr_of c
      /\ (c = ELFCLASS32 /\ sizeof Ph = 32%nat \/ c = ELFCLASS64 /\ sizeof Ph = 56%nat).
Proof.
  intros H Hoff Hnum Hshort.
  pose proof (init_after_header _ _ _ _ _ H) as Hstart.
  unfold ELF._parse_tables in Hstart.
  unfold bind at 1, lift at 1 in Hstart. rewrite Hoff in Hstart.
  unfold ELF._parse_header in H.
  bind_inv H. destruct a as [id0 e0]. cbn [fst snd] in H.
  bind_inv H. unfold ret in H. injection H as Hid He Hsel Hf.
  subst id0 e0 a f1.
  pose proof (parse_ident_ok_inv _ _ _ _ _ Hm) as (_ & _ & -> & _).
  pose proof (parse_ehdr_ok_inv _ _ _ _ _ _ _ _ Hm0) as (c & Hc & Hc12 & -> & -> & _ & Hhdr & ->).
  destruct (class_schemes_wf c Hc12) as (_ & Hwf & _).
  split; [| split].
  - intros Hlt.
    destruct (ehdr_field c e (slice b 0 (sizeof (Ehdr_of c))) "e_phoff" Hc12)
      as (z & Hz & Hz0); [cbn; tauto |].
    rewrite <- Hhdr, Hoff in Hz. injection Hz as <-.
    destruct (read_entries_short (Phdr_of c) e Hwf (Z.to_nat phnum) [] b
                (Z.to_nat phoff)) as [f' Hf'].
    { unfold enough. nia. }
    exists f'. rewrite Hstart.
    erewrite bind_ok by (apply seek_ok; lia).
    unfold bind at 1, lift at 1. rewrite Hnum.
    unfold bind at 1, lift at 1. cbn [range].
    erewrite bind_raise by exact Hf'. reflexivity.
  - intros Hge. rewrite Hstart.
    erewrite bind_raise by (apply seek_overflow; exact Hge). reflexivity.
  - exists c. split; [exact Hc | split; [reflexivity |]].
    destruct Hc12 as [-> | ->]; [left | right]; split; reflexivity.
Qed.

Lemma truncated_program_headers_witness :
  let hdr := decode_struct Elf64_Ehdr (VInt 1) (firstn 64 elf64_short) in
  ELF._parse_header (mkBytesIO elf64_short 0)
  = (Ok (decode_struct Elf_Ident (VInt ELFDATA2MSB) (firstn 16 elf64_short), VInt 1,
         (Elf64_Phdr, Elf64_Shdr, hdr)),
     mkBytesIO elf64_short 64)
  /\ getitem hdr "e_phoff" = Ok (VInt 64)
  /\ getitem hdr "e_phnum" = Ok (VInt 2)
  /\ Z.of_nat (length elf64_short - Z.to_nat 64) < 2 * Z.of_nat (sizeof Elf64_Phdr)
  /\ 64 < 2 ^ 63
  /\ exists f', ELF.init elf64_short = (Raise RuntimeError_NotEnoughBytes, f').
Proof.
  cbv zeta.
  assert (Hh : ELF._parse_header (mkBytesIO elf64_short 0)
               = (Ok (decode_struct Elf_Ident (VInt ELFDATA2MSB) (firstn 16 elf64_short),
                      VInt 1,
                      (Elf64_Phdr, Elf64_Shdr,
                       decode_struct Elf64_Ehdr (VInt 1) (firstn 64 elf64_short))),
                  mkBytesIO elf64_short 64)) by (vm_compute; reflexivity).
  assert (Hoff : getitem (decode_struct Elf64_Ehdr (VInt 1) (firstn 64 elf64_short))
                   "e_phoff" = Ok (VInt 64)) by (vm_compute; reflexivity).
  assert (Hnum : getitem (decode_struct Elf64_Ehdr (VInt 1) (firstn 64 elf64_short))
                   "e_phnum" = Ok (VInt 2)) by (vm_compute; reflexivity).
  assert (Hlt : Z.of_nat (length elf64_short - Z.to_nat 64)
                < 2 * Z.of_nat (sizeof Elf64_Phdr)) by (vm_compute; reflexivity).
  assert (Hb : 64 < 2 ^ 63) by reflexivity.
  split; [exact Hh |]. split; [exact Hoff |]. split; [exact Hnum |].
  split; [exact Hlt |]. split; [exact Hb |].
  exact (proj1 (truncated_program_headers elf64_short _ _ _ _ _ _ 64 2 Hh Hoff Hnum Hlt)
           Hb).
Defined.

(** C5, as stated, fails: the 64-byte header [elf64_far] declares one
    program header at offset 2^63, so the table is cut short by the end
    of the buffer; [_parse] reads the file header and then ends in the
    [OverflowError] of [seek], not in the short-read error. *)
Lemma truncated_program_headers_counterexample :
  let hdr := decode_struct Elf64_Ehdr (VInt 1) elf64_far in
  ELF._parse_header (mkBytesIO elf64_far 0)
  = (Ok (decode_struct Elf_Ident (VInt ELFDATA2MSB) (firstn 16 elf64_far), VInt 1,
         (Elf64_Phdr, Elf64_Shdr, hdr)),
     mkBytesIO elf64_far 64)
  /\ getitem hdr "e_phoff" = Ok (VInt (2 ^ 63))
  /\ getitem hdr "e_phnum" = Ok (VInt 1)
  /\ Z.of_nat (length elf64_far - Z.to_nat (2 ^ 63)) < 1 * Z.of_nat (sizeof Elf64_Phdr)
  /\ ELF.init elf64_far = (Raise OverflowError, mkBytesIO elf64_far 64)
  /\ fst (ELF.init elf64_far) <> Raise RuntimeError_NotEnoughBytes.
Proof.
  cbv zeta.
  assert (Hinit : ELF.init elf64_far = (Raise OverflowError, mkBytesIO elf64_far 64))
    by (vm_compute; reflexivity).
  split; [vm_compute; reflexivity |]. split; [vm_compute; reflexivity |].
  split; [vm_compute; reflexivity |].
  split; [change (length elf64_far) with 64%nat;
          change (sizeof Elf64_Phdr) with 56%nat; lia |].
  split; [exact Hinit | rewrite Hinit; discriminate].
Qed.

(** X20 -- [_parse] seeks to [e_phoff] whether or not there is a
    program header to read: once the file header has been read, an
    [e_phoff] of 2^63 or more ends the parse in the [OverflowError] of
    [seek], also when [e_phnum] is 0, and the cursor is left behind the
    file header. *)
Theorem parse_far_offset b id e Ph Sh hdr f1 phoff :
  ELF._parse_header (mkBytesIO b 0) = (Ok (id, e, (Ph, Sh, hdr)), f1) ->
  getitem hdr "e_phoff" = Ok (VInt phoff) ->
  2 ^ 63 <= phoff ->
  ELF.init b = (Raise OverflowError, f1).
Proof.
  intros H Hoff Hge.
  rewrite (init_after_header _ _ _ _ _ H). unfold ELF._parse_tables.
  unfold bind at 1, lift at 1. rewrite Hoff.
  erewrite bind_raise by (apply seek_overflow; exact Hge). reflexivity.
Qed.

Lemma parse_far_offset_witness :
  let b := elf64_far_with Byte.x00 in
  let hdr := decode_struct Elf64_Ehdr (VInt 1) b in
  ELF._parse_header (mkBytesIO b 0)
  = (Ok (decode_struct Elf_Ident (VInt ELFDATA2MSB) (firstn 16 b), VInt 1,
         (Elf64_Phdr, Elf64_Shdr, hdr)),
     mkBytesIO b 64)
  /\ getitem hdr "e_phoff" = Ok (VInt (2 ^ 63))
  /\ getitem hdr "e_phnum" = Ok (VInt 0)
  /\ 2 ^ 63 <= 2 ^ 63
  /\ ELF.init b = (Raise OverflowError, mkBytesIO b 64).
Proof.
  cbv zeta.
  assert (Hh : ELF._parse_header (mkBytesIO (elf64_far_with Byte.x00) 0)
               = (Ok (decode_struct Elf_Ident (VInt ELFDATA2MSB)
                        (firstn 16 (elf64_far_with Byte.x00)),
                      VInt 1,
                      (Elf64_Phdr, Elf64_Shdr,
                       decode_struct Elf64_Ehdr (VInt 1) (elf64_far_with Byte.x00))),
                  mkBytesIO (elf64_far_with Byte.x00) 64)) by (vm_compute; reflexivity).
  assert (Hoff : getitem (decode_struct Elf64_Ehdr (VInt 1) (elf64_far_with Byte.x00))
                   "e_phoff" = Ok (VInt (2 ^ 63))) by (vm_compute; reflexivity).
  assert (Hge : 2 ^ 63 <= 2 ^ 63) by lia.
  split; [exact Hh |]. split; [exact Hoff |]. split; [vm_compute; reflexivity |].
  split; [exact Hge |].
  exact (parse_far_offset _ _ _ _ _ _ _ (2 ^ 63) Hh Hoff Hge).
Defined.

(** C8 -- after a successful [_parse] the class byte is 1 or 2; the
    program-header list has as many entries as the header's [e_phnum]
    and the section-header list as many as its [e_shnum]; and entry
    [i] of the program headers is what [readStruct] reads at
    [e_phoff + i * size], moving the cursor by exactly [size] bytes,
    where [size] is 32 for class 1 and 56 for class 2. *)
Theorem parsed_tables_match_header b self f' :
  ELF.init b = (Ok self, f') ->
  exists c e phoff phnum shoff shnum,
    getitem (ELF.e_ident self) "EI_CLASS" = Ok (VInt c)
    /\ (c = ELFCLASS32 \/ c = ELFCLASS64)
    /\ getitem (ELF.e_ident self) "EI_DATA" = Ok e
    /\ getitem (ELF.ehdr self) "e_phoff" = Ok (VInt phoff)
    /\ getitem (ELF.ehdr self) "e_phnum" = Ok (VInt phnum)
    /\ getitem (ELF.ehdr self) "e_shoff" = Ok (VInt shoff)
    /\ getitem (ELF.ehdr self) "e_shnum" = Ok (VInt shnum)
    /\ Z.of_nat (length (ELF.phdrs self)) = phnum
    /\ Z.of_nat (length (ELF.shdrs self)) = shnum
    /\ sizeof (Phdr_of c) = (if c =? ELFCLASS32 then 32%nat else 56%nat)
    /\ forall i entry,
        nth_error (ELF.phdrs self) i = Some entry ->
        readStruct (Phdr_of c) e
          (mkBytesIO b (Z.to_nat phoff + i * sizeof (Phdr_of c)))
        = (Ok entry,
           mkBytesIO b (Z.to_nat phoff + i * sizeof (Phdr_of c) + sizeof (Phdr_of c))).
Proof.
  unfold ELF.init, ELF._parse. intros H.
  bind_inv_as H ie f0 Hident. destruct ie as [id e]. cbn [fst snd] in H.
  pose proof (parse_ident_ok_inv _ _ _ _ _ Hident) as (_ & _ & -> & _ & _ & Hdata).
  unfold ELF._parse_from in H. bind_inv_as H sel f1 Hehdr.
  destruct sel as [[Ph Sh] hdr].
  pose proof (parse_ehdr_ok_inv _ _ _ _ _ _ _ _ Hehdr)
    as (c & Hc & Hc12 & -> & -> & _ & Hhdr & ->).
  destruct (class_schemes_wf c Hc12) as (_ & Hwfp & Hwfs).
  destruct (class_sizes c Hc12) as (Hsz & _ & _).
  unfold ELF._parse_tables in H.
  bind_inv_as H voff f2 Hoff. apply lift_ok_inv in Hoff. destruct Hoff as [Hoff ->].
  bind_inv_as H u1 f3 Hseek. apply seek_ok_inv in Hseek.
  destruct Hseek as (phoff & -> & Hoff0 & ->).
  bind_inv_as H vnum f4 Hnum. apply lift_ok_inv in Hnum. destruct Hnum as [Hnum ->].
  bind_inv_as H n_ph f5 Hrng. apply lift_ok_inv in Hrng. destruct Hrng as [Hrng ->].
  apply range_ok_inv in Hrng. destruct Hrng as (phnum & -> & ->).
  bind_inv_as H phs' f6 Hph.
  pose proof (read_entries_ok (Phdr_of c) e Hwfp _ _ _ _ _ _ Hph)
    as (phs & Hphs & Hphlen & -> & Hphnth).
  cbn [app] in Hphs. subst phs'.
  bind_inv_as H vsoff f7 Hsoff. apply lift_ok_inv in Hsoff. destruct Hsoff as [Hsoff ->].
  bind_inv_as H u2 f8 Hsseek. apply seek_ok_inv in Hsseek.
  destruct Hsseek as (shoff & -> & Hsoff0 & ->).
  bind_inv_as H vsnum f9 Hsnum. apply lift_ok_inv in Hsnum. destruct Hsnum as [Hsnum ->].
  bind_inv_as H n_sh f10 Hsrng. apply lift_ok_inv in Hsrng. destruct Hsrng as [Hsrng ->].
  apply range_ok_inv in Hsrng. destruct Hsrng as (shnum & -> & ->).
  bind_inv_as H shs' f11 Hsh.
  pose proof (read_entries_ok (Shdr_of c) e Hwfs _ _ _ _ _ _ Hsh)
    as (shs & Hshs & Hshlen & -> & _).
  cbn [app] in Hshs. subst shs'.
  unfold ret in H. injection H as <- <-. cbn [ELF.e_ident ELF.ehdr ELF.phdrs ELF.shdrs].
  destruct (ehdr_field c e (slice b 0 (sizeof (Ehdr_of c))) "e_phnum" Hc12)
    as (z1 & Hz1 & Hz10); [cbn; tauto |].
  destruct (ehdr_field c e (slice b 0 (sizeof (Ehdr_of c))) "e_shnum" Hc12)
    as (z2 & Hz2 & Hz20); [cbn; tauto |].
  rewrite <- Hhdr in Hz1, Hz2. rewrite Hnum in Hz1. rewrite Hsnum in Hz2.
  injection Hz1 as <-. injection Hz2 as <-.
  exists c, e, phoff, phnum, shoff, shnum.
  repeat (split; [first [assumption | lia] |]).
  exact Hphnth.
Qed.

Lemma parsed_tables_match_header_witness :
  ELF.init elf32_le = (Ok elf32_le_model, mkBytesIO elf32_le 124)
  /\ exists c e phoff phnum shoff shnum,
      getitem (ELF.e_ident elf32_le_model) "EI_CLASS" = Ok (VInt c)
      /\ (c = ELFCLASS32 \/ c = ELFCLASS64)
      /\ getitem (ELF.e_ident elf32_le_model) "EI_DATA" = Ok e
      /\ getitem (ELF.ehdr elf32_le_model) "e_phoff" = Ok (VInt phoff)
      /\ getitem (ELF.ehdr elf32_le_model) "e_phnum" = Ok (VInt phnum)
      /\ getitem (ELF.ehdr elf32_le_model) "e_shoff" = Ok (VInt shoff)
      /\ getitem (ELF.ehdr elf32_le_model) "e_shnum" = Ok (VInt shnum)
      /\ Z.of_nat (length (ELF.phdrs elf32_le_model)) = phnum
      /\ Z.of_nat (length (ELF.shdrs elf32_le_model)) = shnum
      /\ sizeof (Phdr_of c) = (if c =? ELFCLASS32 then 32%nat else 56%nat)
      /\ forall i entry,
          nth_error (ELF.phdrs elf32_le_model) i = Some entry ->
          readStruct (Phdr_of c) e
            (mkBytesIO elf32_le (Z.to_nat phoff + i * sizeof (Phdr_of c)))
          = (Ok entry,
             mkBytesIO elf32_le
               (Z.to_nat phoff + i * sizeof (Phdr_of c) + sizeof (Phdr_of c))).
Proof.
  assert (Hinit : ELF.init elf32_le = (Ok elf32_le_model, mkBytesIO elf32_le 124))
    by (vm_compute; reflexivity).
  split; [exact Hinit |].
  exact (parsed_tables_match_header elf32_le elf32_le_model _ Hinit).
Defined.

(** * Re-emission *)

(** C1 -- on the 124-byte file [elf32_le] the code does not give the
    input back.  [_parse] succeeds and leaves the cursor of the buffer
    at offset 124, behind the section header; [serialize] writes the
    file header at the cursor as it stands, so the result is the input
    followed by a second copy of its 52-byte header. *)
Theorem serialize_writes_header_at_cursor :
  (exists self, ELF.init elf32_le = (Ok self, mkBytesIO elf32_le 124))
  /\ ELF.main elf32_le = Ok (elf32_le ++ ehdr32_le)
  /\ ELF.main elf32_le <> Ok elf32_le.
Proof.
  split; [eexists; vm_compute; reflexivity |].
  assert (H : ELF.main elf32_le = Ok (elf32_le ++ ehdr32_le))
    by (vm_compute; reflexivity).
  split; [exact H |].
  rewrite H. intros Heq. injection Heq as Heq.
  apply (f_equal (@length byte)) in Heq. vm_compute in Heq. discriminate Heq.
Qed.

(** C2 -- on the big-endian file [elf32_be] the byte order captured at
    parse time is 2, and [serialize] writes the multi-byte fields of the
    file header least significant byte first: [writeStruct] is called
    for the header without [endian] and falls back to its default. *)
Theorem serialize_header_ignores_byte_order :
  (exists self,
      fst (ELF.init elf32_be) = Ok self
      /\ getitem (ELF.e_ident self) "EI_DATA" = Ok (VInt ELFDATA2MSB))
  /\ elf32_be = ident Byte.x01 Byte.x02 ++ bare32_msb
  /\ ELF.main elf32_be = Ok (ident Byte.x01 Byte.x02 ++ bare32_lsb)
  /\ bare32_lsb <> bare32_msb.
Proof.
  split; [eexists; split; [vm_compute; reflexivity | reflexivity] |].
  split; [reflexivity |].
  split; [vm_compute; reflexivity | discriminate].
Qed.

(** * What the operations keep *)

Section Respects.
Variable R : BytesIO -> BytesIO -> Prop.
Hypothesis R_refl : forall f, R f f.
Hypothesis R_trans : forall f g h, R f g -> R g h -> R f h.

Lemma respects_ret {A} (a : A) : respects R (ret a).
Proof. intros f r f' H. injection H as _ <-. apply R_refl. Qed.

Lemma respects_raise {A} ex : respects R (@raise A ex).
Proof. intros f r f' H. injection H as _ <-. apply R_refl. Qed.

Lemma respects_lift {A} (o : outcome A) : respects R (lift o).
Proof. intros f r f' H. injection H as _ <-. apply R_refl. Qed.

Lemma respects_assert s c : respects R (assert s c).
Proof. destruct c; [apply respects_ret | apply respects_raise]. Qed.

Lemma respects_bind {A B} (m : M A) (k : A -> M B) :
  respects R m -> (forall a, respects R (k a)) -> respects R (bind m k).
Proof.
  intros Hm Hk f r f' H. unfold bind in H.
  destruct (m f) as [[a | ex] f1] eqn:E.
  - exact (R_trans _ _ _ (Hm _ _ _ E) (Hk a _ _ _ H)).
  - injection H as _ <-. exact (Hm _ _ _ E).
Qed.

Lemma respects_readStruct_loop rd e fields :
  (forall t c, respects R (rd t c e)) ->
  forall res, respects R (readStruct_loop rd fields e res).
Proof.
  intros Hrd. induction fields as [| [name [t c]] rest IH]; intros res;
    cbn [readStruct_loop].
  - apply respects_ret.
  - apply respects_bind; [apply Hrd | intros v; apply IH].
Qed.

Lemma respects_writeStruct_loop wr e fields :
  (forall v t c, respects R (wr v t c e)) ->
  forall m, respects R (writeStruct_loop wr m fields e).
Proof.
  intros Hwr m. induction fields as [| [name [t c]] rest IH];
    cbn [writeStruct_loop].
  - apply respects_ret.
  - apply respects_bind; [apply respects_lift | intros v].
    apply respects_bind; [apply Hwr | intros _; apply IH].
Qed.

Hypothesis R_read : forall size, respects R (file_read size).

Lemma respects_read_leaf t c e : respects R (read_leaf t c e).
Proof.
  unfold read_leaf. destruct (assoc t typeNames) as [fmt |];
    [| apply respects_raise].
  apply respects_bind; [apply R_read | intros b].
  destruct (negb _); [apply respects_raise | apply respects_lift].
Qed.

Lemma respects_read_at d : forall t c e, respects R (read_at d t c e).
Proof.
  induction d as [| d IH]; intros t c e; cbn [read_at];
    destruct (in_schemes t); try apply respects_read_leaf;
    try apply respects_raise.
  destruct (assoc t globals) as [sch |]; [| apply respects_raise].
  apply respects_readStruct_loop. intros t' c'. apply IH.
Qed.

Lemma respects_readStruct sch e : respects R (readStruct sch e).
Proof.
  unfold readStruct, read. apply respects_readStruct_loop.
  intros t c. apply respects_read_at.
Qed.

Lemma respects_read_entries sch e k : forall l, respects R (ELF.read_entries k sch e l).
Proof.
  induction k as [| k IH]; intros l; cbn [ELF.read_entries].
  - apply respects_ret.
  - apply respects_bind; [apply respects_readStruct | intros v; apply IH].
Qed.

Hypothesis R_write : forall b, respects R (file_write b).

Lemma respects_write_leaf v t c e : respects R (write_leaf v t c e).
Proof.
  unfold write_leaf. destruct (assoc t typeNames) as [fmt |];
    [| apply respects_raise].
  apply respects_bind; [apply respects_lift | intros b; apply R_write].
Qed.

Lemma respects_write_at d : forall v t c e, respects R (write_at d v t c e).
Proof.
  induction d as [| d IH]; intros v t c e; cbn [write_at];
    destruct (in_schemes t); try apply respects_write_leaf;
    try apply respects_raise.
  destruct (assoc t globals) as [sch |]; [| apply respects_raise].
  apply respects_writeStruct_loop. intros v' t' c'. apply IH.
Qed.

Lemma respects_writeStruct m sch e : respects R (writeStruct m sch e).
Proof.
  unfold writeStruct, write. apply respects_writeStruct_loop.
  intros v t c. apply respects_write_at.
Qed.

Lemma respects_write_entries l sch e indices :
  respects R (ELF.write_entries indices l sch e).
Proof.
  induction indices as [| i rest IH]; cbn [ELF.write_entries].
  - apply respects_ret.
  - apply respects_bind; [apply respects_lift | intros v].
    apply respects_bind; [apply respects_writeStruct | intros _; apply IH].
Qed.

Hypothesis R_seek : forall v, respects R (seek v).

Lemma respects_parse : respects R ELF._parse.
Proof.
  unfold ELF._parse. apply respects_bind.
  - unfold ELF._parse_ident.
    apply respects_bind; [apply respects_readStruct | intros id].
    apply respects_bind; [apply respects_lift | intros mag].
    apply respects_bind; [apply respects_assert | intros _].
    apply respects_bind; [apply respects_lift | intros ver].
    apply respects_bind; [apply respects_assert | intros _].
    apply respects_bind; [apply respects_lift | intros e; apply respects_ret].
  - intros [id e]. cbn [fst snd]. unfold ELF._parse_from.
    apply respects_bind.
    + unfold ELF._parse_ehdr.
      apply respects_bind; [apply R_seek | intros _].
      apply respects_bind; [apply respects_lift | intros cls].
      destruct (eq_int cls ELFCLASS32); [| destruct (eq_int cls ELFCLASS64)].
      * apply respects_bind; [apply respects_readStruct | intros; apply respects_ret].
      * apply respects_bind; [apply respects_readStruct | intros; apply respects_ret].
      * apply respects_raise.
    + intros [[Ph Sh] hdr]. unfold ELF._parse_tables.
      apply respects_bind; [apply respects_lift | intros off].
      apply respects_bind; [apply R_seek | intros _].
      apply respects_bind; [apply respects_lift | intros num].
      apply respects_bind; [apply respects_lift | intros n].
      apply respects_bind; [apply respects_read_entries | intros phs].
      apply respects_bind; [apply respects_lift | intros soff].
      apply respects_bind; [apply R_seek | intros _].
      apply respects_bind; [apply respects_lift | intros snum].
      apply respects_bind; [apply respects_lift | intros sn].
      apply respects_bind; [apply respects_read_entries | intros shs].
      apply respects_ret.
Qed.

Hypothesis R_rewind : forall f, R f (mkBytesIO (getvalue f) 0).

Lemma respects_serialize self : respects R (ELF.serialize self).
Proof.
  unfold ELF.serialize.
  apply respects_bind; [apply respects_lift | intros cls].
  apply respects_bind.
  { destruct (eq_int cls ELFCLASS32); [apply respects_ret |].
    destruct (eq_int cls ELFCLASS64); [apply respects_ret | apply respects_raise]. }
  intros [[Eh Ph] Sh].
  apply respects_bind; [apply respects_lift | intros e].
  apply respects_bind; [apply respects_writeStruct | intros _].
  apply respects_bind; [apply respects_lift | intros off].
  apply respects_bind; [apply R_seek | intros _].
  apply respects_bind; [apply respects_lift | intros num].
  apply respects_bind; [apply respects_lift | intros n].
  apply respects_bind; [apply respects_write_entries | intros _].
  apply respects_bind; [apply respects_lift | intros soff].
  apply respects_bind; [apply R_seek | intros _].
  apply respects_bind; [apply respects_lift | intros snum].
  apply respects_bind; [apply respects_lift | intros sn].
  apply respects_bind; [apply respects_write_entries | intros _].
  intros f r f' H. injection H as _ <-. apply R_rewind.
Qed.
End Respects.

Lemma file_read_read_on size : respects read_on (file_read size).
Proof.
  intros f r f' H. unfold file_read in H. injection H as _ <-.
  split; cbn; [reflexivity | lia].
Qed.

Lemma read_on_refl f : read_on f f.
Proof. split; [reflexivity | lia]. Qed.

Lemma read_on_trans f g h : read_on f g -> read_on g h -> read_on f h.
Proof. unfold read_on. intros [H1 H2] [H3 H4]. split; [congruence | lia]. Qed.

(** X1 -- [readStruct] only reads: whatever the schema, the byte order
    and the outcome (a dict or any exception), the bytes of the buffer
    are what they were and the cursor has not moved back. *)
Theorem readStruct_only_reads sch e f r f' :
  readStruct sch e f = (r, f') ->
  getvalue f' = getvalue f /\ (pos f <= pos f')%nat.
Proof.
  apply (respects_readStruct read_on read_on_refl read_on_trans file_read_read_on).
Qed.

Lemma readStruct_only_reads_witness :
  readStruct Elf64_Ehdr (VInt ELFDATA2MSB) (mkBytesIO elf32_be 3)
  = (Raise RuntimeError_NotEnoughBytes, mkBytesIO elf32_be 52)
  /\ getvalue (mkBytesIO elf32_be 52) = getvalue (mkBytesIO elf32_be 3)
  /\ (pos (mkBytesIO elf32_be 3) <= pos (mkBytesIO elf32_be 52))%nat.
Proof.
  assert (H : readStruct Elf64_Ehdr (VInt ELFDATA2MSB) (mkBytesIO elf32_be 3)
              = (Raise RuntimeError_NotEnoughBytes, mkBytesIO elf32_be 52))
    by (vm_compute; reflexivity).
  split; [exact H | exact (readStruct_only_reads _ _ _ _ _ H)].
Defined.

(** X2 -- [_parse] never changes the bytes it is given: after
    [ELF(input)], successful or not, the buffer holds the input. *)
Theorem parse_keeps_input b : getvalue (snd (ELF.init b)) = b.
Proof.
  unfold ELF.init.
  destruct (ELF._parse (mkBytesIO b 0)) as [r f'] eqn:E. cbn [snd].
  refine (respects_parse same_bytes _ _ _ _ _ _ _ E).
  - intros f. reflexivity.
  - unfold same_bytes. intros f g h H1 H2. congruence.
  - intros size f r0 f0 H. exact (proj1 (file_read_read_on size f r0 f0 H)).
  - intros v f r0 f0 H. unfold seek, file_seek in H.
    destruct v as [z | | |]; try (injection H as _ <-; reflexivity).
    destruct ((z <? - 2 ^ 63) || (2 ^ 63 <=? z)); [injection H as _ <-; reflexivity |].
    destruct (z <? 0); injection H as _ <-; reflexivity.
Qed.

Lemma file_write_grown b : respects grown (file_write b).
Proof.
  intros [d p] r f' H. destruct b as [| x b].
  - injection H as _ <-. unfold grown. lia.
  - rewrite file_write_nonempty in H by congruence. injection H as _ <-.
    unfold grown. cbn [getvalue].
    rewrite length_app, write_prefix_length. cbn [length].
    rewrite length_app, length_skipn. lia.
Qed.

Lemma same_bytes_grown {A} (m : M A) : respects same_bytes m -> respects grown m.
Proof. intros H f r f' E. unfold grown. rewrite (H f r f' E). lia. Qed.

Lemma seek_same_bytes v : respects same_bytes (seek v).
Proof.
  intros f r0 f0 H. unfold seek, file_seek in H.
  destruct v as [z | | |]; try (injection H as _ <-; reflexivity).
  destruct ((z <? - 2 ^ 63) || (2 ^ 63 <=? z)); [injection H as _ <-; reflexivity |].
  destruct (z <? 0); injection H as _ <-; reflexivity.
Qed.

(** X3 -- [read] (the method of [ELF]) never returns fewer bytes than
    the buffer it starts from holds: [serialize] overwrites and
    appends, it does not cut. *)
Theorem emit_never_shrinks self f out f' :
  ELF.read self f = (Ok out, f') -> (length (getvalue f) <= length out)%nat.
Proof.
  unfold ELF.read. intros H. bind_inv_as H u f1 Hs. injection H as <- <-.
  refine (respects_serialize grown _ _ _ _ _ self _ _ _ Hs).
  - intros g. unfold grown. lia.
  - unfold grown. intros g1 g2 g3. lia.
  - apply file_write_grown.
  - intros v. apply same_bytes_grown, seek_same_bytes.
  - intros g. unfold grown. cbn. lia.
Qed.

Lemma emit_never_shrinks_witness :
  ELF.read elf32_le_model (mkBytesIO elf32_le 124)
  = (Ok (elf32_le ++ ehdr32_le), mkBytesIO (elf32_le ++ ehdr32_le) 0)
  /\ (length (getvalue (mkBytesIO elf32_le 124)) <= length (elf32_le ++ ehdr32_le))%nat.
Proof.
  assert (H : ELF.read elf32_le_model (mkBytesIO elf32_le 124)
              = (Ok (elf32_le ++ ehdr32_le), mkBytesIO (elf32_le ++ ehdr32_le) 0))
    by (vm_compute; reflexivity).
  split; [exact H | exact (emit_never_shrinks _ _ _ _ H)].
Defined.

(** * Values of the marshaller *)

Lemma decode_in_range bo fmt chunk :
  is_bytes fmt = false -> is_float fmt = false ->
  (length chunk <= calcsize fmt)%nat ->
  exists z, decode bo fmt chunk = VInt z /\ in_range fmt z = true.
Proof.
  intros Hb Hf Hl. unfold decode, in_range. rewrite Hb, Hf.
  pose proof (le_combine_bound (ordered bo chunk)) as Hr.
  rewrite ordered_length in Hr.
  set (u := le_combine (ordered bo chunk)) in *.
  assert (Hu : 0 <= u < 2 ^ (8 * Z.of_nat (calcsize fmt))).
  { split; [lia |]. eapply Z.lt_le_trans; [apply Hr |].
    apply Z.pow_le_mono_r; lia. }
  clear Hr.
  destruct fmt; try discriminate; cbn [is_signed calcsize] in *;
    change (Z.of_nat 1) with 1 in *; change (Z.of_nat 2) with 2 in *;
    change (Z.of_nat 4) with 4 in *; change (Z.of_nat 8) with 8 in *;
    cbn -[Z.leb Z.ltb] in Hu |- *;
    try (destruct (u <? _) eqn:E; [apply Z.ltb_lt in E | apply Z.ltb_ge in E]);
    eexists; (split; [reflexivity |]);
    apply andb_true_iff; split; first [apply Z.leb_le | apply Z.ltb_lt]; lia.
Qed.

(** X4 -- an integer [read] returns lies in the range of its type:
    [0 .. 2^(8w) - 1] for an unsigned type of [w] bytes and
    [-2^(8w-1) .. 2^(8w-1) - 1] for a signed one, whatever the bytes,
    the count and the byte order. *)
Theorem read_integer_in_range t fmt c e f v f' :
  assoc t typeNames = Some fmt -> is_bytes fmt = false -> is_float fmt = false ->
  read t c e f = (Ok v, f') ->
  exists z, v = VInt z /\ in_range fmt z = true.
Proof.
  intros Ht Hb Hf H. unfold read in H.
  rewrite read_at_leaf in H by exact (typeNames_not_schemes t fmt Ht).
  unfold read_leaf in H. rewrite Ht in H.
  bind_inv_as H bs f1 Hr.
  destruct (negb _); [discriminate H |].
  apply lift_ok_inv in H. destruct H as [H _].
  unfold index, unpack in H. rewrite Hb in H.
  destruct (Z.to_nat c) as [| k]; [discriminate H |].
  cbn [chunks map nth_error] in H. injection H as <-.
  apply decode_in_range; [exact Hb | exact Hf |].
  rewrite length_firstn. lia.
Qed.

Lemma read_integer_in_range_witness :
  assoc "int16" typeNames = Some Fh /\ is_bytes Fh = false /\ is_float Fh = false
  /\ read "int16" 1 (VInt ELFDATA2MSB) (mkBytesIO [Byte.xff; Byte.xfe] 0)
     = (Ok (VInt (-2)), mkBytesIO [Byte.xff; Byte.xfe] 2)
  /\ exists z, VInt (-2) = VInt z /\ in_range Fh z = true.
Proof.
  assert (H : read "int16" 1 (VInt ELFDATA2MSB) (mkBytesIO [Byte.xff; Byte.xfe] 0)
              = (Ok (VInt (-2)), mkBytesIO [Byte.xff; Byte.xfe] 2))
    by (vm_compute; reflexivity).
  split; [reflexivity |]. split; [reflexivity |]. split; [reflexivity |].
  split; [exact H |].
  exact (read_integer_in_range "int16" Fh 1 _ _ _ _ eq_refl eq_refl eq_refl H).
Defined.

(** Unpacking what was packed from an integer in range gives it back. *)
Lemma decode_pack bo fmt z :
  is_bytes fmt = false -> is_float fmt = false -> in_range fmt z = true ->
  exists bs, pack bo 1 fmt (VInt z) = Ok bs /\ length bs = calcsize fmt
             /\ decode bo fmt bs = VInt z.
Proof.
  intros Hb Hf Hr. unfold pack. rewrite Hb, Hf, Hr. cbn [Z.eqb andb].
  eexists. split; [reflexivity |].
  split; [rewrite ordered_length; apply length_le_split |].
  unfold decode. rewrite Hb, Hf, ordered_involutive, le_combine_split.
  unfold in_range in Hr.
  destruct fmt; try discriminate; cbn [is_signed calcsize] in *;
    change (Z.of_nat 1) with 1 in *; change (Z.of_nat 2) with 2 in *;
    change (Z.of_nat 4) with 4 in *; change (Z.of_nat 8) with 8 in *;
    cbn -[Z.leb Z.ltb Z.modulo] in Hr |- *;
    apply andb_true_iff in Hr; destruct Hr as [H1 H2];
    apply Z.leb_le in H1; apply Z.ltb_lt in H2;
    try (rewrite Z.mod_small by lia; reflexivity);
    (destruct (Z.neg_nonneg_cases z) as [Hn | Hn];
     [ match goal with
       | |- context [z mod ?m] =>
           rewrite <- (Z.mod_unique_pos z m (-1) (z + m)) by lia
       end
     | rewrite Z.mod_small by lia ];
     match goal with
     | |- context [?a <? ?b] =>
         destruct (a <? b) eqn:E; [apply Z.ltb_lt in E | apply Z.ltb_ge in E]
     end; first [f_equal; lia | lia]).
Qed.

(** X5 -- an integer in the range of its type that [write] stores is
    what [read] finds at that offset, in either byte order; an integer
    outside the range makes [write] raise [struct.error] and leaves the
    buffer as it was. *)
Theorem write_then_read_integer t fmt z e g :
  assoc t typeNames = Some fmt -> is_bytes fmt = false -> is_float fmt = false ->
  (in_range fmt z = true ->
   exists g',
     write (VInt z) t 1 e g = (Ok tt, g')
     /\ read t 1 e (mkBytesIO (getvalue g') (pos g))
        = (Ok (VInt z), mkBytesIO (getvalue g') (pos g + calcsize fmt)))
  /\ (in_range fmt z = false -> write (VInt z) t 1 e g = (Raise StructError, g)).
Proof.
  intros Ht Hb Hf.
  pose proof (typeNames_not_schemes t fmt Ht) as Hs.
  unfold write, read. rewrite write_at_leaf, read_at_leaf by exact Hs.
  split; intros Hr.
  - destruct (decode_pack (endian_char e) fmt z Hb Hf Hr) as (bs & Hp & Hl & Hd).
    destruct (file_write_slice bs g) as (Hok & Hen & Hsl & _).
    cbv zeta in Hen, Hsl. rewrite Hl in Hen, Hsl.
    exists (snd (file_write bs g)). split.
    + unfold write_leaf. rewrite Ht, Hp. unfold bind, lift.
      rewrite (surjective_pairing (file_write bs g)) at 1. rewrite Hok. reflexivity.
    + assert (Hrd : readable_leaf t 1 = true)
        by (unfold readable_leaf; rewrite Ht, Hb; reflexivity).
      destruct (read_leaf_reads e t 1 Hrd (getvalue (snd (file_write bs g))) (pos g))
        as [Hread _].
      unfold leaf_size, leaf_dec in Hread. rewrite Ht in Hread.
      change (Z.to_nat 1) with 1%nat in Hread. rewrite Nat.mul_1_l in Hread.
      rewrite (Hread Hen), Hsl. unfold unpack. rewrite Hb.
      change (Z.to_nat 1) with 1%nat. rewrite chunks_one by exact Hl.
      cbn [map hd]. rewrite Hd. reflexivity.
  - unfold write_leaf. rewrite Ht. unfold pack. rewrite Hb, Hf, Hr. reflexivity.
Qed.

Lemma write_then_read_integer_witness :
  assoc "Elf32_Half" typeNames = Some FH /\ is_bytes FH = false /\ is_float FH = false
  /\ in_range FH 513 = true /\ in_range FH 65536 = false
  /\ (exists g',
        write (VInt 513) "Elf32_Half" 1 (VInt ELFDATA2MSB) (mkBytesIO [] 3) = (Ok tt, g')
        /\ read "Elf32_Half" 1 (VInt ELFDATA2MSB) (mkBytesIO (getvalue g') 3)
           = (Ok (VInt 513), mkBytesIO (getvalue g') (3 + calcsize FH)))
  /\ write (VInt 65536) "Elf32_Half" 1 (VInt ELFDATA2MSB) (mkBytesIO [] 3)
     = (Raise StructError, mkBytesIO [] 3).
Proof.
  pose proof (write_then_read_integer "Elf32_Half" FH 513 (VInt ELFDATA2MSB)
                (mkBytesIO [] 3) eq_refl eq_refl eq_refl) as [H1 _].
  pose proof (write_then_read_integer "Elf32_Half" FH 65536 (VInt ELFDATA2MSB)
                (mkBytesIO [] 3) eq_refl eq_refl eq_refl) as [_ H2].
  split; [reflexivity |]. split; [reflexivity |]. split; [reflexivity |].
  split; [reflexivity |]. split; [reflexivity |].
  split; [exact (H1 eq_refl) | exact (H2 eq_refl)].
Defined.

(** X6 -- a byte block written under count [c] takes exactly [c] bytes
    of the buffer: the first [c] bytes of the value, filled up with
    zero bytes when the value is shorter; this is what [read] then
    returns at that offset. *)
Theorem write_then_read_bytes t c bs e g :
  assoc t typeNames = Some Fs -> 0 <= c ->
  let stored := firstn (Z.to_nat c) bs ++ repeat Byte.x00 (Z.to_nat c - length bs) in
  exists g',
    write (VBytes bs) t c e g = (Ok tt, g')
    /\ length stored = Z.to_nat c
    /\ read t c e (mkBytesIO (getvalue g') (pos g))
       = (Ok (VBytes stored), mkBytesIO (getvalue g') (pos g + Z.to_nat c)).
Proof.
  intros Ht Hc stored.
  pose proof (typeNames_not_schemes t Fs Ht) as Hs.
  assert (Hl : length stored = Z.to_nat c).
  { subst stored. rewrite length_app, length_firstn, repeat_length. lia. }
  unfold write, read. rewrite write_at_leaf, read_at_leaf by exact Hs.
  destruct (file_write_slice stored g) as (Hok & Hen & Hsl & _).
  cbv zeta in Hen, Hsl. rewrite Hl in Hen, Hsl.
  exists (snd (file_write stored g)). split; [| split; [exact Hl |]].
  - unfold write_leaf. rewrite Ht. unfold pack. cbn [is_bytes].
    destruct (c <? 0) eqn:E; [apply Z.ltb_lt in E; lia |].
    unfold bind, lift. fold stored.
    rewrite (surjective_pairing (file_write stored g)) at 1. rewrite Hok. reflexivity.
  - assert (Hrd : readable_leaf t c = true)
      by (unfold readable_leaf; rewrite Ht; cbn [is_bytes]; apply Z.leb_le; exact Hc).
    destruct (read_leaf_reads e t c Hrd (getvalue (snd (file_write stored g))) (pos g))
      as [Hread _].
    unfold leaf_size, leaf_dec in Hread. rewrite Ht in Hread.
    cbn [calcsize] in Hread. rewrite Nat.mul_1_r in Hread.
    rewrite (Hread Hen), Hsl. reflexivity.
Qed.

Lemma write_then_read_bytes_witness :
  assoc "char" typeNames = Some Fs /\ 0 <= 4
  /\ exists g',
      write (VBytes [Byte.x41; Byte.x42]) "char" 4 (VInt ELFDATA2LSB) (mkBytesIO [] 0)
      = (Ok tt, g')
      /\ read "char" 4 (VInt ELFDATA2LSB) (mkBytesIO (getvalue g') 0)
         = (Ok (VBytes [Byte.x41; Byte.x42; Byte.x00; Byte.x00]),
            mkBytesIO (getvalue g') 4).
Proof.
  assert (H0 : 0 <= 4) by lia.
  split; [reflexivity |]. split; [exact H0 |].
  destruct (write_then_read_bytes "char" 4 [Byte.x41; Byte.x42] (VInt ELFDATA2LSB)
              (mkBytesIO [] 0) eq_refl H0) as (g' & Hw & _ & Hr).
  exists g'. split; [exact Hw | exact Hr].
Defined.

(** * Dicts of [readStruct] *)

Lemma dict_set_keys_new {A} (d : list (string * A)) k v :
  existsb (String.eqb k) (map fst d) = false ->
  map fst (dict_set d k v) = map fst d ++ [k].
Proof.
  induction d as [| [k' v'] d IH]; cbn; intros H.
  - reflexivity.
  - apply orb_false_iff in H. destruct H as [Hk Hd].
    rewrite Hk. cbn. rewrite IH by exact Hd. reflexivity.
Qed.

Lemma existsb_eqb_app k l1 l2 :
  existsb (String.eqb k) (l1 ++ l2)
  = existsb (String.eqb k) l1 || existsb (String.eqb k) l2.
Proof. apply existsb_app. Qed.

Lemma struct_dec_keys sz dec fields :
  distinct (names fields) = true ->
  forall res bs,
    (forall k, In k (names fields) -> existsb (String.eqb k) (map fst res) = false) ->
    map fst (struct_dec sz dec fields res bs) = map fst res ++ names fields.
Proof.
  induction fields as [| [name [t c]] rest IH]; intros Hd res bs Hres.
  - cbn. rewrite app_nil_r. reflexivity.
  - cbn [struct_dec names map fst] in *.
    cbn [distinct] in Hd. apply andb_true_iff in Hd. destruct Hd as [Hn Hd].
    apply negb_true_iff in Hn.
    rewrite IH.
    + rewrite dict_set_keys_new by (apply Hres; left; reflexivity).
      rewrite <- app_assoc. reflexivity.
    + exact Hd.
    + intros k Hk.
      rewrite dict_set_keys_new by (apply Hres; left; reflexivity).
      rewrite existsb_eqb_app, (Hres k (or_intror Hk)). cbn.
      rewrite orb_false_r.
      destruct (String.eqb k name) eqn:E; [| reflexivity].
      apply String.eqb_eq in E. subst k.
      assert (Hex : existsb (String.eqb name) (map fst rest) = true).
      { apply existsb_exists. exists name. split; [exact Hk | apply String.eqb_refl]. }
      unfold names in Hn. congruence.
Qed.

(** X7 -- on a well-formed schema, [readStruct] either finds all the
    bytes of the schema and returns a dict whose keys are the field
    names of the schema in schema order, the cursor moved by exactly
    the size of the schema; or it raises the short-read error.  No
    other outcome occurs: no partial dict, no other exception. *)
Theorem readStruct_all_or_nothing sch e b p :
  wf_scheme sch = true ->
  (enough b p (sizeof sch) ->
   exists d,
     readStruct sch e (mkBytesIO b p) = (Ok (VDict d), mkBytesIO b (p + sizeof sch))
     /\ map fst d = names sch)
  /\ (~ enough b p (sizeof sch) ->
      exists p', readStruct sch e (mkBytesIO b p)
                 = (Raise RuntimeError_NotEnoughBytes, mkBytesIO b p')).
Proof.
  intros Hwf. destruct (readStruct_reads sch e Hwf b p) as [Hok Hshort].
  split; [| exact Hshort].
  intros He. eexists. split; [apply Hok; exact He |].
  unfold wf_scheme in Hwf. apply andb_true_iff in Hwf. destruct Hwf as [_ Hd].
  rewrite struct_dec_keys; [reflexivity | exact Hd | reflexivity].
Qed.

Lemma readStruct_all_or_nothing_witness :
  wf_scheme Elf32_Phdr = true
  /\ enough elf32_le 52 (sizeof Elf32_Phdr)
  /\ ~ enough elf32_le 100 (sizeof Elf32_Phdr)
  /\ (exists d,
        readStruct Elf32_Phdr (VInt ELFDATA2LSB) (mkBytesIO elf32_le 52)
        = (Ok (VDict d), mkBytesIO elf32_le (52 + sizeof Elf32_Phdr))
        /\ map fst d = names Elf32_Phdr)
  /\ exists p', readStruct Elf32_Phdr (VInt ELFDATA2LSB) (mkBytesIO elf32_le 100)
                = (Raise RuntimeError_NotEnoughBytes, mkBytesIO elf32_le p').
Proof.
  assert (H1 : enough elf32_le 52 (sizeof Elf32_Phdr)) by (vm_compute; lia).
  assert (H2 : ~ enough elf32_le 100 (sizeof Elf32_Phdr)) by (vm_compute; lia).
  split; [reflexivity |]. split; [exact H1 |]. split; [exact H2 |].
  split.
  - exact (proj1 (readStruct_all_or_nothing Elf32_Phdr (VInt ELFDATA2LSB) elf32_le 52
                    eq_refl) H1).
  - exact (proj2 (readStruct_all_or_nothing Elf32_Phdr (VInt ELFDATA2LSB) elf32_le 100
                    eq_refl) H2).
Defined.

(** * Outcomes of [_parse] *)

(** X8 -- a buffer shorter than the 16-byte identification block, the
    empty buffer included, fails with the short-read error whatever
    its bytes are: the magic is not even looked at. *)
Theorem parse_short_buffer (b : list byte) :
  (length b < 16)%nat -> fst (ELF.init b) = Raise RuntimeError_NotEnoughBytes.
Proof.
  intros Hl. unfold ELF.init, ELF._parse, ELF._parse_ident.
  destruct (readStruct_reads Elf_Ident (VInt ELFDATA2MSB) eq_refl b 0%nat)
    as [_ Hshort].
  destruct Hshort as [p' Hp'].
  { unfold enough. change (sizeof Elf_Ident) with 16%nat. lia. }
  erewrite bind_raise; [reflexivity |].
  erewrite bind_raise; [reflexivity | exact Hp'].
Qed.

Lemma parse_short_buffer_witness :
  (length (firstn 15 elf32_le) < 16)%nat
  /\ fst (ELF.init (firstn 15 elf32_le)) = Raise RuntimeError_NotEnoughBytes.
Proof.
  assert (H : (length (firstn 15 elf32_le) < 16)%nat) by (vm_compute; lia).
  split; [exact H | exact (parse_short_buffer _ H)].
Defined.

(** A buffer of at least 16 bytes, split at its bytes 4, 5 and 6. *)
Lemma ident_split (b : list byte) :
  (16 <= length b)%nat ->
  exists c d v rest,
    firstn 16 b = firstn 4 b ++ c :: d :: v :: rest
    /\ nth_error b 4 = Some c /\ nth_error b 5 = Some d /\ nth_error b 6 = Some v.
Proof.
  intros Hl.
  destruct b as [| b0 [| b1 [| b2 [| b3 [| b4 [| b5 [| b6 rest]]]]]]];
    try (cbn in Hl; lia).
  exists b4, b5, b6, (firstn 9 rest). repeat split.
Qed.

(** The first part of [_parse] on a buffer with the signature and
    version 1. *)
Lemma parse_ident_ok (b : list byte) d :
  (16 <= length b)%nat -> firstn 4 b = ELFMAG ->
  nth_error b 5 = Some d -> nth_error b 6 = Some Byte.x01 ->
  ELF._parse_ident (mkBytesIO b 0)
  = (Ok (decode_struct Elf_Ident (VInt ELFDATA2MSB) (firstn 16 b),
         VInt (byte.unsigned d)), mkBytesIO b 16).
Proof.
  intros Hl Hmag Hd Hv.
  destruct (ident_split b Hl) as (c & d' & v & rest & Hb & _ & Hd' & Hv').
  rewrite Hd in Hd'. injection Hd' as <-. rewrite Hv in Hv'. injection Hv' as <-.
  destruct (ident_bytes (VInt ELFDATA2MSB) (firstn 4 b) c d Byte.x01 rest)
    as (Hm & _ & He & Hver); [rewrite Hmag; reflexivity |].
  rewrite <- Hb in Hm, He, Hver.
  unfold ELF._parse_ident.
  erewrite bind_ok by (apply read_ident_ok; exact Hl).
  unfold bind, lift. rewrite Hm, Hver, He, Hmag. reflexivity.
Qed.

(** X9 -- a buffer of at least 16 bytes with the right signature whose
    version byte is not 1 fails the version assertion, once the
    identification block has been read and before anything else is. *)
Theorem version_gate (b : list byte) v :
  (16 <= length b)%nat -> firstn 4 b = ELFMAG ->
  nth_error b 6 = Some v -> v <> Byte.x01 ->
  ELF.init b = (Raise (AssertionError "EI_VERSION"), mkBytesIO b 16).
Proof.
  intros Hl Hmag Hv Hne.
  destruct (ident_split b Hl) as (c & d & v' & rest & Hb & _ & _ & Hv').
  rewrite Hv in Hv'. injection Hv' as <-.
  destruct (ident_bytes (VInt ELFDATA2MSB) (firstn 4 b) c d v rest)
    as (Hm & _ & _ & Hver); [rewrite Hmag; reflexivity |].
  rewrite <- Hb in Hm, Hver.
  unfold ELF.init, ELF._parse. apply bind_raise. unfold ELF._parse_ident.
  erewrite bind_ok by (apply read_ident_ok; exact Hl).
  unfold bind at 1, lift at 1. rewrite Hm, Hmag.
  unfold bind at 1. cbn [eq_bytes bytes_eqb ELFMAG assert].
  change (assert "ELF_MAG" (bytes_eqb ELFMAG ELFMAG)) with (@ret unit tt).
  unfold ret at 1. unfold bind at 1, lift at 1. rewrite Hver.
  unfold eq_int.
  destruct (byte.unsigned v =? EV_CURRENT) eqn:E; [| reflexivity].
  apply Z.eqb_eq in E. exfalso. apply Hne. apply byte.unsigned_inj. exact E.
Qed.

Lemma version_gate_witness :
  (16 <= length (ELFMAG ++ zeros 12))%nat /\ firstn 4 (ELFMAG ++ zeros 12) = ELFMAG
  /\ nth_error (ELFMAG ++ zeros 12) 6 = Some Byte.x00 /\ Byte.x00 <> Byte.x01
  /\ ELF.init (ELFMAG ++ zeros 12)
     = (Raise (AssertionError "EI_VERSION"), mkBytesIO (ELFMAG ++ zeros 12) 16).
Proof.
  assert (Hl : (16 <= length (ELFMAG ++ zeros 12))%nat) by (vm_compute; lia).
  assert (Hne : Byte.x00 <> Byte.x01) by discriminate.
  split; [exact Hl |]. split; [reflexivity |]. split; [reflexivity |].
  split; [exact Hne |].
  exact (version_gate (ELFMAG ++ zeros 12) Byte.x00 Hl eq_refl eq_refl Hne).
Defined.

Lemma ident_class (b : list byte) c :
  (16 <= length b)%nat -> nth_error b 4 = Some c ->
  getitem (decode_struct Elf_Ident (VInt ELFDATA2MSB) (firstn 16 b)) "EI_CLASS"
  = Ok (VInt (byte.unsigned c)).
Proof.
  intros Hl Hc.
  destruct (ident_split b Hl) as (c' & d & v & rest & Hb & Hc' & _ & _).
  rewrite Hc in Hc'. injection Hc' as <-.
  destruct (ident_bytes (VInt ELFDATA2MSB) (firstn 4 b) c d v rest)
    as (_ & Hcls & _ & _).
  { rewrite length_firstn. lia. }
  rewrite <- Hb in Hcls. exact Hcls.
Qed.

(** X10 -- a buffer with the right signature and version whose class
    byte is neither 1 nor 2 ends in [NameError], not in the
    [RuntimeError] the code means to raise: the message names
    [e_ident], which is not bound there.  The cursor is back at 0. *)
Theorem unknown_class_is_name_error (b : list byte) c d :
  (16 <= length b)%nat -> firstn 4 b = ELFMAG ->
  nth_error b 4 = Some c -> nth_error b 5 = Some d -> nth_error b 6 = Some Byte.x01 ->
  c <> Byte.x01 -> c <> Byte.x02 ->
  ELF.init b = (Raise NameError, mkBytesIO b 0).
Proof.
  intros Hl Hmag Hc Hd Hv H1 H2.
  unfold ELF.init, ELF._parse.
  erewrite bind_ok by (apply parse_ident_ok; eassumption).
  cbn [fst snd]. unfold ELF._parse_from. apply bind_raise.
  unfold ELF._parse_ehdr. erewrite bind_ok by (apply seek_ok; lia).
  change (Z.to_nat 0) with 0%nat.
  unfold bind at 1, lift at 1. rewrite (ident_class b c Hl Hc). unfold eq_int.
  destruct (byte.unsigned c =? ELFCLASS32) eqn:E1.
  { apply Z.eqb_eq in E1. exfalso. apply H1. apply byte.unsigned_inj. exact E1. }
  destruct (byte.unsigned c =? ELFCLASS64) eqn:E2.
  { apply Z.eqb_eq in E2. exfalso. apply H2. apply byte.unsigned_inj. exact E2. }
  reflexivity.
Qed.

Lemma unknown_class_is_name_error_witness :
  let b := ident Byte.x03 Byte.x01 in
  (16 <= length b)%nat /\ firstn 4 b = ELFMAG
  /\ nth_error b 4 = Some Byte.x03 /\ nth_error b 5 = Some Byte.x01
  /\ nth_error b 6 = Some Byte.x01 /\ Byte.x03 <> Byte.x01 /\ Byte.x03 <> Byte.x02
  /\ ELF.init b = (Raise NameError, mkBytesIO b 0).
Proof.
  cbv zeta.
  assert (Hl : (16 <= length (ident Byte.x03 Byte.x01))%nat) by (vm_compute; lia).
  assert (H1 : Byte.x03 <> Byte.x01) by discriminate.
  assert (H2 : Byte.x03 <> Byte.x02) by discriminate.
  split; [exact Hl |]. split; [reflexivity |]. split; [reflexivity |].
  split; [reflexivity |]. split; [reflexivity |]. split; [exact H1 |].
  split; [exact H2 |].
  exact (unknown_class_is_name_error _ Byte.x03 Byte.x01 Hl eq_refl eq_refl eq_refl
           eq_refl H1 H2).
Defined.

(** * What [_parse] returns *)

Lemma entries_at_S sch e b p k :
  entries_at sch e b p (S k)
  = decode_struct sch e (slice b p (sizeof sch))
      :: entries_at sch e b (p + sizeof sch) k.
Proof.
  unfold entries_at. rewrite <- cons_seq, <- seq_shift. cbn [map].
  rewrite Nat.mul_0_l, Nat.add_0_r. f_equal.
  rewrite map_map. apply map_ext. intros i.
  replace (p + S i * sizeof sch)%nat with (p + sizeof sch + i * sizeof sch)%nat by lia.
  reflexivity.
Qed.

Lemma entries_at_nth sch e b p k i :
  (i < k)%nat ->
  nth_error (entries_at sch e b p k) i
  = Some (decode_struct sch e (slice b (p + i * sizeof sch) (sizeof sch))).
Proof.
  intros Hi. unfold entries_at.
  rewrite nth_error_map, nth_error_seq.
  destruct (Nat.ltb_spec i k); [reflexivity | lia].
Qed.

Section EntriesAt.
Variable sch : scheme.
Variable e : value.
Hypothesis Hwf : wf_scheme sch = true.

Lemma read_entries_enough k :
  forall l b p,
    enough b p (k * sizeof sch) ->
    ELF.read_entries k sch e l (mkBytesIO b p)
    = (Ok (l ++ entries_at sch e b p k), mkBytesIO b (p + k * sizeof sch)).
Proof.
  induction k as [| k IH]; intros l b p He.
  - cbn. rewrite app_nil_r, Nat.add_0_r. reflexivity.
  - cbn [ELF.read_entries].
    destruct (readStruct_reads sch e Hwf b p) as [Hok _].
    erewrite bind_ok by (apply Hok; unfold enough in *; lia).
    rewrite IH by (unfold enough in *; lia).
    rewrite entries_at_S, <- app_assoc. cbn [app]. do 2 f_equal. lia.
Qed.

Lemma read_entries_inv k :
  forall l b p l' f',
    ELF.read_entries k sch e l (mkBytesIO b p) = (Ok l', f') ->
    enough b p (k * sizeof sch)
    /\ l' = l ++ entries_at sch e b p k
    /\ f' = mkBytesIO b (p + k * sizeof sch).
Proof.
  intros l b p l' f' H.
  destruct (le_dec (k * sizeof sch) (length b - p)) as [He | He].
  - rewrite (read_entries_enough k l b p He) in H. injection H as <- <-. auto.
  - destruct (read_entries_short sch e Hwf k l b p He) as [f1 Hf1].
    rewrite Hf1 in H. discriminate H.
Qed.
End EntriesAt.

Lemma parse_ok_parsed (b : list byte) self f' :
  ELF.init b = (Ok self, f') ->
  exists c e phoff phnum shoff shnum,
    parsed_from b self c e phoff phnum shoff shnum
    /\ f' = mkBytesIO b (Z.to_nat shoff + Z.to_nat shnum * sizeof (Shdr_of c)).
Proof.
  unfold ELF.init, ELF._parse. intros H.
  bind_inv_as H ie f0 Hident. destruct ie as [id e]. cbn [fst snd] in H.
  pose proof (parse_ident_ok_inv _ _ _ _ _ Hident) as (_ & Hid & -> & _ & _ & Hdata).
  unfold ELF._parse_from in H. bind_inv_as H sel f1 Hehdr.
  destruct sel as [[Ph Sh] hdr].
  pose proof (parse_ehdr_ok_inv _ _ _ _ _ _ _ _ Hehdr)
    as (c & Hc & Hc12 & -> & -> & Hen & Hhdr & ->).
  destruct (class_schemes_wf c Hc12) as (_ & Hwfp & Hwfs).
  unfold ELF._parse_tables in H.
  bind_inv_as H voff f2 Hoff. apply lift_ok_inv in Hoff. destruct Hoff as [Hoff ->].
  bind_inv_as H u1 f3 Hseek. apply seek_ok_inv in Hseek.
  destruct Hseek as (phoff & -> & Hoff0 & ->).
  bind_inv_as H vnum f4 Hnum. apply lift_ok_inv in Hnum. destruct Hnum as [Hnum ->].
  bind_inv_as H n_ph f5 Hrng. apply lift_ok_inv in Hrng. destruct Hrng as [Hrng ->].
  apply range_ok_inv in Hrng. destruct Hrng as (phnum & -> & ->).
  bind_inv_as H phs f6 Hph.
  pose proof (read_entries_inv (Phdr_of c) e Hwfp _ _ _ _ _ _ Hph) as (Hpe & -> & ->).
  bind_inv_as H vsoff f7 Hsoff. apply lift_ok_inv in Hsoff. destruct Hsoff as [Hsoff ->].
  bind_inv_as H u2 f8 Hsseek. apply seek_ok_inv in Hsseek.
  destruct Hsseek as (shoff & -> & Hsoff0 & ->).
  bind_inv_as H vsnum f9 Hsnum. apply lift_ok_inv in Hsnum. destruct Hsnum as [Hsnum ->].
  bind_inv_as H n_sh f10 Hsrng. apply lift_ok_inv in Hsrng. destruct Hsrng as [Hsrng ->].
  apply range_ok_inv in Hsrng. destruct Hsrng as (shnum & -> & ->).
  bind_inv_as H shs f11 Hsh.
  pose proof (read_entries_inv (Shdr_of c) e Hwfs _ _ _ _ _ _ Hsh) as (Hse & -> & ->).
  unfold ret in H. injection H as <- <-.
  destruct (ehdr_field c e (slice b 0 (sizeof (Ehdr_of c))) "e_phnum" Hc12)
    as (z1 & Hz1 & Hz10); [cbn; tauto |].
  destruct (ehdr_field c e (slice b 0 (sizeof (Ehdr_of c))) "e_shnum" Hc12)
    as (z2 & Hz2 & Hz20); [cbn; tauto |].
  rewrite <- Hhdr in Hz1, Hz2. rewrite Hnum in Hz1. rewrite Hsnum in Hz2.
  injection Hz1 as <-. injection Hz2 as <-.
  exists c, e, phoff, phnum, shoff, shnum.
  split; [| reflexivity].
  unfold parsed_from. cbn [ELF.e_ident ELF.ehdr ELF.phdrs ELF.shdrs app].
  repeat (split; [first [assumption | lia | reflexivity] |]). reflexivity.
Qed.

(** X11 -- a successful [_parse] returns exactly this model: the
    identification block and the file header decoded from the start
    of the buffer, and as program and section headers the entries
    decoded back to back from [e_phoff] and [e_shoff], [e_phnum] and
    [e_shnum] of them.  It leaves the cursor behind the last section
    header, at [e_shoff + e_shnum * size]. *)
Theorem parse_result (b : list byte) self f' :
  ELF.init b = (Ok self, f') ->
  exists c e phoff phnum shoff shnum,
    parsed_from b self c e phoff phnum shoff shnum
    /\ f' = mkBytesIO b (Z.to_nat shoff + Z.to_nat shnum * sizeof (Shdr_of c)).
Proof. apply parse_ok_parsed. Qed.

Lemma parse_result_witness :
  ELF.init elf32_le = (Ok elf32_le_model, mkBytesIO elf32_le 124)
  /\ exists c e phoff phnum shoff shnum,
      parsed_from elf32_le elf32_le_model c e phoff phnum shoff shnum
      /\ mkBytesIO elf32_le 124
         = mkBytesIO elf32_le (Z.to_nat shoff + Z.to_nat shnum * sizeof (Shdr_of c)).
Proof.
  assert (H : ELF.init elf32_le = (Ok elf32_le_model, mkBytesIO elf32_le 124))
    by (vm_compute; reflexivity).
  split; [exact H | exact (parse_result elf32_le _ _ H)].
Defined.

(** X12 -- [_parse] succeeds whenever the buffer has the signature,
    version 1 and class 1 or 2, holds the whole file header, has both
    table offsets below 2^63 (the offsets [seek] takes), and holds the
    [e_phnum] program headers at [e_phoff] and the [e_shnum] section
    headers at [e_shoff]; the data-encoding byte may be anything.  The
    model it returns is the decoded one. *)
Theorem parse_succeeds (b : list byte) c d phoff phnum shoff shnum :
  (16 <= length b)%nat -> firstn 4 b = ELFMAG ->
  nth_error b 4 = Some c -> nth_error b 5 = Some d -> nth_error b 6 = Some Byte.x01 ->
  c = Byte.x01 \/ c = Byte.x02 ->
  let cls := byte.unsigned c in
  let e := VInt (byte.unsigned d) in
  let hdr := decode_struct (Ehdr_of cls) e (slice b 0 (sizeof (Ehdr_of cls))) in
  enough b 0 (sizeof (Ehdr_of cls)) ->
  getitem hdr "e_phoff" = Ok (VInt phoff) -> getitem hdr "e_phnum" = Ok (VInt phnum) ->
  getitem hdr "e_shoff" = Ok (VInt shoff) -> getitem hdr "e_shnum" = Ok (VInt shnum) ->
  phoff < 2 ^ 63 -> shoff < 2 ^ 63 ->
  enough b (Z.to_nat phoff) (Z.to_nat phnum * sizeof (Phdr_of cls)) ->
  enough b (Z.to_nat shoff) (Z.to_nat shnum * sizeof (Shdr_of cls)) ->
  ELF.init b
  = (Ok (ELF.mk (decode_struct Elf_Ident (VInt ELFDATA2MSB) (firstn 16 b)) hdr
           (entries_at (Phdr_of cls) e b (Z.to_nat phoff) (Z.to_nat phnum))
           (entries_at (Shdr_of cls) e b (Z.to_nat shoff) (Z.to_nat shnum))),
     mkBytesIO b (Z.to_nat shoff + Z.to_nat shnum * sizeof (Shdr_of cls))).
Proof.
  intros Hl Hmag Hc Hd Hv Hc12 cls e hdr Hen Hoff Hnum Hsoff Hsnum Hpb Hsb Hpe Hse.
  assert (Hcls : cls = 1 \/ cls = 2) by (subst cls; destruct Hc12 as [-> | ->]; auto).
  destruct (class_schemes_wf cls Hcls) as (Hwfh & Hwfp & Hwfs).
  assert (H0 : forall name z, In name ["e_phoff"; "e_phnum"; "e_shoff"; "e_shnum"] ->
                 getitem hdr name = Ok (VInt z) -> 0 <= z).
  { intros name z Hin Hg.
    destruct (ehdr_field cls e (slice b 0 (sizeof (Ehdr_of cls))) name Hcls Hin)
      as (z' & Hz' & Hz0).
    fold hdr in Hz'. rewrite Hg in Hz'. injection Hz' as <-. exact Hz0. }
  assert (Hp0 : 0 <= phoff) by (apply (H0 "e_phoff"); [cbn; tauto | exact Hoff]).
  assert (Hs0 : 0 <= shoff) by (apply (H0 "e_shoff"); [cbn; tauto | exact Hsoff]).
  unfold ELF.init, ELF._parse.
  erewrite bind_ok by (apply parse_ident_ok; eassumption).
  cbn [fst snd]. fold e. unfold ELF._parse_from.
  assert (Hehdr : ELF._parse_ehdr
                    (decode_struct Elf_Ident (VInt ELFDATA2MSB) (firstn 16 b)) e
                    (mkBytesIO b 16)
                  = (Ok (Phdr_of cls, Shdr_of cls, hdr),
                     mkBytesIO b (sizeof (Ehdr_of cls)))).
  { unfold ELF._parse_ehdr. erewrite bind_ok by (apply seek_ok; lia).
    change (Z.to_nat 0) with 0%nat.
    unfold bind at 1, lift at 1. rewrite (ident_class b c Hl Hc). fold cls.
    destruct (readStruct_reads (Ehdr_of cls) e Hwfh b 0%nat) as [Hok _].
    specialize (Hok Hen). rewrite Nat.add_0_l in Hok. fold hdr in Hok.
    destruct Hcls as [E | E]; rewrite E in *; cbn [eq_int Z.eqb Pos.eqb ELFCLASS32 ELFCLASS64];
      (erewrite bind_ok by exact Hok); reflexivity. }
  erewrite bind_ok by exact Hehdr. unfold ELF._parse_tables.
  unfold bind at 1, lift at 1. rewrite Hoff.
  erewrite bind_ok by (apply seek_ok; lia).
  unfold bind at 1, lift at 1. rewrite Hnum.
  unfold bind at 1, lift at 1. cbn [range].
  erewrite bind_ok by (apply (read_entries_enough _ e Hwfp); exact Hpe).
  unfold bind at 1, lift at 1. rewrite Hsoff.
  erewrite bind_ok by (apply seek_ok; lia).
  unfold bind at 1, lift at 1. rewrite Hsnum.
  unfold bind at 1, lift at 1. cbn [range].
  erewrite bind_ok by (apply (read_entries_enough _ e Hwfs); exact Hse).
  reflexivity.
Qed.

Lemma parse_succeeds_witness :
  let hdr := decode_struct (Ehdr_of (byte.unsigned Byte.x01))
               (VInt (byte.unsigned Byte.x01))
               (slice elf32_le 0 (sizeof (Ehdr_of (byte.unsigned Byte.x01)))) in
  (16 <= length elf32_le)%nat /\ firstn 4 elf32_le = ELFMAG
  /\ nth_error elf32_le 4 = Some Byte.x01 /\ nth_error elf32_le 5 = Some Byte.x01
  /\ nth_error elf32_le 6 = Some Byte.x01
  /\ enough elf32_le 0 (sizeof (Ehdr_of (byte.unsigned Byte.x01)))
  /\ getitem hdr "e_phoff" = Ok (VInt 52) /\ getitem hdr "e_phnum" = Ok (VInt 1)
  /\ getitem hdr "e_shoff" = Ok (VInt 84) /\ getitem hdr "e_shnum" = Ok (VInt 1)
  /\ 52 < 2 ^ 63 /\ 84 < 2 ^ 63
  /\ enough elf32_le (Z.to_nat 52)
       (Z.to_nat 1 * sizeof (Phdr_of (byte.unsigned Byte.x01)))
  /\ enough elf32_le (Z.to_nat 84)
       (Z.to_nat 1 * sizeof (Shdr_of (byte.unsigned Byte.x01)))
  /\ fst (ELF.init elf32_le)
     = Ok (ELF.mk (decode_struct Elf_Ident (VInt ELFDATA2MSB) (firstn 16 elf32_le)) hdr
             (entries_at (Phdr_of (byte.unsigned Byte.x01))
                (VInt (byte.unsigned Byte.x01)) elf32_le (Z.to_nat 52) (Z.to_nat 1))
             (entries_at (Shdr_of (byte.unsigned Byte.x01))
                (VInt (byte.unsigned Byte.x01)) elf32_le (Z.to_nat 84) (Z.to_nat 1))).
Proof.
  cbv zeta.
  assert (Hl : (16 <= length elf32_le)%nat) by (vm_compute; lia).
  assert (He : enough elf32_le 0 (sizeof (Ehdr_of (byte.unsigned Byte.x01))))
    by (vm_compute; lia).
  assert (Hp : enough elf32_le (Z.to_nat 52)
                 (Z.to_nat 1 * sizeof (Phdr_of (byte.unsigned Byte.x01))))
    by (vm_compute; lia).
  assert (Hs : enough elf32_le (Z.to_nat 84)
                 (Z.to_nat 1 * sizeof (Shdr_of (byte.unsigned Byte.x01))))
    by (vm_compute; lia).
  split; [exact Hl |]. split; [reflexivity |]. split; [reflexivity |].
  split; [reflexivity |]. split; [reflexivity |]. split; [exact He |].
  split; [reflexivity |]. split; [reflexivity |]. split; [reflexivity |].
  split; [reflexivity |]. split; [reflexivity |]. split; [reflexivity |].
  split; [exact Hp |]. split; [exact Hs |].
  rewrite (parse_succeeds elf32_le Byte.x01 Byte.x01 52 1 84 1 Hl eq_refl eq_refl
             eq_refl eq_refl (or_introl eq_refl) He eq_refl eq_refl eq_refl eq_refl
             eq_refl eq_refl Hp Hs).
  reflexivity.
Defined.

(** * What [serialize] writes *)

(** Writing the bytes that are already there moves the cursor only. *)
Lemma file_write_same d p n :
  enough d p n -> (0 < n)%nat ->
  file_write (slice d p n) (mkBytesIO d p) = (Ok tt, mkBytesIO d (p + n)).
Proof.
  intros He Hn. pose proof (slice_length_enough d p n He) as Hl.
  rewrite file_write_nonempty
    by (intros E; rewrite E in Hl; cbn in Hl; lia).
  rewrite Hl. f_equal. f_equal. unfold enough in He.
  replace (p - length d)%nat with 0%nat by lia. cbn [repeat]. rewrite app_nil_r.
  unfold slice. rewrite (Nat.add_comm p n), <- skipn_skipn.
  rewrite firstn_skipn. apply firstn_skipn.
Qed.

Lemma slice_app_l (b ext : list byte) p n :
  enough b p n -> slice (b ++ ext) p n = slice b p n.
Proof.
  unfold enough, slice. intros He.
  destruct (Nat.eq_dec n 0) as [-> | Hn]; [reflexivity |].
  rewrite skipn_app, firstn_app, length_skipn.
  replace (n - (length b - p))%nat with 0%nat by lia.
  cbn [firstn]. apply app_nil_r.
Qed.

Lemma enough_app_l (b ext : list byte) p n : enough b p n -> enough (b ++ ext) p n.
Proof. unfold enough. rewrite length_app. lia. Qed.

Section Restore.
Variable sch : scheme.
Variable e : value.
Hypothesis Hwf : wf_scheme sch = true.
Hypothesis Hpos : (0 < sizeof sch)%nat.

(** Writing back the entries decoded from [b] over a buffer that
    starts with [b] changes nothing but the cursor. *)
Lemma write_entries_restore b ext p n k :
  enough b p (n * sizeof sch) ->
  forall i0,
    (i0 + k <= n)%nat ->
    ELF.write_entries (seq i0 k) (entries_at sch e b p n) sch e
      (mkBytesIO (b ++ ext) (p + i0 * sizeof sch))
    = (Ok tt, mkBytesIO (b ++ ext) (p + (i0 + k) * sizeof sch)).
Proof.
  intros He. induction k as [| k IH]; intros i0 Hi.
  - cbn. rewrite Nat.add_0_r. reflexivity.
  - cbn [seq ELF.write_entries]. unfold bind at 1, lift at 1, index.
    rewrite entries_at_nth by lia.
    assert (Hen : enough b (p + i0 * sizeof sch) (sizeof sch))
      by (unfold enough in *; nia).
    unfold bind at 1.
    rewrite (writeStruct_writes sch e Hwf _ _ (slice_length_enough _ _ _ Hen)).
    rewrite <- (slice_app_l b ext) by exact Hen.
    rewrite file_write_same by (try apply enough_app_l; assumption).
    replace (p + i0 * sizeof sch + sizeof sch)%nat with (p + S i0 * sizeof sch)%nat
      by lia.
    rewrite IH by lia. do 2 f_equal. lia.
Qed.
End Restore.

Lemma class_sizes_pos c :
  c = 1 \/ c = 2 ->
  (0 < sizeof (Ehdr_of c))%nat /\ (0 < sizeof (Phdr_of c))%nat
  /\ (0 < sizeof (Shdr_of c))%nat.
Proof. intros [-> | ->]; repeat split; vm_compute; lia. Qed.

(** [serialize] on a little-endian model parsed from [b]: once the
    header write has left a buffer that starts with [b], the tables
    are written back over themselves and that buffer is the result. *)
Lemma serialize_parsed b self c phoff phnum shoff shnum g ext q :
  parsed_from b self c (VInt ELFDATA2LSB) phoff phnum shoff shnum ->
  file_write (slice b 0 (sizeof (Ehdr_of c))) g = (Ok tt, mkBytesIO (b ++ ext) q) ->
  ELF.serialize self g = (Ok tt, mkBytesIO (b ++ ext) 0).
Proof.
  intros (Hc12 & _ & Hcls & Hdata & Hen & Hhdr & Hoff & Hoff0 & Hnum & Hnum0
          & Hsoff & Hsoff0 & Hsnum & Hsnum0 & Hpe & Hph & Hse & Hsh) Hw.
  destruct (class_schemes_wf c Hc12) as (Hwfh & Hwfp & Hwfs).
  destruct (class_sizes_pos c Hc12) as (_ & Hpp & Hsp).
  unfold ELF.serialize.
  unfold bind at 1, lift at 1. rewrite Hcls.
  assert (Hsel : (if eq_int (VInt c) ELFCLASS32
                  then ret (Elf32_Ehdr, Elf32_Phdr, Elf32_Shdr)
                  else if eq_int (VInt c) ELFCLASS64
                       then ret (Elf64_Ehdr, Elf64_Phdr, Elf64_Shdr)
                       else raise NameError) g
                 = (Ok (Ehdr_of c, Phdr_of c, Shdr_of c), g))
    by (destruct Hc12 as [-> | ->]; reflexivity).
  erewrite bind_ok by exact Hsel.
  unfold bind at 1, lift at 1. rewrite Hdata.
  rewrite Hhdr at 1.
  erewrite bind_ok.
  2:{ rewrite (writeStruct_writes (Ehdr_of c) (VInt ELFDATA2LSB) Hwfh _ g
                 (slice_length_enough _ _ _ Hen)). exact Hw. }
  unfold bind at 1, lift at 1. rewrite Hoff.
  erewrite bind_ok by (apply seek_ok; lia).
  unfold bind at 1, lift at 1. rewrite Hnum.
  unfold bind at 1, lift at 1. cbn [range].
  rewrite Hph.
  pose proof (write_entries_restore (Phdr_of c) (VInt ELFDATA2LSB) Hwfp Hpp b ext
                (Z.to_nat phoff) (Z.to_nat phnum) (Z.to_nat phnum) Hpe 0%nat
                (Nat.le_refl _)) as Hwp.
  rewrite Nat.mul_0_l, Nat.add_0_r in Hwp.
  erewrite bind_ok by exact Hwp.
  unfold bind at 1, lift at 1. rewrite Hsoff.
  erewrite bind_ok by (apply seek_ok; lia).
  unfold bind at 1, lift at 1. rewrite Hsnum.
  unfold bind at 1, lift at 1. cbn [range].
  rewrite Hsh.
  pose proof (write_entries_restore (Shdr_of c) (VInt ELFDATA2LSB) Hwfs Hsp b ext
                (Z.to_nat shoff) (Z.to_nat shnum) (Z.to_nat shnum) Hse 0%nat
                (Nat.le_refl _)) as Hws.
  rewrite Nat.mul_0_l, Nat.add_0_r in Hws.
  erewrite bind_ok by exact Hws.
  reflexivity.
Qed.

Lemma file_write_at_end (b h : list byte) p :
  (length b <= p)%nat -> h <> [] ->
  file_write h (mkBytesIO b p)
  = (Ok tt, mkBytesIO (b ++ repeat Byte.x00 (p - length b) ++ h) (p + length h)).
Proof.
  intros Hp Hh. rewrite file_write_nonempty by exact Hh.
  rewrite firstn_all2 by exact Hp. rewrite skipn_all2 by lia.
  rewrite app_nil_r, <- app_assoc. reflexivity.
Qed.

Lemma header_bytes_nonempty b c :
  c = 1 \/ c = 2 -> enough b 0 (sizeof (Ehdr_of c)) ->
  slice b 0 (sizeof (Ehdr_of c)) <> [].
Proof.
  intros Hc He E. apply (f_equal (@length byte)) in E.
  rewrite slice_length_enough in E by exact He.
  destruct (class_sizes_pos c Hc) as (H & _ & _). cbn [length] in E. lia.
Qed.

(** What the header write of [serialize] leaves when the cursor that
    [_parse] left is at offset 0 or not before the end of the buffer. *)
Lemma header_write_after_parse b c p :
  c = 1 \/ c = 2 -> enough b 0 (sizeof (Ehdr_of c)) ->
  p = 0%nat \/ (length b <= p)%nat ->
  exists ext q,
    file_write (slice b 0 (sizeof (Ehdr_of c))) (mkBytesIO b p)
    = (Ok tt, mkBytesIO (b ++ ext) q)
    /\ (p = 0%nat -> ext = [])
    /\ ((length b <= p)%nat ->
        ext = repeat Byte.x00 (p - length b) ++ firstn (sizeof (Ehdr_of c)) b).
Proof.
  intros Hc He [-> | Hp].
  - exists [], (0 + sizeof (Ehdr_of c))%nat. rewrite app_nil_r. split; [| split].
    + apply file_write_same; [exact He | apply (class_sizes_pos c Hc)].
    + reflexivity.
    + intros Hl. exfalso. destruct (class_sizes_pos c Hc) as (H & _ & _).
      unfold enough in He. lia.
  - eexists. eexists. split; [| split].
    + apply file_write_at_end; [exact Hp | apply header_bytes_nonempty; assumption].
    + intros ->. exfalso. destruct (class_sizes_pos c Hc) as (H & _ & _).
      unfold enough in He. lia.
    + reflexivity.
Qed.

Lemma parsed_little_endian b self c e phoff phnum shoff shnum :
  parsed_from b self c e phoff phnum shoff shnum ->
  getitem (ELF.e_ident self) "EI_DATA" = Ok (VInt ELFDATA2LSB) ->
  parsed_from b self c (VInt ELFDATA2LSB) phoff phnum shoff shnum.
Proof.
  intros Hp Hd. pose proof Hp as (_ & _ & _ & Hdata & _).
  rewrite Hd in Hdata. injection Hdata as <-. exact Hp.
Qed.

(** X13 -- for a little-endian file that parses and has no section
    headers ([e_shoff] and [e_shnum] both 0), parsing and emitting
    gives the file back byte for byte: the cursor [_parse] leaves is
    at 0, where [serialize] writes the header. *)
Theorem emit_roundtrip_without_sections (b : list byte) self f' :
  ELF.init b = (Ok self, f') ->
  getitem (ELF.e_ident self) "EI_DATA" = Ok (VInt ELFDATA2LSB) ->
  getitem (ELF.ehdr self) "e_shoff" = Ok (VInt 0) ->
  getitem (ELF.ehdr self) "e_shnum" = Ok (VInt 0) ->
  ELF.main b = Ok b.
Proof.
  intros Hinit Hle Hso Hsn.
  destruct (parse_ok_parsed b self f' Hinit)
    as (c & e & phoff & phnum & shoff & shnum & Hp & ->).
  pose proof (parsed_little_endian _ _ _ _ _ _ _ _ Hp Hle) as Hp'.
  pose proof Hp as (Hc & _ & _ & _ & Hen & _ & _ & _ & _ & _ & Hso' & _ & Hsn' & _).
  rewrite Hso in Hso'. injection Hso' as <-. rewrite Hsn in Hsn'. injection Hsn' as <-.
  change (Z.to_nat 0 + Z.to_nat 0 * sizeof (Shdr_of c))%nat with 0%nat in Hinit.
  destruct (header_write_after_parse b c 0 Hc Hen (or_introl eq_refl))
    as (ext & q & Hw & Hext & _).
  rewrite (Hext eq_refl) in Hw.
  unfold ELF.main. unfold ELF.init in Hinit.
  erewrite bind_ok by exact Hinit. unfold ELF.read.
  erewrite bind_ok by (eapply serialize_parsed; [exact Hp' | exact Hw]).
  cbn [getvalue fst]. rewrite app_nil_r. reflexivity.
Qed.

Lemma emit_roundtrip_without_sections_witness :
  exists self f',
    ELF.init elf32_le_nosh = (Ok self, f')
    /\ getitem (ELF.e_ident self) "EI_DATA" = Ok (VInt ELFDATA2LSB)
    /\ getitem (ELF.ehdr self) "e_shoff" = Ok (VInt 0)
    /\ getitem (ELF.ehdr self) "e_shnum" = Ok (VInt 0)
    /\ ELF.main elf32_le_nosh = Ok elf32_le_nosh.
Proof.
  eexists. eexists.
  assert (Hinit : ELF.init elf32_le_nosh
                  = (Ok (ELF.mk
                           (decode_struct Elf_Ident (VInt ELFDATA2MSB)
                              (firstn 16 elf32_le_nosh))
                           (decode_struct Elf32_Ehdr (VInt ELFDATA2LSB)
                              (firstn 52 elf32_le_nosh))
                           [decode_struct Elf32_Phdr (VInt ELFDATA2LSB) phdr32_le] []),
                     mkBytesIO elf32_le_nosh 0)) by (vm_compute; reflexivity).
  split; [exact Hinit |].
  split; [reflexivity |]. split; [reflexivity |]. split; [reflexivity |].
  exact (emit_roundtrip_without_sections elf32_le_nosh _ _ Hinit eq_refl eq_refl eq_refl).
Defined.



(** X15 -- under the conditions of X13 or X14 a second call of [read]
    returns the same bytes as the first: [serialize] has put the
    cursor back to 0, the header is now written over itself, and
    nothing is appended again. *)
Theorem second_read_same (b : list byte) self f' out g :
  ELF.init b = (Ok self, f') ->
  getitem (ELF.e_ident self) "EI_DATA" = Ok (VInt ELFDATA2LSB) ->
  pos f' = 0%nat \/ (length b <= pos f')%nat ->
  ELF.read self f' = (Ok out, g) ->
  ELF.read self g = (Ok out, g).
Proof.
  intros Hinit Hle Hcur Hread.
  destruct (parse_ok_parsed b self f' Hinit)
    as (c & e & phoff & phnum & shoff & shnum & Hp & Hf).
  pose proof (parsed_little_endian _ _ _ _ _ _ _ _ Hp Hle) as Hp'.
  pose proof Hp as (Hc & _ & _ & _ & Hen & _).
  subst f'. cbn [pos] in *.
  destruct (header_write_after_parse b c _ Hc Hen Hcur)
    as (ext & q & Hw & _ & _).
  pose proof (serialize_parsed _ _ _ _ _ _ _ _ _ _ Hp' Hw) as Hs1.
  unfold ELF.read in Hread |- *.
  erewrite bind_ok in Hread by exact Hs1. injection Hread as <- <-.
  assert (Hw2 : file_write (slice b 0 (sizeof (Ehdr_of c))) (mkBytesIO (b ++ ext) 0)
                = (Ok tt, mkBytesIO (b ++ ext) (0 + sizeof (Ehdr_of c)))).
  { rewrite <- (slice_app_l b ext) by exact Hen.
    apply file_write_same; [apply enough_app_l; exact Hen | apply (class_sizes_pos c Hc)]. }
  erewrite bind_ok by (eapply serialize_parsed; [exact Hp' | exact Hw2]).
  reflexivity.
Qed.

Lemma second_read_same_witness :
  ELF.init elf32_le = (Ok elf32_le_model, mkBytesIO elf32_le 124)
  /\ getitem (ELF.e_ident elf32_le_model) "EI_DATA" = Ok (VInt ELFDATA2LSB)
  /\ (length elf32_le <= pos (mkBytesIO elf32_le 124))%nat
  /\ ELF.read elf32_le_model (mkBytesIO elf32_le 124)
     = (Ok (elf32_le ++ ehdr32_le), mkBytesIO (elf32_le ++ ehdr32_le) 0)
  /\ ELF.read elf32_le_model (mkBytesIO (elf32_le ++ ehdr32_le) 0)
     = (Ok (elf32_le ++ ehdr32_le), mkBytesIO (elf32_le ++ ehdr32_le) 0).
Proof.
  assert (Hinit : ELF.init elf32_le = (Ok elf32_le_model, mkBytesIO elf32_le 124))
    by (vm_compute; reflexivity).
  assert (Hend : (length elf32_le <= pos (mkBytesIO elf32_le 124))%nat)
    by (vm_compute; lia).
  assert (Hread : ELF.read elf32_le_model (mkBytesIO elf32_le 124)
                  = (Ok (elf32_le ++ ehdr32_le), mkBytesIO (elf32_le ++ ehdr32_le) 0))
    by (vm_compute; reflexivity).
  split; [exact Hinit |]. split; [reflexivity |]. split; [exact Hend |].
  split; [exact Hread |].
  exact (second_read_same elf32_le _ _ _ _ Hinit eq_refl (or_intror Hend) Hread).
Defined.

(** * [readCString] *)

Lemma str_join_nil : str_join [] = Ok EmptyString.
Proof. reflexivity. Qed.

(** X16 -- [readCString] never returns: what [file.read(1)] gives is a
    bytes object, which is never equal to the string the loop waits
    for, so after any number of iterations the loop is still running;
    it has raised nothing, has left the bytes alone, and has moved the
    cursor one byte per iteration until the end of the buffer. *)
Theorem readCString_never_returns steps b p :
  readCString steps (mkBytesIO b p)
  = (Ok None, mkBytesIO b (p + Nat.min steps (length b - p))).
Proof.
  unfold readCString. generalize (@nil pyobj) as res. revert p.
  induction steps as [| k IH]; intros p res.
  - cbn. rewrite Nat.add_0_r. reflexivity.
  - cbn [readCString_loop]. unfold bind at 1. unfold file_read.
    cbn [getvalue pos Z.ltb Z.compare py_eq]. change (Z.to_nat 1) with 1%nat.
    rewrite IH. f_equal. f_equal. lia.
Qed.

(** * [serialize] on a model whose lists were changed *)

Lemma bind_ext_ok {A B} (m : M A) (k k' : A -> M B) f :
  (forall a f1, m f = (Ok a, f1) -> k a f1 = k' a f1) -> bind m k f = bind m k' f.
Proof.
  intros Hk. unfold bind.
  destruct (m f) as [[a | ex] f1] eqn:E; [apply Hk; reflexivity | reflexivity].
Qed.

Lemma write_entries_more l extra sch e :
  forall indices f,
    (forall i, In i indices -> (i < length l)%nat) ->
    ELF.write_entries indices (l ++ extra) sch e f = ELF.write_entries indices l sch e f.
Proof.
  induction indices as [| i rest IH]; intros f Hi; cbn [ELF.write_entries].
  - reflexivity.
  - unfold index. rewrite nth_error_app1 by (apply Hi; left; reflexivity).
    apply bind_ext; [reflexivity | intros v f1].
    apply bind_ext; [reflexivity | intros u f2].
    apply IH. intros j Hj. apply Hi. right. exact Hj.
Qed.

(** X17 -- [serialize] writes the first [e_phnum] program headers and
    the first [e_shnum] section headers of the model and nothing
    else: entries added to the lists beyond the counts of the header
    are dropped without an error. *)
Theorem serialize_ignores_extra_entries self phnum shnum extra_ph extra_sh f :
  getitem (ELF.ehdr self) "e_phnum" = Ok (VInt phnum) ->
  getitem (ELF.ehdr self) "e_shnum" = Ok (VInt shnum) ->
  (Z.to_nat phnum <= length (ELF.phdrs self))%nat ->
  (Z.to_nat shnum <= length (ELF.shdrs self))%nat ->
  ELF.serialize
    (ELF.mk (ELF.e_ident self) (ELF.ehdr self)
       (ELF.phdrs self ++ extra_ph) (ELF.shdrs self ++ extra_sh)) f
  = ELF.serialize self f.
Proof.
  intros Hnum Hsnum Hlp Hls. unfold ELF.serialize.
  cbn [ELF.e_ident ELF.ehdr ELF.phdrs ELF.shdrs].
  apply bind_ext; [reflexivity | intros cls f1].
  apply bind_ext; [reflexivity | intros [[Eh Ph] Sh] f2].
  apply bind_ext; [reflexivity | intros e f3].
  apply bind_ext; [reflexivity | intros u1 f4].
  apply bind_ext; [reflexivity | intros off f5].
  apply bind_ext; [reflexivity | intros u2 f6].
  apply bind_ext_ok. intros vnum f7 Hv.
  apply lift_ok_inv in Hv. destruct Hv as [Hv _].
  rewrite Hnum in Hv. injection Hv as <-.
  apply bind_ext_ok. intros n f8 Hn.
  apply lift_ok_inv in Hn. destruct Hn as [Hn _]. injection Hn as <-.
  apply bind_ext.
  { apply write_entries_more. intros i Hi. apply in_seq in Hi. lia. }
  intros u3 f9.
  apply bind_ext; [reflexivity | intros soff f10].
  apply bind_ext; [reflexivity | intros u4 f11].
  apply bind_ext_ok. intros vsnum f12 Hv.
  apply lift_ok_inv in Hv. destruct Hv as [Hv _].
  rewrite Hsnum in Hv. injection Hv as <-.
  apply bind_ext_ok. intros sn f13 Hn.
  apply lift_ok_inv in Hn. destruct Hn as [Hn _]. injection Hn as <-.
  apply bind_ext; [| reflexivity].
  apply write_entries_more. intros i Hi. apply in_seq in Hi. lia.
Qed.

Lemma serialize_ignores_extra_entries_witness :
  getitem (ELF.ehdr elf32_le_model) "e_phnum" = Ok (VInt 1)
  /\ getitem (ELF.ehdr elf32_le_model) "e_shnum" = Ok (VInt 1)
  /\ (Z.to_nat 1 <= length (ELF.phdrs elf32_le_model))%nat
  /\ (Z.to_nat 1 <= length (ELF.shdrs elf32_le_model))%nat
  /\ ELF.serialize
       (ELF.mk (ELF.e_ident elf32_le_model) (ELF.ehdr elf32_le_model)
          (ELF.phdrs elf32_le_model ++ [VInt 7]) (ELF.shdrs elf32_le_model ++ []))
       (mkBytesIO elf32_le 124)
     = ELF.serialize elf32_le_model (mkBytesIO elf32_le 124).
Proof.
  assert (H1 : (Z.to_nat 1 <= length (ELF.phdrs elf32_le_model))%nat)
    by (vm_compute; lia).
  assert (H2 : (Z.to_nat 1 <= length (ELF.shdrs elf32_le_model))%nat)
    by (vm_compute; lia).
  split; [reflexivity |]. split; [reflexivity |]. split; [exact H1 |].
  split; [exact H2 |].
  exact (serialize_ignores_extra_entries elf32_le_model 1 1 [VInt 7] []
           (mkBytesIO elf32_le 124) eq_refl eq_refl H1 H2).
Defined.





